(** * OLLA benchmark harness: memory accounting and reporting

    A shallow embedding of [benchmarks.py]: the allocation replay of
    [Benchmark.measure_pt_alloc_time], the result handling of the
    [run_*] methods and the budget sweeps of the main program, together
    with the properties the design document states about them. *)

From Stdlib Require Import ZArith QArith Lia.
From stdpp Require Import gmap list strings.

Local Open Scope Z_scope.

(** ** Graph IR, as the harness reads it

    The harness touches four attributes of the dataflow graph:
    [edge.size], [edge.sinks], [node.fanin], [node.fanout] (and
    [node.time] when it sums the model run time).  Python compares and
    hashes these objects by identity; [eid] and [nid] stand for that
    identity. *)

Record Edge := mkEdge {
  eid : nat;            (* object identity *)
  esize : Z;            (* [edge.size], a Python int *)
  sinks : list nat      (* [edge.sinks], the consuming nodes *)
}.

Record Node := mkNode {
  nid : nat;            (* object identity *)
  time : option Q;      (* [node.time]: [None] or a number *)
  fanin : list Edge;    (* [node.fanin] *)
  fanout : list Edge    (* [node.fanout] *)
}.

#[global] Instance Edge_eq_dec : EqDecision Edge.
Proof. solve_decision. Defined.

#[global] Instance Edge_countable : Countable Edge.
Proof.
  refine (inj_countable' (fun e => (eid e, esize e, sinks e))
                         (fun t => mkEdge t.1.1 t.1.2 t.2) _).
  by intros [].
Defined.

(** ** A small graph used to exercise the definitions

    [n0] writes a 100-byte tensor [e1] read by [n1] and [n2], and a
    control edge [ctl] of size 0 to [n2]; [n1] writes a 60-byte tensor
    [e2] read by [n2]. *)

Module Sample.

Definition e1 : Edge := {| eid := 1; esize := 100; sinks := [1; 2]%nat |}.
Definition e2 : Edge := {| eid := 2; esize := 60; sinks := [2]%nat |}.
Definition ctl : Edge := {| eid := 3; esize := 0; sinks := [2]%nat |}.

Definition n0 : Node :=
  {| nid := 0; time := Some (1 # 1000)%Q; fanin := []; fanout := [e1; ctl] |}.
Definition n1 : Node :=
  {| nid := 1; time := Some (3 # 1000)%Q; fanin := [e1]; fanout := [e2] |}.
Definition n2 : Node :=
  {| nid := 2; time := None; fanin := [e1; e2; ctl]; fanout := [] |}.

Definition order : list Node := [n0; n1; n2].

(** A chain of three nodes; each 100-byte tensor is read by the next
    node only. *)
Definition x : Edge := {| eid := 4; esize := 100; sinks := [11]%nat |}.
Definition y : Edge := {| eid := 5; esize := 100; sinks := [12]%nat |}.

Definition a : Node :=
  {| nid := 10; time := Some 1%Q; fanin := []; fanout := [x] |}.
Definition b : Node :=
  {| nid := 11; time := Some 1%Q; fanin := [x]; fanout := [y] |}.
Definition c : Node :=
  {| nid := 12; time := Some 1%Q; fanin := [y]; fanout := [] |}.

Definition chain : list Node := [a; b; c].

End Sample.

(** ** Orderings: topological orders of a well-formed graph *)

(** Every edge some node of the ordering writes. *)
Definition produced (ns : list Node) : list Edge := ns ≫= fanout.


(** The nodes of the ordering that read [e], one entry per read. *)
Definition readers (e : Edge) (ns : list Node) : list nat :=
  ns ≫= (fun n => (fun _ => nid n) <$> filter (e =.) (fanin n)).

(** Each edge read by a node was written by a node strictly before it. *)
Fixpoint producer_first (seen : list Edge) (ns : list Node) : Prop :=
  match ns with
  | [] => True
  | n :: rest =>
      Forall (fun e => esize e ≠ 0 -> e ∈ seen) (fanin n)
      ∧ producer_first (seen ++ fanout n) rest
  end.



(** A topological order of a well-formed graph: sizes are byte counts,
    an edge has one producer, the producer comes before every sink, the
    sinks of an edge are the nodes that read it and all of them are in
    the ordering, and an edge has at least one sink. *)
Record valid_ordering (ns : list Node) : Prop := {
  vo_size : Forall (fun n => Forall (fun e => 0 <= esize e) (fanin n ++ fanout n)) ns;
  vo_producer_once : NoDup (filter (fun e => 0 < esize e) (produced ns));
  vo_producer_first : producer_first [] ns;
  vo_sinks : Forall (fun e => 0 < esize e -> sinks e ≡ₚ readers e ns) (produced ns);
  vo_has_sink : Forall (fun e => 0 < esize e -> sinks e ≠ []) (produced ns)
}.

(** ** [Benchmark.measure_pt_alloc_time] *)

Module Alloc.

(** The local class [MemLoc].  [loc_size] is its [size] attribute.  Each
    call [MemLoc(fanout.size)] makes a new object: [loc_id] is the
    position at which the object is first appended to [mem_sequence],
    which no other object shares.  [loc_edge] is a ghost field naming the
    edge the object was made for. *)
Record MemLoc := mkMemLoc {
  loc_id : nat;
  loc_size : Z;
  loc_edge : Edge
}.

#[global] Instance MemLoc_eq_dec : EqDecision MemLoc.
Proof. solve_decision. Defined.

(** Ghost record of what the two loops did, in program order: an
    assignment to [edge_ref_counts[e]] or an append to [mem_sequence]. *)
Inductive Action :=
| SetCount (e : Edge) (c : Z)
| Emit (t : MemLoc).

#[global] Instance Action_eq_dec : EqDecision Action.
Proof. solve_decision. Defined.

(** The three locals of the method, and the ghost [history]. *)
Record State := mkState {
  edge_ref_counts : gmap Edge Z;
  mem_sequence : list MemLoc;
  mem_locs : gmap Edge MemLoc;
  history : list Action
}.

Definition init : State :=
  {| edge_ref_counts := ∅; mem_sequence := []; mem_locs := ∅; history := [] |}.

(** A dictionary access with a missing key raises [KeyError]; the state
    reached so far is kept with it. *)
Inductive Outcome :=
| Done (st : State)
| KeyError (st : State).

Definition final (o : Outcome) : State :=
  match o with Done st | KeyError st => st end.

Definition bind (o : Outcome) (k : State -> Outcome) : Outcome :=
  match o with
  | Done st => k st
  | KeyError st => KeyError st
  end.

(** Body of [for fanout in n.fanout]. *)
Definition visit_fanout (st : State) (fanout : Edge) : State :=
  if bool_decide (0 < esize fanout) then
    let count := Z.of_nat (length (sinks fanout)) in
    let tensor := {| loc_id := length (mem_sequence st);
                     loc_size := esize fanout;
                     loc_edge := fanout |} in
    {| edge_ref_counts := <[fanout := count]> (edge_ref_counts st);
       mem_sequence := mem_sequence st ++ [tensor];
       mem_locs := <[fanout := tensor]> (mem_locs st);
       history := history st ++ [SetCount fanout count; Emit tensor] |}
  else st.

(** Body of [for fanin in n.fanin]. *)
Definition visit_fanin (st : State) (fanin : Edge) : Outcome :=
  if bool_decide (esize fanin = 0) then Done st
  else
    match edge_ref_counts st !! fanin with
    | None => KeyError st
    | Some c =>
        let st1 :=
          {| edge_ref_counts := <[fanin := c - 1]> (edge_ref_counts st);
             mem_sequence := mem_sequence st;
             mem_locs := mem_locs st;
             history := history st ++ [SetCount fanin (c - 1)] |} in
        if bool_decide (c - 1 = 0) then
          match mem_locs st1 !! fanin with
          | None => KeyError st1
          | Some tensor =>
              Done {| edge_ref_counts := edge_ref_counts st1;
                      mem_sequence := mem_sequence st1 ++ [tensor];
                      mem_locs := mem_locs st1;
                      history := history st1 ++ [Emit tensor] |}
          end
        else Done st1
    end.

Fixpoint visit_fanins (st : State) (fanins : list Edge) : Outcome :=
  match fanins with
  | [] => Done st
  | fanin :: rest => bind (visit_fanin st fanin) (fun st' => visit_fanins st' rest)
  end.

(** Body of [for n in node_ordering]. *)
Definition visit_node (st : State) (n : Node) : Outcome :=
  visit_fanins (foldl visit_fanout st (fanout n)) (fanin n).

Fixpoint walk (st : State) (node_ordering : list Node) : Outcome :=
  match node_ordering with
  | [] => Done st
  | n :: rest => bind (visit_node st n) (fun st' => walk st' rest)
  end.

(** The method up to the timed replay: the state of the three locals when
    the two nested loops end (or when they raise). *)
Definition measure_pt_alloc_time (node_ordering : list Node) : Outcome :=
  walk init node_ordering.

(** [num_alloc_dealloc_pairs = num_times * len(mem_sequence) / 2]. *)
Definition num_alloc_dealloc_pairs (num_times : nat) (st : State) : Q :=
  (inject_Z (Z.of_nat num_times * Z.of_nat (length (mem_sequence st))) / 2)%Q.

(** *** The timed replay

    [MemLoc.run] frees the address the object holds, or else asks the
    caching allocator for one.  The allocator is outside the program:
    [allocator k size] is the address its [k]-th call returns. *)
Inductive AllocatorCall :=
| caching_allocator_alloc (self : MemLoc)
| caching_allocator_delete (self : MemLoc) (address : Z).

(** The [address] attribute of every [MemLoc] (absent: [None]), and the
    calls made on the allocator. *)
Record Device := mkDevice {
  addresses : gmap nat Z;
  calls : list AllocatorCall
}.

Definition idle : Device := {| addresses := ∅; calls := [] |}.

Section Replay.
Variable allocator : nat -> Z -> Z.

Definition allocate (d : Device) (self : MemLoc) : Device :=
  let address := allocator (length (calls d)) (loc_size self) in
  {| addresses := <[loc_id self := address]> (addresses d);
     calls := calls d ++ [caching_allocator_alloc self] |}.

Definition run (d : Device) (self : MemLoc) : Device :=
  match addresses d !! loc_id self with
  | Some address =>
      if bool_decide (address ≠ 0) then
        {| addresses := delete (loc_id self) (addresses d);
           calls := calls d ++ [caching_allocator_delete self address] |}
      else allocate d self
  | None => allocate d self
  end.

(** [for op in mem_sequence: op.run()]. *)
Definition replay (d : Device) (mem_sequence : list MemLoc) : Device :=
  foldl run d mem_sequence.

End Replay.

(** The calls made for the [MemLoc] of [e]. *)
Definition call_about (e : Edge) (c : AllocatorCall) : Prop :=
  match c with
  | caching_allocator_alloc self | caching_allocator_delete self _ =>
      loc_edge self = e
  end.

#[global] Instance call_about_dec e c : Decision (call_about e c).
Proof. destruct c; simpl; apply _. Defined.

(** *** The walk as one flat sequence of loop bodies

    The nested loops run, node after node, the fanout body on every
    fanout and then the fanin body on every fanin. *)
Inductive Op :=
| Produce (e : Edge)     (* one turn of [for fanout in n.fanout] *)
| Consume (e : Edge).    (* one turn of [for fanin in n.fanin] *)

#[global] Instance Op_eq_dec : EqDecision Op.
Proof. solve_decision. Defined.

Definition step (st : State) (op : Op) : Outcome :=
  match op with
  | Produce e => Done (visit_fanout st e)
  | Consume e => visit_fanin st e
  end.

Fixpoint run_ops (st : State) (ops : list Op) : Outcome :=
  match ops with
  | [] => Done st
  | op :: rest => bind (step st op) (fun st' => run_ops st' rest)
  end.

Definition node_ops (n : Node) : list Op :=
  (Produce <$> fanout n) ++ (Consume <$> fanin n).

Definition ordering_ops (node_ordering : list Node) : list Op :=
  node_ordering ≫= node_ops.

(** *** What the history says about one edge *)

Definition about (e : Edge) (a : Action) : Prop :=
  match a with
  | SetCount e' _ => e' = e
  | Emit t => loc_edge t = e
  end.

#[global] Instance about_dec e a : Decision (about e a).
Proof. destruct a; simpl; apply _. Defined.

(** The values assigned to [edge_ref_counts[e]], oldest first. *)
Definition counts_of (e : Edge) (h : list Action) : list Z :=
  omap (fun a => match a with
                 | SetCount e' c => if decide (e' = e) then Some c else None
                 | Emit _ => None
                 end) h.

(** The objects appended to [mem_sequence], oldest first. *)
Definition emitted (h : list Action) : list MemLoc :=
  omap (fun a => match a with
                 | SetCount _ _ => None
                 | Emit t => Some t
                 end) h.

(** The entries of [mem_sequence] made for [e]. *)
Definition events_of (e : Edge) (ms : list MemLoc) : list MemLoc :=
  filter (fun t => loc_edge t = e) ms.

(** [n-1, n-2, ..., 0]. *)
Fixpoint countdown (n : nat) : list Z :=
  match n with
  | O => []
  | S k => Z.of_nat k :: countdown k
  end.

(** The life of one edge [e] in the state [st] the loops end in:
    - [t] is the [MemLoc] made for [e];
    - the count of [e] was set to its number of sinks [n], then to
      [n-1], ..., then to [0], and [t] was appended to [mem_sequence]
      right after the first and right after the last of these;
    - so every value but the last is positive and the last is [0];
    - [t] occurs twice in [mem_sequence];
    - in the replay, with an allocator that returns non-null addresses
      and [t] holding no address at the start, the first occurrence
      allocates, the second frees, and [t] holds no address again. *)
Definition edge_lifecycle (st : State) (e : Edge) : Prop :=
  let n := length (sinks e) in
  exists t,
    loc_edge t = e ∧ loc_size t = esize e ∧ mem_locs st !! e = Some t
    ∧ filter (about e) (history st)
      = SetCount e (Z.of_nat n) :: Emit t
        :: (SetCount e <$> countdown n) ++ [Emit t]
    ∧ counts_of e (history st) = Z.of_nat n :: countdown n
    ∧ (exists l, counts_of e (history st) = l ++ [0]
                 ∧ Forall (fun c => 0 < c) l)
    ∧ events_of e (mem_sequence st) = [t; t]
    ∧ forall allocator d,
        (forall k size, allocator k size ≠ 0) ->
        addresses d !! loc_id t = None ->
        let d' := replay allocator d (mem_sequence st) in
        exists address,
          address ≠ 0
          ∧ filter (call_about e) (calls d')
            = filter (call_about e) (calls d)
              ++ [caching_allocator_alloc t;
                  caching_allocator_delete t address]
          ∧ addresses d' !! loc_id t = None.

(** Every positive edge of [seen] has its two dictionary entries. *)
Definition has_keys (seen : list Edge) (st : State) : Prop :=
  forall e, e ∈ seen -> 0 < esize e ->
    is_Some (edge_ref_counts st !! e) ∧ is_Some (mem_locs st !! e).

(** What holds of the three locals at every point of the walk, whatever
    the ordering. *)
Record tidy (st : State) : Prop := {
  tidy_counts : forall e c, edge_ref_counts st !! e = Some c -> 0 < esize e;
  tidy_locs : forall e t, mem_locs st !! e = Some t ->
                loc_edge t = e ∧ 0 < esize e;
  tidy_seq : forall t, t ∈ mem_sequence st ->
                0 < esize (loc_edge t) ∧ loc_size t = esize (loc_edge t);
  tidy_locs_seq : forall e t, mem_locs st !! e = Some t -> t ∈ mem_sequence st;
  tidy_history : mem_sequence st = emitted (history st);
  tidy_ids : forall t, t ∈ mem_sequence st ->
               mem_sequence st !! loc_id t = Some t
}.

End Alloc.

(** ** The simulator *)

Module Simulator.

(** Modelled from the spec: [simulator.Simulator] belongs to the [olla]
    package, which is not among the sources.  The design document
    (section 4.2) describes [Simulate(node_order)]: it walks the nodes in
    the given order; on visiting a node it marks each fanout edge as
    newly live, adding its size to the current usage, and for each fanin
    edge it decrements the edge's remaining-sink count, subtracting the
    size from the current usage once the count reaches zero; zero-size
    edges are skipped entirely; it returns the peak usage observed across
    the walk and the per-step usage trace.  The usage of a step is the
    usage once the node of the step has been visited, and the peak is
    the maximum over the steps (glossary: the maximum, over all
    simulated steps, of the bytes occupied by live edges), so that a
    chain of three nodes that pass a 100-byte edge on has a peak of 100
    (section 8, scenario A).  An order in which a node reads an edge no
    earlier node wrote is rejected ([None]). *)
Record SimState := mkSim {
  ref_counts : gmap Edge Z;
  mem_used : Z
}.

Definition sim_init : SimState := {| ref_counts := ∅; mem_used := 0 |}.

Definition live (st : SimState) (e : Edge) : SimState :=
  if bool_decide (esize e = 0) then st
  else {| ref_counts := <[e := Z.of_nat (length (sinks e))]> (ref_counts st);
          mem_used := mem_used st + esize e |}.

Definition consume (st : SimState) (e : Edge) : option SimState :=
  if bool_decide (esize e = 0) then Some st
  else
    match ref_counts st !! e with
    | None => None
    | Some c =>
        let rc := <[e := c - 1]> (ref_counts st) in
        if bool_decide (c - 1 = 0)
        then Some {| ref_counts := rc; mem_used := mem_used st - esize e |}
        else Some {| ref_counts := rc; mem_used := mem_used st |}
    end.

Fixpoint consume_all (st : SimState) (es : list Edge) : option SimState :=
  match es with
  | [] => Some st
  | e :: rest =>
      match consume st e with
      | Some st' => consume_all st' rest
      | None => None
      end
  end.

Definition visit (st : SimState) (n : Node) : option SimState :=
  consume_all (foldl live st (fanout n)) (fanin n).

(** The usage after each step of the walk. *)
Fixpoint sim_walk (st : SimState) (node_order : list Node)
  : option (list Z) :=
  match node_order with
  | [] => Some []
  | n :: rest =>
      match visit st n with
      | Some st' => cons (mem_used st') <$> sim_walk st' rest
      | None => None
      end
  end.

(** The peak of a trace; no memory is in use before the first step. *)
Definition peak_of (mem_per_timestep : list Z) : Z :=
  foldr Z.max 0 mem_per_timestep.

Definition Simulate (node_order : list Node) : option (Z * list Z) :=
  (fun mem_per_timestep => (peak_of mem_per_timestep, mem_per_timestep))
    <$> sim_walk sim_init node_order.


(** *** Signed edge events and their prefix sums

    These follow the words of the design document: an edge adds its size
    when its producer executes and subtracts it when its last consumer
    executes. *)

Definition zsum (l : list Z) : Z := foldr Z.add 0 l.









(** By how much a step changes the usage. *)
Definition change (pc : list Z * list Z) : Z := zsum pc.1 + zsum pc.2.

End Simulator.

(** ** The [run_*] methods and the main program *)

Module Harness.

(** [g.name] and [g.nodes.values()]. *)
Record Graph := mkGraph {
  name : string;
  nodes : list Node
}.

(** What a call can raise. *)
Inductive Failure :=
| AssertionError (line : nat)     (* the [assert] on that source line *)
| KeyError (key : string)         (* [summary[key]] without that key *)
| ZeroDivisionError
| Raised (what : string).         (* raised inside the [olla] package *)

Inductive Result (A : Type) :=
| Ok (a : A)
| Raise (f : Failure).
Arguments Ok {A} a.
Arguments Raise {A} f.

#[global] Instance Result_ret : MRet Result := fun A a => Ok a.
#[global] Instance Result_bind : MBind Result := fun A B k m =>
  match m with
  | Ok a => k a
  | Raise f => Raise f
  end.

(** [assert cond], written on source line [line]. *)
Definition assert (cond : bool) (line : nat) : Result unit :=
  if cond then Ok tt else Raise (AssertionError line).

(** Numbers are rationals: Python's ints, and its floats without their
    rounding. *)
Definition div (a b : Q) : Result Q :=
  if Qeq_bool b 0 then Raise ZeroDivisionError else Ok (a / b)%Q.

Definition Qlt_bool (a b : Q) : bool := negb (Qle_bool b a).

(** The summary is a Python dict from field names to numbers. *)
Definition Summary := gmap string Q.

Definition get (summary : Summary) (key : string) : Result Q :=
  match summary !! key with
  | Some v => Ok v
  | None => Raise (KeyError key)
  end.

(** *** Schedules

    Modelled from the spec: [utils.validate_timeline] is not among the
    sources.  The design document takes a schedule to be an ordering of
    the nodes (section 3) and has [validate_timeline] check its
    topological consistency (section 4.4): in an accepted schedule every
    node's fanin-producing nodes appear strictly earlier (section 8). *)
Definition Schedule := list Node.

Fixpoint check_timeline (seen : list Edge) (schedule : Schedule) : bool :=
  match schedule with
  | [] => true
  | n :: rest =>
      forallb (fun e => bool_decide (e ∈ seen)) (fanin n)
      && check_timeline (seen ++ fanout n) rest
  end.

Definition validate_timeline (schedule : Schedule) : bool :=
  check_timeline [] schedule.

(** *** The [olla] package, as the harness calls it *)

(** Arguments of [Scheduler(...)]; [None] is an argument left out. *)
Record SchedulerParams := mkParams {
  rel_stop : option Q;
  timeout_s : option Z;
  print_relaxation : option bool
}.

(** Arguments of [ComputeOptimalSchedule(...)]; [None] is an argument
    left out. *)
Record Args := mkArgs {
  allow_swaps : bool;
  max_spills : option nat;
  allow_rematerialization : option bool;
  mem_limit : option Q;
  account_for_fragmentation : option bool;
  user_schedule : option (list Node)
}.

(** A call into the package returns, or throws an exception of the
    package's own. *)
Inductive Call (A : Type) :=
| Returns (a : A)
| Throws (what : string).
Arguments Returns {A} a.
Arguments Throws {A} what.

Definition call {A} (c : Call A) : Result A :=
  match c with
  | Returns a => Ok a
  | Throws what => Raise (Raised what)
  end.

(** The functions of [training_graph_optimizer], [utils] and [visualizer]
    the harness calls and whose code is not among the sources. *)
Class Olla := {
  MemLocs : Type;
  ComputeOptimalSchedule :
    Graph -> SchedulerParams -> Args -> Call (Summary * Schedule * MemLocs);
  ComputeMinimumMemoryRequired : Graph -> SchedulerParams -> Call Q;
  validate_node_ordering : Graph -> Schedule -> bool;
  validate_address_allocation : MemLocs -> bool;
  extract_node_ordering : Graph -> Schedule -> list Node;
  constrain_relative_ordering : Graph -> list Node -> bool -> Call Graph;
  draw_schedule : Schedule -> string -> Call unit
}.

Definition default_params : SchedulerParams :=
  {| rel_stop := None; timeout_s := None; print_relaxation := None |}.

(** *** [Benchmark.run_*]

    The wall-clock readings [start] and [stop], and the elapsed time each
    method returns last, are left out. *)

Section Runs.
Context `{Olla}.

Definition node_ordering_args : Args :=
  {| allow_swaps := false; max_spills := Some 0%nat;
     allow_rematerialization := None; mem_limit := None;
     account_for_fragmentation := None; user_schedule := None |}.

Definition run_node_ordering (g : Graph) : Result (Q * list Node) :=
  '(summary, schedule, mem_loc) ← call $
    ComputeOptimalSchedule g
      {| rel_stop := Some (5 # 1000)%Q; timeout_s := Some 1800;
         print_relaxation := None |}
      node_ordering_args;
  _ ← assert (validate_timeline schedule) 332;
  _ ← assert (validate_node_ordering g schedule) 333;
  peak ← get summary "peak_mem_usage";
  required ← get summary "required_memory";
  _ ← assert (Qeq_bool peak required) 334;
  swapped ← get summary "total_data_swapped";
  _ ← assert (Qeq_bool swapped 0) 336;
  let node_ordering := extract_node_ordering g schedule in
  peak_mem_usage ← get summary "peak_mem_usage";
  mret (peak_mem_usage, node_ordering).

Definition address_generation_args (node_order : list Node) : Args :=
  {| allow_swaps := false; max_spills := Some 0%nat;
     allow_rematerialization := None; mem_limit := None;
     account_for_fragmentation := Some true;
     user_schedule := Some node_order |}.

Definition run_address_generation (g : Graph) (node_order : list Node)
  : Result (Q * Q) :=
  '(summary, schedule, mem_loc) ← call $
    ComputeOptimalSchedule g
      {| rel_stop := Some (1 # 1000)%Q; timeout_s := Some 1800;
         print_relaxation := Some true |}
      (address_generation_args node_order);
  peak_mem_usage ← get summary "required_memory";
  peak ← get summary "peak_mem_usage";
  fragmentation ← div (peak_mem_usage - peak)%Q peak_mem_usage;
  _ ← assert (validate_timeline schedule) 358;
  _ ← assert (validate_address_allocation mem_loc) 359;
  peak' ← get summary "peak_mem_usage";
  required ← get summary "required_memory";
  _ ← assert (Qle_bool peak' required) 360;
  swapped ← get summary "total_data_swapped";
  _ ← assert (Qeq_bool swapped 0) 361;
  _ ← call (draw_schedule schedule ("/tmp/" +:+ name g +:+ ".png"));
  mret (peak_mem_usage, fragmentation).

(** [if not n.time: continue]: [None] and zero are skipped. *)
Definition timed (n : Node) : option Q :=
  match time n with
  | Some t => if Qeq_bool t 0 then None else Some t
  | None => None
  end.

Definition model_runtime (g : Graph) : Q :=
  foldl (fun model_runtime n =>
           match timed n with
           | Some t => (model_runtime + t)%Q
           | None => model_runtime
           end) 0%Q (nodes g).

Definition rematerialization_args (memory_budget : Q) : Args :=
  {| allow_swaps := false; max_spills := None;
     allow_rematerialization := Some true; mem_limit := Some memory_budget;
     account_for_fragmentation := None; user_schedule := None |}.

Definition run_rematerialization (g : Graph) (memory_budget : Q) : Result Q :=
  '(summary, schedule, mem_loc) ← call $
    ComputeOptimalSchedule g
      {| rel_stop := Some (1 # 100)%Q; timeout_s := Some 1800;
         print_relaxation := None |}
      (rematerialization_args memory_budget);
  extra_runtime ← get summary "rematerialization_time";
  let model_runtime := model_runtime g in
  _ ← assert (validate_timeline schedule) 382;
  peak ← get summary "peak_mem_usage";
  required ← get summary "required_memory";
  _ ← assert (Qeq_bool peak required) 383;
  swapped ← get summary "total_data_swapped";
  _ ← assert (Qeq_bool swapped 0) 384;
  div extra_runtime model_runtime.

Definition spilling_args (memory_budget : Q) : Args :=
  {| allow_swaps := true; max_spills := None;
     allow_rematerialization := Some false; mem_limit := Some memory_budget;
     account_for_fragmentation := None; user_schedule := None |}.

(** The assumed transfer bandwidth, [16.0e9] bytes per second. *)
Definition bandwidth : Q := 16000000000%Q.

Definition run_spilling (g : Graph) (memory_budget : Q) : Result Q :=
  '(summary, schedule, mem_loc) ← call $
    ComputeOptimalSchedule g
      {| rel_stop := Some (1 # 100)%Q; timeout_s := Some 1800;
         print_relaxation := None |}
      (spilling_args memory_budget);
  swapped ← get summary "total_data_swapped";
  let extra_runtime := (swapped / bandwidth)%Q in
  let model_runtime := model_runtime g in
  _ ← assert (validate_timeline schedule) 405;
  peak ← get summary "peak_mem_usage";
  required ← get summary "required_memory";
  _ ← assert (Qeq_bool peak required) 406;
  div extra_runtime model_runtime.

End Runs.

(** *** The budget sweeps of the main program *)

(** [for savings in [0.1, 0.25, 0.5, 0.75, 1.0]]. *)
Definition savings_levels : list Q :=
  [(1 # 10); (1 # 4); (1 # 2); (3 # 4); 1]%Q.

(** What a sweep did: the budgets it passed to [run], in order, the
    [(savings, overhead)] pairs it logged (one per assignment
    [result[f"...savings_{savings}.overhead"] = overhead], in the order
    the assignments are made), and the exception that ended it, if
    any. *)
Record Sweep := mkSweep {
  requested : list Q;
  logged : list (Q * Q);
  failure : option Failure
}.

(** The budget of one savings level, clamped to the floor. *)
Definition clamp (peak_mem_usage min_memory savings : Q) : Q :=
  let memory_budget := (peak_mem_usage * (1 - savings))%Q in
  if Qlt_bool memory_budget min_memory then min_memory else memory_budget.

(** The body of the [for] loop, which both sweeps share word for word
    but for the method they call. *)
Fixpoint budget_sweep (run : Q -> Result Q) (peak_mem_usage min_memory : Q)
    (levels : list Q) : Sweep :=
  match levels with
  | [] => mkSweep [] [] None
  | savings :: rest =>
      let memory_budget := (peak_mem_usage * (1 - savings))%Q in
      if Qlt_bool memory_budget min_memory then
        let memory_budget := min_memory in
        match div memory_budget peak_mem_usage with
        | Raise f => mkSweep [] [] (Some f)
        | Ok ratio =>
            let savings := (1 - ratio)%Q in
            (* done = True *)
            match run memory_budget with
            | Raise f => mkSweep [memory_budget] [] (Some f)
            | Ok overhead => mkSweep [memory_budget] [(savings, overhead)] None
            end
        end
      else
        match run memory_budget with
        | Raise f => mkSweep [memory_budget] [] (Some f)
        | Ok overhead =>
            let r := budget_sweep run peak_mem_usage min_memory rest in
            mkSweep (memory_budget :: requested r)
                    ((savings, overhead) :: logged r) (failure r)
        end
  end.

Section Main.
Context `{Olla}.

(** [if args.rematerialization:], inside its [try]. *)
Definition rematerialization_sweep (graph : Graph) (peak_mem_usage : Q)
  : Sweep :=
  match call (ComputeMinimumMemoryRequired graph default_params) with
  | Raise f => mkSweep [] [] (Some f)
  | Ok min_memory =>
      budget_sweep (run_rematerialization graph) peak_mem_usage min_memory
                   savings_levels
  end.

(** [if args.spilling:], inside its [try];
    [constrain_relative_ordering] changes the graph in place. *)
Definition spilling_sweep (graph : Graph) (node_ordering : list Node)
    (peak_mem_usage : Q) : Sweep :=
  match call (constrain_relative_ordering graph node_ordering true) with
  | Raise f => mkSweep [] [] (Some f)
  | Ok graph =>
      match call (ComputeMinimumMemoryRequired graph default_params) with
      | Raise f => mkSweep [] [] (Some f)
      | Ok min_memory =>
          budget_sweep (run_spilling graph) peak_mem_usage min_memory
                       savings_levels
      end
  end.

(** A cell of the [result] row. *)
Inductive Value :=
| Num (q : Q)
| Error (f : Failure).     (* [str(e)] *)

(** [result[key] = value] on an [OrderedDict]. *)
Fixpoint set_item (result : list (string * Value)) (key : string)
    (value : Value) : list (string * Value) :=
  match result with
  | [] => [(key, value)]
  | (k, v) :: rest =>
      if decide (k = key) then (k, value) :: rest
      else (k, v) :: set_item rest key value
  end.

Fixpoint get_item (result : list (string * Value)) (key : string)
  : option Value :=
  match result with
  | [] => None
  | (k, v) :: rest => if decide (k = key) then Some v else get_item rest key
  end.

(** [if args.generate_addresses:], inside its [try]: the row after it,
    and the new value of the variable [peak_mem_usage]. *)
Definition generate_addresses (graph : Graph) (node_ordering : list Node)
    (peak_mem_usage : Q) (result : list (string * Value))
  : list (string * Value) * Q :=
  match run_address_generation graph node_ordering with
  | Ok (peak_mem_usage, fragmentation) =>
      let result :=
        set_item result "address_generation.fragmentation" (Num fragmentation) in
      let result :=
        set_item result "address_generation.peak_mem_usage" (Num peak_mem_usage) in
      (result, peak_mem_usage)
  | Raise e =>
      (set_item result "address_generation.error" (Error e), peak_mem_usage)
  end.

End Main.

(** *** A stand-in for the package, to run the harness on

    The scheduler returns the given summary and schedule whatever it is
    asked; the validators accept; the floor is [min_memory]. *)
Definition stub (summary : Summary) (schedule : Schedule) (min_memory : Q)
  : Olla :=
  {| MemLocs := unit;
     ComputeOptimalSchedule := fun _ _ _ => Returns (summary, schedule, tt);
     ComputeMinimumMemoryRequired := fun _ _ => Returns min_memory;
     validate_node_ordering := fun _ _ => true;
     validate_address_allocation := fun _ => true;
     extract_node_ordering := fun _ schedule => schedule;
     constrain_relative_ordering := fun g _ _ => Returns g;
     draw_schedule := fun _ _ => Returns tt |}.

Definition summary_of (peak required swapped remat : Q) : Summary :=
  <["peak_mem_usage" := peak]>
    (<["required_memory" := required]>
       (<["total_data_swapped" := swapped]>
          (<["rematerialization_time" := remat]> ∅))).

Definition sample_graph : Graph :=
  {| name := "sample"; nodes := Sample.order |}.

(** *** Statements about the harness *)

(** The budgets a sweep requested never lie below the floor: each is the
    clamped budget of its savings level, and a level whose budget had to
    be clamped is the last one requested. *)
Definition respects_floor (peak_mem_usage min_memory : Q) (levels : list Q)
    (r : Sweep) : Prop :=
  Forall (fun b => (min_memory <= b)%Q) (requested r)
  ∧ requested r
    = take (length (requested r)) (clamp peak_mem_usage min_memory <$> levels)
  ∧ forall i savings,
      levels !! i = Some savings ->
      Qlt_bool (peak_mem_usage * (1 - savings))%Q min_memory = true ->
      (length (requested r) <= S i)%nat.

(** The node has a time, and it is not zero. *)
Definition has_time (n : Node) : bool :=
  match time n with
  | Some t => negb (Qeq_bool t 0)
  | None => false
  end.

(** The sum of the [time] attribute over the nodes with a non-zero time,
    written without the loop of the harness. *)
Definition total_time (g : Graph) : Q :=
  foldr (fun n sum => (default 0 (time n) + sum)%Q) 0%Q
        (filter (fun n => has_time n = true) (nodes g)).

(** Fragmentation as the design document words it: the achieved peak is
    never below the required memory, and the reported ratio is their
    difference over the required memory, in [[0, 1)]. *)
Definition peak_never_below_required : Prop :=
  forall (O : Olla) g node_order peak_mem_usage fragmentation,
    run_address_generation g node_order = Ok (peak_mem_usage, fragmentation) ->
    forall params summary schedule mem_loc,
      ComputeOptimalSchedule g params (address_generation_args node_order)
      = Returns (summary, schedule, mem_loc) ->
      exists peak required,
        summary !! "peak_mem_usage" = Some peak
        ∧ summary !! "required_memory" = Some required
        ∧ (required <= peak)%Q
        ∧ (fragmentation == (peak - required) / required)%Q
        ∧ (0 <= fragmentation)%Q ∧ (fragmentation < 1)%Q.

End Harness.

(** ** More of [measure_pt_alloc_time]: when it raises, what it returns *)

Module AllocMore.
Import Alloc.

(** The edges of positive size the ordering writes: the ones that get a
    [MemLoc]. *)
Definition tensors (ns : list Node) : list Edge :=
  filter (fun e => 0 < esize e) (produced ns).

(** Every edge a node reads with a non-zero size is in [edge_ref_counts]
    by then: it has positive size and was written by that node or by an
    earlier one ([seen] holds the edges written before). *)
Fixpoint ready (seen : list Edge) (ns : list Node) : Prop :=
  match ns with
  | [] => True
  | n :: rest =>
      let seen' := seen ++ filter (fun e => 0 < esize e) (fanout n) in
      Forall (fun e => esize e ≠ 0 -> e ∈ seen') (fanin n) ∧ ready seen' rest
  end.

(** The keys of the two dictionaries are the edges of [seen]. *)
Definition keyed (seen : list Edge) (st : State) : Prop :=
  forall e,
    (is_Some (edge_ref_counts st !! e) <-> e ∈ seen)
    ∧ (is_Some (mem_locs st !! e) <-> e ∈ seen).

(** [edge_ref_counts] holds, for each edge, the value last assigned. *)
Definition current (st : State) : Prop :=
  forall e, edge_ref_counts st !! e = last (counts_of e (history st)).

(** Every object of [mem_sequence] was made for an edge [mem_locs]
    knows. *)
Definition owned (st : State) : Prop :=
  forall t, t ∈ mem_sequence st -> is_Some (mem_locs st !! loc_edge t).

(** [for _ in range(num_times): for op in mem_sequence: op.run()]. *)
Definition timed_replay (allocator : nat -> Z -> Z) (num_times : nat)
    (mem_sequence : list MemLoc) : Device :=
  Nat.iter num_times (fun d => replay allocator d mem_sequence) idle.

(** The call asks for memory for [t]; the call gives memory of [t]
    back. *)
Definition is_alloc (t : MemLoc) (c : AllocatorCall) : bool :=
  match c with
  | caching_allocator_alloc t' => bool_decide (t' = t)
  | caching_allocator_delete _ _ => false
  end.

Definition is_delete (t : MemLoc) (c : AllocatorCall) : bool :=
  match c with
  | caching_allocator_alloc _ => false
  | caching_allocator_delete t' _ => bool_decide (t' = t)
  end.

(** How often the replay asked for memory for [t], and gave it back. *)
Definition allocs (t : MemLoc) (cs : list AllocatorCall) : nat :=
  length (filter (fun c => is_alloc t c = true) cs).

Definition deletes (t : MemLoc) (cs : list AllocatorCall) : nat :=
  length (filter (fun c => is_delete t c = true) cs).

(** No [MemLoc] holds a null address. *)
Definition nonnull (d : Device) : Prop :=
  forall id a, addresses d !! id = Some a -> a ≠ 0.

(** [1] when [if self.address] would take the true branch for [t]. *)
Definition holding (d : Device) (t : MemLoc) : nat :=
  match addresses d !! loc_id t with
  | Some address => if bool_decide (address ≠ 0) then 1 else 0
  | None => 0
  end.

(** Over the objects of [all], what was given back and what is held
    never exceeds what was asked for; nothing else was ever given
    back. *)
Definition balanced (all : list MemLoc) (d : Device) : Prop :=
  (forall t, t ∈ all ->
     (deletes t (calls d) + holding d t <= allocs t (calls d))%nat)
  ∧ (forall t, t ∉ all -> deletes t (calls d) = 0%nat).

End AllocMore.

(** ** More about the harness: statements *)

Module HarnessMore.
Import Harness.

(** A graph whose nodes carry no measured time. *)
Definition unprofiled : Graph :=
  {| name := "unprofiled"; nodes := [Sample.n2] |}.

(** The method returned. *)
Definition returns {A} (r : Result A) : Prop :=
  match r with
  | Ok _ => True
  | Raise _ => False
  end.

(** The budgets never go up along the sweep. *)
Definition non_increasing (budgets : list Q) : Prop :=
  forall i j b1 b2, (i <= j)%nat ->
    budgets !! i = Some b1 -> budgets !! j = Some b2 -> (b2 <= b1)%Q.

(** A run that accepts every budget and reports no overhead. *)
Definition accept (memory_budget : Q) : Result Q := Ok 0%Q.

End HarnessMore.

(** ** The main program: the body of the benchmark loop *)

Module args.

(** What the main program reads of [args]; [render_models], [log_path]
    and [append_log] only reach [load_model] and the log file, which are
    outside the model. *)
Record Namespace := mkNamespace {
  batch_size : list Z;
  model : list string;
  mode : option (list string);
  generate_addresses : bool;
  rematerialization : bool;
  spilling : bool;
  gpu_profile : bool;
  profile_alloc_time : bool;
  skip_simulation : bool;
  skip_node_ordering : bool
}.

End args.

Module Main.
Import Harness.

(** What the body can raise: what the methods of [Benchmark] raise, the
    [KeyError] of [edge_ref_counts[fanin]] in [measure_pt_alloc_time],
    and the [NameError] of a global that was never assigned. *)
Inductive Exception :=
| Failed (f : Failure)
| EdgeKeyError
| NameError (name : string).

(** The keys of [result]: a fixed column, or
    [f"{sweep}.savings_{savings}.{what}"]. *)
Inductive Key :=
| Column (name : string)
| Level (sweep : string) (savings : Q) (what : string).

Inductive Cell :=
| Text (s : string)
| Number (q : Q)
| Message (e : Exception).      (* [str(e)] *)

(** The assignments [result[key] = cell] made so far, in order.  The
    cells that hold a wall-clock reading ([.runtime]) are left out, but
    for the one of the allocator replay. *)
Definition Row := list (Key * Cell).

(** The globals the body assigns in one pass of the loop and may read in
    a later one; [None] is a name not assigned yet. *)
Record Vars := mkVars {
  simulated_mem_usage : option Q;
  peak_mem_usage : option Q;
  node_ordering : option (list Node);
  savings : option Q
}.

Definition unbound : Vars := mkVars None None None None.

(** How a part of the body ends: control falls through to the next part,
    the pass ends with [continue] (the row is not appended), or an
    exception leaves the program. *)
Inductive Step :=
| Go (vars : Vars) (result : Row)
| Continue (vars : Vars) (result : Row)
| Crash (e : Exception).

Definition next (s : Step) (k : Vars -> Row -> Step) : Step :=
  match s with
  | Go vars result => k vars result
  | Continue vars result => Continue vars result
  | Crash e => Crash e
  end.

(** The value of [savings] when the [for] loop of a sweep ends, by
    itself, with [break] or with an exception. *)
Fixpoint savings_after (run : Q -> Result Q) (peak_mem_usage min_memory : Q)
    (levels : list Q) (savings : option Q) : option Q :=
  match levels with
  | [] => savings
  | level :: rest =>
      let memory_budget := (peak_mem_usage * (1 - level))%Q in
      if Qlt_bool memory_budget min_memory then
        match div min_memory peak_mem_usage with
        | Raise _ => Some level
        | Ok ratio => Some (1 - ratio)%Q
        end
      else
        match run memory_budget with
        | Raise _ => Some level
        | Ok _ => savings_after run peak_mem_usage min_memory rest (Some level)
        end
  end.

(** [result[f"{sweep}.savings_{savings}.overhead"] = overhead], once per
    logged pair. *)
Definition overheads (sweep : string) (logged : list (Q * Q)) : Row :=
  (fun '(savings, overhead) =>
     (Level sweep savings "overhead", Number overhead)) <$> logged.

Definition with_savings (vars : Vars) (savings : option Q) : Vars :=
  {| simulated_mem_usage := simulated_mem_usage vars;
     peak_mem_usage := peak_mem_usage vars;
     node_ordering := node_ordering vars;
     savings := savings |}.

Definition with_peak_mem_usage (vars : Vars) (peak_mem_usage : Q) : Vars :=
  {| simulated_mem_usage := simulated_mem_usage vars;
     peak_mem_usage := Some peak_mem_usage;
     node_ordering := node_ordering vars;
     savings := savings vars |}.

(** The [except] block of a sweep: its [print] reads [savings] before
    the error is stored. *)
Definition handler (sweep : string) (e : Exception) (vars : Vars)
    (result : Row) : Step :=
  match savings vars with
  | None => Crash (NameError "savings")
  | Some savings => Go vars (result ++ [(Level sweep savings "error", Message e)])
  end.

(** The [for] loop of a sweep, inside its [try]. *)
Definition levels_loop (sweep : string) (run : Q -> Result Q) (min_memory : Q)
    (vars : Vars) (result : Row) : Step :=
  match peak_mem_usage vars with
  | None =>
      handler sweep (NameError "peak_mem_usage")
              (with_savings vars (head savings_levels)) result
  | Some peak =>
      let r := budget_sweep run peak min_memory savings_levels in
      let vars :=
        with_savings vars
          (savings_after run peak min_memory savings_levels (savings vars)) in
      let result := result ++ overheads sweep (logged r) in
      match failure r with
      | None => Go vars result
      | Some f => handler sweep (Failed f) vars result
      end
  end.

(** The table of models and the modes each can run in. *)
Definition BENCHMARKS : list (string * list string) :=
  [("alexnet", ["eval"; "train"]);
   ("bert", ["eval"; "train"]);
   ("efficientnet", ["eval"; "train"]);
   ("googlenet", ["eval"; "train"]);
   ("inception", ["eval"; "train"]);
   ("mnasnet", ["eval"; "train"]);
   ("mobilenet", ["eval"; "train"]);
   ("resnet", ["eval"; "train"]);
   ("resnet50", ["eval"; "train"]);
   ("resnet3d", ["eval"; "train"]);
   ("squeezenet", ["eval"; "train"]);
   ("transformer", ["eval"; "train"]);
   ("transformer_dflt", ["eval"; "train"]);
   ("vgg", ["eval"; "train"]);
   ("vgg16", ["eval"; "train"]);
   ("vgg19", ["eval"; "train"]);
   ("vit", ["eval"; "train"]);
   ("xlmr", ["eval"; "train"])].

(** [table[key]] on a dict written as the list of its items. *)
Fixpoint getitem {A} (table : list (string * A)) (key : string) : option A :=
  match table with
  | [] => None
  | (k, v) :: rest => if decide (k = key) then Some v else getitem rest key
  end.

(** How the loops end: they run to their end, or an exception ends the
    program; [results] is the list of rows appended by then. *)
Inductive Run :=
| Finished (vars : Vars) (results : list Row)
| Ended (results : list Row) (e : Exception).

Section Body.
Context `{Olla}.

(** Outside the program: [simulator.Simulator(g).Simulate(node_order)]
    (its first component), [torch.cuda.empty_cache()], and the timed
    replay of [measure_pt_alloc_time], which returns the time it took or
    raises what the allocator raised. *)
Variable Simulate : Graph -> list Node -> Call Q.
Variable empty_cache : Call unit.
Variable time_replay : list Alloc.MemLoc -> Call Q.

Variable flags : args.Namespace.

(** [if not args.skip_simulation:] *)
Definition simulation (graph : Graph) (pt_node_order : list Node)
    (vars : Vars) (result : Row) : Step :=
  if args.skip_simulation flags then Go vars result
  else
    match Simulate graph pt_node_order with
    | Throws what => Crash (Failed (Raised what))
    | Returns simulated =>
        Go {| simulated_mem_usage := Some simulated;
              peak_mem_usage := peak_mem_usage vars;
              node_ordering := node_ordering vars;
              savings := savings vars |}
           (result ++ [(Column "simulated_mem_usage", Number simulated)])
    end.

(** [if args.profile_alloc_time:] *)
Definition profile (pt_node_order : list Node) (vars : Vars) (result : Row)
  : Step :=
  if args.profile_alloc_time flags then
    match empty_cache with
    | Throws what => Crash (Failed (Raised what))
    | Returns _ =>
        match Alloc.measure_pt_alloc_time pt_node_order with
        | Alloc.KeyError _ => Crash EdgeKeyError
        | Alloc.Done st =>
            match time_replay (Alloc.mem_sequence st) with
            | Throws what => Crash (Failed (Raised what))
            | Returns runtime =>
                let alloc_count := Alloc.num_alloc_dealloc_pairs 100 st in
                match div (1000000 * runtime) alloc_count with
                | Raise f => Crash (Failed f)
                | Ok _ =>
                    Go vars
                       (result
                        ++ [(Column "profile.alloc_runtime", Number runtime);
                            (Column "profile.alloc_count", Number alloc_count)])
                end
            end
        end
    end
  else Go vars result.

(** [if not args.skip_node_ordering:] *)
Definition node_ordering_phase (graph : Graph) (vars : Vars) (result : Row)
  : Step :=
  if args.skip_node_ordering flags then Go vars result
  else if args.skip_simulation flags then Crash (Failed (AssertionError 541))
  else
    let except vars e :=
      Continue vars (result ++ [(Column "node_ordering.error", Message e)]) in
    match run_node_ordering graph with
    | Raise f => except vars (Failed f)
    | Ok (peak, order) =>
        let vars :=
          {| simulated_mem_usage := simulated_mem_usage vars;
             peak_mem_usage := Some peak;
             node_ordering := Some order;
             savings := savings vars |} in
        match simulated_mem_usage vars with
        | None => except vars (NameError "simulated_mem_usage")
        | Some simulated =>
            match div (simulated - peak) simulated with
            | Raise f => except vars (Failed f)
            | Ok _ =>
                Go vars
                   (result
                    ++ [(Column "node_ordering.peak_mem_usage", Number peak)])
            end
        end
    end.

(** [if args.generate_addresses:] *)
Definition address_generation_phase (graph : Graph) (vars : Vars)
    (result : Row) : Step :=
  if args.generate_addresses flags then
    if args.skip_simulation flags then Crash (Failed (AssertionError 560))
    else if args.skip_node_ordering flags then
      Crash (Failed (AssertionError 563))
    else
      let except e :=
        Go vars (result ++ [(Column "address_generation.error", Message e)]) in
      match node_ordering vars with
      | None => except (NameError "node_ordering")
      | Some order =>
          match run_address_generation graph order with
          | Raise f => except (Failed f)
          | Ok (peak, fragmentation) =>
              Go (with_peak_mem_usage vars peak)
                 (result
                  ++ [(Column "address_generation.fragmentation",
                       Number fragmentation);
                      (Column "address_generation.peak_mem_usage",
                       Number peak)])
          end
      end
  else Go vars result.

(** [if args.rematerialization:] *)
Definition rematerialization_phase (graph : Graph) (vars : Vars)
    (result : Row) : Step :=
  if args.rematerialization flags then
    if args.skip_simulation flags then Crash (Failed (AssertionError 585))
    else if args.skip_node_ordering flags then
      Crash (Failed (AssertionError 588))
    else
      match call (ComputeMinimumMemoryRequired graph default_params) with
      | Raise f => handler "rematerialization" (Failed f) vars result
      | Ok min_memory =>
          levels_loop "rematerialization" (run_rematerialization graph)
                      min_memory vars result
      end
  else Go vars result.

(** [if args.spilling:] *)
Definition spilling_phase (graph : Graph) (vars : Vars) (result : Row)
  : Step :=
  if args.spilling flags then
    if args.skip_simulation flags then Crash (Failed (AssertionError 627))
    else if args.skip_node_ordering flags then
      Crash (Failed (AssertionError 630))
    else
      match node_ordering vars with
      | None => handler "spilling" (NameError "node_ordering") vars result
      | Some order =>
          match call (constrain_relative_ordering graph order true) with
          | Raise f => handler "spilling" (Failed f) vars result
          | Ok graph =>
              match call (ComputeMinimumMemoryRequired graph default_params)
              with
              | Raise f => handler "spilling" (Failed f) vars result
              | Ok min_memory =>
                  levels_loop "spilling" (run_spilling graph) min_memory
                              vars result
              end
          end
      end
  else Go vars result.

(** The body of the loop from the simulation on; [Go] at its end is
    [results.append(result)].  The write of the log file is left out. *)
Definition body (graph : Graph) (pt_node_order : list Node) (vars : Vars)
    (result : Row) : Step :=
  next (simulation graph pt_node_order vars result) (fun vars result =>
  next (profile pt_node_order vars result) (fun vars result =>
  next (node_ordering_phase graph vars result) (fun vars result =>
  next (address_generation_phase graph vars result) (fun vars result =>
  next (rematerialization_phase graph vars result) (fun vars result =>
  spilling_phase graph vars result))))).

(** Outside the program: [load_model] with the arguments the switches
    fix, and the two attributes of the graph [--gpu-profile] reads. *)
Variable load_model : string -> string -> Z -> Call (Graph * list Node).
Variable profiled : Graph -> Call (Q * Q).

(** [if args.gpu_profile:], after the model is loaded. *)
Definition profile_cells (graph : Graph) (vars : Vars) (result : Row) : Step :=
  if args.gpu_profile flags then
    match profiled graph with
    | Throws what => Crash (Failed (Raised what))
    | Returns (max_mem_fragmentation, peak_reserved_bytes) =>
        Go vars
           (result
            ++ [(Column "profile.max_mem_fragmentation",
                 Number max_mem_fragmentation);
                (Column "profile.peak_reserved_bytes",
                 Number peak_reserved_bytes)])
    end
  else Go vars result.

(** One pass of the innermost loop, up to [results.append(result)]. *)
Definition pass (model mode : string) (batch_size : Z) (vars : Vars) : Step :=
  let result :=
    [(Column "model", Text model); (Column "mode", Text mode);
     (Column "batch_size", Number (inject_Z batch_size))] in
  match load_model model mode batch_size with
  | Throws what => Crash (Failed (Raised what))
  | Returns (graph, pt_node_order) =>
      next (profile_cells graph vars result) (fun vars result =>
      body graph pt_node_order vars result)
  end.

(** [for batch_size in args.batch_size:] *)
Fixpoint for_batch_size (model mode : string) (batch_sizes : list Z)
    (vars : Vars) (results : list Row) : Run :=
  match batch_sizes with
  | [] => Finished vars results
  | batch_size :: rest =>
      match pass model mode batch_size vars with
      | Go vars result =>
          for_batch_size model mode rest vars (results ++ [result])
      | Continue vars _ => for_batch_size model mode rest vars results
      | Crash e => Ended results e
      end
  end.

(** [for mode in modes:] *)
Fixpoint for_mode (model : string) (modes : list string) (vars : Vars)
    (results : list Row) : Run :=
  match modes with
  | [] => Finished vars results
  | mode :: rest =>
      match for_batch_size model mode (args.batch_size flags) vars results with
      | Finished vars results => for_mode model rest vars results
      | Ended results e => Ended results e
      end
  end.

(** [modes = BENCHMARKS[model] if not args.mode else args.mode] *)
Definition modes (model : string) : Result (list string) :=
  match args.mode flags with
  | Some (mode :: rest) => Ok (mode :: rest)
  | Some [] | None =>
      match getitem BENCHMARKS model with
      | Some modes => Ok modes
      | None => Raise (KeyError model)
      end
  end.

(** [for model in args.model:] *)
Fixpoint for_model (models : list string) (vars : Vars) (results : list Row)
  : Run :=
  match models with
  | [] => Finished vars results
  | model :: rest =>
      match modes model with
      | Raise f => Ended results (Failed f)
      | Ok modes =>
          match for_mode model modes vars results with
          | Finished vars results => for_model rest vars results
          | Ended results e => Ended results e
          end
      end
  end.

(** The main program: no global is assigned and [results] is empty when
    the loops start. *)
Definition main : Run := for_model (args.model flags) unbound [].

End Body.

(** What holds of the way a part of the body ends. *)
Definition post (s : Step) (go continue : Vars -> Row -> Prop)
    (crash : Exception -> Prop) : Prop :=
  match s with
  | Go vars result => go vars result
  | Continue vars result => continue vars result
  | Crash e => crash e
  end.

(** No cell of the row holds a caught [NameError]. *)
Definition clean (result : Row) : Prop :=
  forall key name, (key, Message (NameError name)) ∉ result.

(** What a sweep whose assertions passed leaves behind when it falls
    through. *)
Definition sweep_go (vars : Vars) (result : Row) (vars' : Vars)
    (result' : Row) : Prop :=
  simulated_mem_usage vars' = simulated_mem_usage vars
  ∧ peak_mem_usage vars' = peak_mem_usage vars
  ∧ node_ordering vars' = node_ordering vars
  ∧ (is_Some (savings vars) -> is_Some (savings vars'))
  ∧ exists cells, result' = result ++ cells
                  ∧ (is_Some (peak_mem_usage vars) ->
                     is_Some (node_ordering vars) -> clean cells).

(** The switches are consistent: simulation is not skipped unless node
    ordering is, and nothing that needs node ordering is asked for when
    it is skipped. *)
Definition consistent (flags : args.Namespace) : bool :=
  (negb (args.skip_simulation flags) || args.skip_node_ordering flags)
  && (negb (args.skip_node_ordering flags)
      || negb (args.generate_addresses flags || args.rematerialization flags
               || args.spilling flags)).

(** The arguments as [argparse] leaves them when none is given, and
    with a few switches set. *)
Definition defaults : args.Namespace :=
  {| args.batch_size := [1; 32];
     args.model := fst <$> BENCHMARKS;
     args.mode := None;
     args.generate_addresses := false;
     args.rematerialization := false;
     args.spilling := false;
     args.gpu_profile := false;
     args.profile_alloc_time := false;
     args.skip_simulation := false;
     args.skip_node_ordering := false |}.

Definition rematerialization_only : args.Namespace :=
  {| args.batch_size := [1; 32];
     args.model := fst <$> BENCHMARKS;
     args.mode := None;
     args.generate_addresses := false;
     args.rematerialization := true;
     args.spilling := false;
     args.gpu_profile := false;
     args.profile_alloc_time := false;
     args.skip_simulation := false;
     args.skip_node_ordering := false |}.

Definition profile_only : args.Namespace :=
  {| args.batch_size := [1; 32];
     args.model := fst <$> BENCHMARKS;
     args.mode := None;
     args.generate_addresses := false;
     args.rematerialization := false;
     args.spilling := false;
     args.gpu_profile := false;
     args.profile_alloc_time := true;
     args.skip_simulation := true;
     args.skip_node_ordering := true |}.

Definition addresses_without_ordering : args.Namespace :=
  {| args.batch_size := [1; 32];
     args.model := fst <$> BENCHMARKS;
     args.mode := None;
     args.generate_addresses := true;
     args.rematerialization := false;
     args.spilling := false;
     args.gpu_profile := false;
     args.profile_alloc_time := false;
     args.skip_simulation := false;
     args.skip_node_ordering := true |}.

(** A simulator that reports the given peak. *)
Definition simulator_reporting (peak : Q) : Graph -> list Node -> Call Q :=
  fun _ _ => Returns peak.

(** A node that writes a control edge and nothing else: an ordering made
    of it has no tensor to allocate. *)
Definition control_only : Node :=
  {| nid := 20; time := None; fanin := []; fanout := [Sample.ctl] |}.

(** An allocator replay that took one second. *)
Definition one_second : list Alloc.MemLoc -> Call Q := fun _ => Returns 1%Q.

(** A stand-in for the package whose scheduler cannot tell the floor. *)
Definition stub_without_floor (summary : Summary) (schedule : Schedule)
  : Olla :=
  {| MemLocs := unit;
     ComputeOptimalSchedule := fun _ _ _ => Returns (summary, schedule, tt);
     ComputeMinimumMemoryRequired := fun _ _ => Throws "infeasible";
     validate_node_ordering := fun _ _ => true;
     validate_address_allocation := fun _ => true;
     extract_node_ordering := fun _ schedule => schedule;
     constrain_relative_ordering := fun g _ _ => Returns g;
     draw_schedule := fun _ _ => Returns tt |}.

End Main.

(** * Properties of [measure_pt_alloc_time] *)

Module AllocFacts.
Import Alloc.

Lemma tidy_init : tidy init.
Proof.
  split; simpl; intros *.
  - by rewrite lookup_empty.
  - by rewrite lookup_empty.
  - by intros ?%elem_of_nil.
  - by rewrite lookup_empty.
  - done.
  - by intros ?%elem_of_nil.
Qed.

Lemma tidy_visit_fanout st e : tidy st -> tidy (visit_fanout st e).
Proof.
  intros [Hc Hl Hs Hls Hh Hid]. unfold visit_fanout.
  case_bool_decide as Hpos; [|by split].
  split; simpl; [| | | |unfold emitted; by rewrite omap_app, Hh|].
  - intros e' c. rewrite lookup_insert.
    case_decide as E; [subst e'; done|apply Hc].
  - intros e' t. rewrite lookup_insert.
    case_decide as E; [|apply Hl].
    subst e'. intros [= <-]. done.
  - intros t [Ht|Ht%list_elem_of_singleton]%elem_of_app; [by apply Hs|].
    by subst t.
  - intros e' t. rewrite lookup_insert, elem_of_app, list_elem_of_singleton.
    case_decide as E; [intros [= <-]; by right|].
    intros Ht. left. by eapply Hls.
  - intros t [Ht|Ht%list_elem_of_singleton]%elem_of_app.
    + apply lookup_app_l_Some. by apply Hid.
    + subst t. simpl. by apply list_lookup_middle.
Qed.

Lemma tidy_visit_fanin st e : tidy st -> tidy (final (visit_fanin st e)).
Proof.
  intros Hst. pose proof Hst as [Hc Hl Hs Hls Hh Hid]. unfold visit_fanin.
  case_bool_decide as Hz; [done|].
  destruct (edge_ref_counts st !! e) as [c|] eqn:Hlook; [|done].
  assert (forall e' c', <[e:=c - 1]> (edge_ref_counts st) !! e' = Some c' ->
                        0 < esize e') as Hc1.
  { intros e' c'. rewrite lookup_insert.
    case_decide as E; [|apply Hc]. subst e'. intros _. by eapply Hc. }
  assert (emitted (history st ++ [SetCount e (c - 1)]) = mem_sequence st)
    as Hh1.
  { unfold emitted. rewrite omap_app. simpl. by rewrite app_nil_r. }
  simpl. case_bool_decide; [|by split].
  destruct (mem_locs st !! e) as [t|] eqn:Hloc; [|by split].
  split; simpl; [done|done| | |unfold emitted; by rewrite omap_app, <- Hh1|].
  - intros t' [Ht|Ht%list_elem_of_singleton]%elem_of_app; [by apply Hs|].
    subst t'. apply Hs. by eapply Hls.
  - intros e' t' He'. apply elem_of_app. left. by eapply Hls.
  - intros t' Ht'. apply lookup_app_l_Some, Hid.
    apply elem_of_app in Ht' as [Ht'|Ht'%list_elem_of_singleton]; [done|].
    subst t'. by eapply Hls.
Qed.

Lemma tidy_visit_fanins st es : tidy st -> tidy (final (visit_fanins st es)).
Proof.
  revert st. induction es as [|e es IH]; intros st Hst; [done|].
  simpl. pose proof (tidy_visit_fanin st e Hst) as H1.
  destruct (visit_fanin st e); simpl in *; eauto.
Qed.

Lemma tidy_foldl_fanout st es : tidy st -> tidy (foldl visit_fanout st es).
Proof.
  revert st. induction es as [|e es IH]; intros st Hst; [done|].
  simpl. apply IH. by apply tidy_visit_fanout.
Qed.

Lemma tidy_walk st ns : tidy st -> tidy (final (walk st ns)).
Proof.
  revert st. induction ns as [|n ns IH]; intros st Hst; [done|].
  simpl. unfold visit_node.
  pose proof (tidy_visit_fanins _ (fanin n) (tidy_foldl_fanout st (fanout n) Hst)) as H1.
  destruct (visit_fanins _ _); simpl in *; eauto.
Qed.

Lemma tidy_step st op : tidy st -> tidy (final (step st op)).
Proof.
  destruct op; simpl; [apply tidy_visit_fanout|apply tidy_visit_fanin].
Qed.

(** *** The nested loops and the flat sequence agree *)

Lemma bind_assoc o k1 k2 :
  bind (bind o k1) k2 = bind o (fun st => bind (k1 st) k2).
Proof. by destruct o. Qed.

Lemma run_app st ops1 ops2 :
  run_ops st (ops1 ++ ops2) = bind (run_ops st ops1) (fun st' => run_ops st' ops2).
Proof.
  revert st. induction ops1 as [|op ops1 IH]; intros st; [done|].
  simpl. rewrite bind_assoc. destruct (step st op); simpl; auto.
Qed.

Lemma run_produce st es :
  run_ops st (Produce <$> es) = Done (foldl visit_fanout st es).
Proof. revert st. induction es as [|e es IH]; intros st; simpl; auto. Qed.

Lemma run_consume st es : run_ops st (Consume <$> es) = visit_fanins st es.
Proof.
  revert st. induction es as [|e es IH]; intros st; [done|].
  simpl. destruct (visit_fanin st e); simpl; auto.
Qed.

Lemma run_node_ops st n : run_ops st (node_ops n) = visit_node st n.
Proof.
  unfold node_ops, visit_node.
  by rewrite run_app, run_produce, <- run_consume.
Qed.

Lemma ordering_ops_cons n ns :
  ordering_ops (n :: ns) = node_ops n ++ ordering_ops ns.
Proof. done. Qed.

Lemma produced_cons n ns : produced (n :: ns) = fanout n ++ produced ns.
Proof. done. Qed.

Lemma readers_cons e n ns :
  readers e (n :: ns)
  = ((fun _ => nid n) <$> filter (e =.) (fanin n)) ++ readers e ns.
Proof. done. Qed.

Lemma walk_run st ns : walk st ns = run_ops st (ordering_ops ns).
Proof.
  revert st. induction ns as [|n ns IH]; intros st; [done|].
  rewrite ordering_ops_cons. simpl.
  rewrite run_app, run_node_ops.
  destruct (visit_node st n); simpl; auto.
Qed.

(** *** One edge at a time *)

Lemma about_snoc e h a :
  about e a -> filter (about e) (h ++ [a]) = filter (about e) h ++ [a].
Proof. intros H. by rewrite filter_app, filter_cons_True, filter_nil. Qed.

Lemma about_snoc_other e h a :
  ¬ about e a -> filter (about e) (h ++ [a]) = filter (about e) h.
Proof.
  intros H. by rewrite filter_app, filter_cons_False, filter_nil, app_nil_r.
Qed.

(** A loop body run on another edge leaves the entries of [e] alone. *)
Lemma step_frame st op e st1 :
  tidy st -> op ≠ Produce e -> op ≠ Consume e ->
  step st op = Done st1 ->
  edge_ref_counts st1 !! e = edge_ref_counts st !! e
  ∧ mem_locs st1 !! e = mem_locs st !! e
  ∧ filter (about e) (history st1) = filter (about e) (history st).
Proof.
  intros Hst Hp Hc. destruct op as [e'|e']; simpl.
  - assert (e' ≠ e) as Hne by congruence.
    intros [= <-]. unfold visit_fanout. case_bool_decide; [|done].
    simpl. rewrite !lookup_insert_ne by done.
    replace (history st ++ [SetCount e' (Z.of_nat (length (sinks e'))); Emit
              {| loc_id := length (mem_sequence st); loc_size := esize e';
                 loc_edge := e' |}])
      with ((history st ++ [SetCount e' (Z.of_nat (length (sinks e')))]) ++
            [Emit {| loc_id := length (mem_sequence st); loc_size := esize e';
                     loc_edge := e' |}])
      by by rewrite <- app_assoc.
    by rewrite !about_snoc_other by (simpl; congruence).
  - assert (e' ≠ e) as Hne by congruence.
    unfold visit_fanin. case_bool_decide; [by intros [= <-]|].
    destruct (edge_ref_counts st !! e') as [c|]; [|done]. simpl.
    case_bool_decide.
    + destruct (mem_locs st !! e') as [t|] eqn:Hloc; [|done].
      intros [= <-]. simpl. rewrite lookup_insert_ne by done.
      apply (tidy_locs _ Hst) in Hloc as [Hte _].
      by rewrite !about_snoc_other by (simpl; congruence).
    + intros [= <-]. simpl. rewrite lookup_insert_ne by done.
      by rewrite about_snoc_other by (simpl; congruence).
Qed.

Lemma run_frame st ops e st1 :
  tidy st -> Produce e ∉ ops -> Consume e ∉ ops ->
  run_ops st ops = Done st1 ->
  tidy st1
  ∧ edge_ref_counts st1 !! e = edge_ref_counts st !! e
  ∧ mem_locs st1 !! e = mem_locs st !! e
  ∧ filter (about e) (history st1) = filter (about e) (history st).
Proof.
  revert st. induction ops as [|op ops IH]; intros st Hst Hp Hc; simpl.
  - by intros [= <-].
  - apply not_elem_of_cons in Hp as [Hp1 Hp2].
    apply not_elem_of_cons in Hc as [Hc1 Hc2].
    pose proof (tidy_step st op Hst) as Hst2.
    destruct (step st op) as [st2|] eqn:Hstep; [|done]. simpl in *.
    intros Hrun. destruct (IH st2 Hst2 Hp2 Hc2 Hrun) as (? & -> & -> & ->).
    split; [done|]. by eapply step_frame.
Qed.


(** After the producer: each read of [e] counts down by one, and the
    read that reaches zero appends the edge's [MemLoc] once more. *)
Lemma run_countdown st ops e t (k : nat) st1 :
  tidy st -> 0 < esize e ->
  edge_ref_counts st !! e = Some (Z.of_nat k) ->
  mem_locs st !! e = Some t ->
  Produce e ∉ ops ->
  length (filter (Consume e =.) ops) = k ->
  run_ops st ops = Done st1 ->
  filter (about e) (history st1)
  = filter (about e) (history st)
    ++ (SetCount e <$> countdown k)
    ++ (if k is O then [] else [Emit t]).
Proof.
  revert st k.
  induction ops as [|op ops IH]; intros st k Hst Hpos Hcnt Hloc Hp Hlen.
  - simpl in *. subst k. intros [= <-]. by rewrite app_nil_r.
  - apply not_elem_of_cons in Hp as [Hp1 Hp2].
    destruct (decide (op = Consume e)) as [->|Hne].
    + rewrite filter_cons_True in Hlen by done.
      destruct k as [|k]; [done|]. simpl in Hlen.
      injection Hlen as Hlen.
      simpl. unfold visit_fanin. rewrite bool_decide_eq_false_2 by lia.
      rewrite Hcnt. simpl.
      replace (Z.of_nat (S k) - 1) with (Z.of_nat k) by lia.
      rewrite Hloc.
      pose proof (tidy_visit_fanin st e Hst) as Hst2.
      unfold visit_fanin in Hst2.
      rewrite bool_decide_eq_false_2 in Hst2 by lia.
      rewrite Hcnt in Hst2. simpl in Hst2.
      replace (Z.of_nat (S k) - 1) with (Z.of_nat k) in Hst2 by lia.
      rewrite Hloc in Hst2.
      assert (loc_edge t = e) as Hte by (by destruct (tidy_locs _ Hst _ _ Hloc)).
      destruct k as [|k].
      * rewrite bool_decide_eq_true_2 in Hst2 |- * by done. simpl in *.
        intros Hrun.
        rewrite (IH _ 0%nat Hst2 Hpos) with (2:=Hloc); simpl; try done.
        -- rewrite !about_snoc by done.
           by rewrite <- !app_assoc.
        -- by rewrite lookup_insert_eq.
      * rewrite bool_decide_eq_false_2 in Hst2 |- * by lia. simpl in *.
        intros Hrun.
        rewrite (IH _ (S k) Hst2 Hpos) with (2:=Hloc); simpl; try done.
        -- rewrite about_snoc by done.
           by rewrite <- !app_assoc.
        -- by rewrite lookup_insert_eq.
    + rewrite filter_cons_False in Hlen by congruence.
      simpl. pose proof (tidy_step st op Hst) as Hst2.
      destruct (step st op) as [st2|] eqn:Hstep; [|done]. simpl in *.
      intros Hrun.
      destruct (step_frame st op e st2 Hst (not_eq_sym Hp1) Hne Hstep)
        as (E1 & E2 & E3).
      rewrite (IH st2 k Hst2 Hpos) with (2:=eq_trans E2 Hloc); try done.
      * by rewrite E3.
      * by rewrite E1.
Qed.

(** *** The walk does not raise on a valid ordering *)

Lemma has_keys_visit_fanout seen st e :
  has_keys seen st -> has_keys (seen ++ [e]) (visit_fanout st e).
Proof.
  intros Hk e' He' Hpos. unfold visit_fanout.
  destruct (decide (e' = e)) as [->|Hne].
  - rewrite bool_decide_eq_true_2 by done. simpl.
    by rewrite !lookup_insert_eq.
  - apply elem_of_app in He' as [He'|He'%list_elem_of_singleton]; [|done].
    case_bool_decide; simpl; [|by apply Hk].
    rewrite !lookup_insert_ne by done. by apply Hk.
Qed.

Lemma has_keys_foldl seen st es :
  has_keys seen st -> has_keys (seen ++ es) (foldl visit_fanout st es).
Proof.
  revert seen st. induction es as [|e es IH]; intros seen st Hk; simpl.
  - by rewrite app_nil_r.
  - replace (seen ++ e :: es) with ((seen ++ [e]) ++ es)
      by by rewrite <- app_assoc.
    apply IH. by apply has_keys_visit_fanout.
Qed.

Lemma visit_fanin_done seen st e :
  has_keys seen st -> 0 <= esize e -> (esize e ≠ 0 -> e ∈ seen) ->
  exists st', visit_fanin st e = Done st' ∧ has_keys seen st'.
Proof.
  intros Hk Hsz Hin. unfold visit_fanin.
  case_bool_decide as Hz; [by eauto|].
  destruct (Hk e (Hin Hz)) as [[c Hc] [t Ht]]; [lia|].
  rewrite Hc. simpl. rewrite Ht.
  assert (forall ms h, has_keys seen
            {| edge_ref_counts := <[e:=c - 1]> (edge_ref_counts st);
               mem_sequence := ms; mem_locs := mem_locs st; history := h |})
    as Hk'.
  { intros ms h e' He' Hpos. simpl. destruct (Hk e' He' Hpos) as [? ?].
    split; [|done]. rewrite lookup_insert. by case_decide. }
  case_bool_decide; eauto.
Qed.

Lemma visit_fanins_done seen st es :
  has_keys seen st ->
  Forall (fun e => 0 <= esize e) es ->
  Forall (fun e => esize e ≠ 0 -> e ∈ seen) es ->
  exists st', visit_fanins st es = Done st' ∧ has_keys seen st'.
Proof.
  revert st. induction es as [|e es IH]; intros st Hk Hsz Hin; [by eauto|].
  apply Forall_cons in Hsz as [Hsz1 Hsz2].
  apply Forall_cons in Hin as [Hin1 Hin2].
  destruct (visit_fanin_done seen st e Hk Hsz1 Hin1) as (st1 & E & Hk1).
  simpl. rewrite E. simpl. by apply IH.
Qed.

Lemma has_keys_mono seen seen' st :
  seen' ⊆ seen -> has_keys seen st -> has_keys seen' st.
Proof. intros Hsub Hk e He. apply Hk. by apply Hsub. Qed.

Lemma walk_done seen st ns :
  has_keys seen st ->
  Forall (fun n => Forall (fun e => 0 <= esize e) (fanin n)) ns ->
  producer_first seen ns ->
  exists st', walk st ns = Done st'.
Proof.
  revert seen st. induction ns as [|n ns IH]; intros seen st Hk Hsz Hpf.
  - by eauto.
  - apply Forall_cons in Hsz as [Hsz1 Hsz2]. destruct Hpf as [Hin Hpf].
    pose proof (has_keys_foldl seen st (fanout n) Hk) as Hk1.
    destruct (visit_fanins_done (seen ++ fanout n) _ (fanin n) Hk1 Hsz1)
      as (st1 & E & Hk2).
    { eapply Forall_impl; [exact Hin|]. simpl. intros e He Hz.
      apply elem_of_app. left. auto. }
    simpl. unfold visit_node. rewrite E. simpl. by eapply IH.
Qed.

(** *** Where the operations on one edge sit in a valid ordering *)

Lemma produced_app ns1 ns2 : produced (ns1 ++ ns2) = produced ns1 ++ produced ns2.
Proof. unfold produced. by rewrite bind_app. Qed.

Lemma ordering_ops_app ns1 ns2 :
  ordering_ops (ns1 ++ ns2) = ordering_ops ns1 ++ ordering_ops ns2.
Proof. unfold ordering_ops. by rewrite bind_app. Qed.

Lemma produce_in_ops e ns : Produce e ∈ ordering_ops ns <-> e ∈ produced ns.
Proof.
  unfold ordering_ops, produced. rewrite !list_elem_of_bind.
  split; intros (n & He & Hn); exists n; split; try done.
  - unfold node_ops in He.
    apply elem_of_app in He as [He|He]; apply list_elem_of_fmap in He.
    + destruct He as (e' & [= ->] & He). done.
    + by destruct He as (e' & [=] & He).
  - unfold node_ops. apply elem_of_app. left. by apply list_elem_of_fmap_2.
Qed.

Lemma producer_first_read seen ns e :
  producer_first seen ns -> esize e ≠ 0 ->
  Consume e ∈ ordering_ops ns -> e ∈ seen ++ produced ns.
Proof.
  revert seen. induction ns as [|n ns IH]; intros seen Hpf Hz.
  - by intros ?%elem_of_nil.
  - destruct Hpf as [Hin Hpf]. rewrite ordering_ops_cons, produced_cons.
    rewrite elem_of_app. intros [He|He].
    + unfold node_ops in He.
      apply elem_of_app in He as [He|He]; apply list_elem_of_fmap in He.
      * by destruct He as (e' & [=] & He).
      * destruct He as (e' & [= ->] & He).
        rewrite Forall_forall in Hin. apply elem_of_app. left. auto.
    + specialize (IH _ Hpf Hz He). rewrite (assoc_L (++)). done.
Qed.

Lemma count_reads e ns :
  length (filter (Consume e =.) (ordering_ops ns)) = length (readers e ns).
Proof.
  induction ns as [|n ns IH]; [done|].
  rewrite ordering_ops_cons, readers_cons.
  rewrite filter_app, !length_app, IH. f_equal.
  unfold node_ops. rewrite filter_app, length_app, length_fmap.
  assert (filter (Consume e =.) (Produce <$> fanout n) = []) as ->.
  { apply elem_of_nil_inv. intros op [Hop Hin]%list_elem_of_filter.
    apply list_elem_of_fmap in Hin as (? & -> & _). done. }
  simpl. induction (fanin n) as [|e' es IHes]; [done|].
  rewrite fmap_cons. destruct (decide (e = e')) as [->|Hne].
  - rewrite !filter_cons_True by done. simpl. by rewrite IHes.
  - rewrite !filter_cons_False by congruence. done.
Qed.

Lemma run_mem_locs st ops e st1 :
  Produce e ∉ ops -> run_ops st ops = Done st1 ->
  mem_locs st1 !! e = mem_locs st !! e.
Proof.
  revert st. induction ops as [|op ops IH]; intros st Hp; simpl.
  - by intros [= <-].
  - apply not_elem_of_cons in Hp as [Hp1 Hp2].
    destruct (step st op) as [st2|] eqn:Hstep; [|done]. simpl.
    intros Hrun. rewrite (IH _ Hp2 Hrun).
    destruct op as [e'|e']; simpl in Hstep.
    + injection Hstep as <-. unfold visit_fanout.
      case_bool_decide; [|done]. simpl.
      apply lookup_insert_ne. congruence.
    + unfold visit_fanin in Hstep.
      repeat (case_bool_decide || case_match || simplify_eq/=); done.
Qed.

(** The history of one edge, from where its operations sit in the flat
    sequence. *)
Lemma edge_history_ops pre post e st :
  0 < esize e -> sinks e ≠ [] ->
  Produce e ∉ pre -> Consume e ∉ pre -> Produce e ∉ post ->
  length (filter (Consume e =.) post) = length (sinks e) ->
  run_ops init (pre ++ Produce e :: post) = Done st ->
  exists t, loc_edge t = e ∧ loc_size t = esize e
    ∧ mem_locs st !! e = Some t
    ∧ filter (about e) (history st)
      = SetCount e (Z.of_nat (length (sinks e))) :: Emit t
        :: (SetCount e <$> countdown (length (sinks e))) ++ [Emit t].
Proof.
  intros Hpos Hsk Hp1 Hc1 Hp2 Hlen. rewrite run_app.
  destruct (run_ops init pre) as [st1|] eqn:Hpre; [|done]. simpl.
  destruct (run_frame init pre e st1 tidy_init Hp1 Hc1 Hpre)
    as (Hst1 & _ & _ & Hh1).
  pose proof (tidy_visit_fanout st1 e Hst1) as Hst2.
  set (st2 := visit_fanout st1 e) in *. intros Hpost.
  set (t := {| loc_id := length (mem_sequence st1); loc_size := esize e;
               loc_edge := e |}).
  assert (edge_ref_counts st2 !! e = Some (Z.of_nat (length (sinks e)))
          ∧ mem_locs st2 !! e = Some t
          ∧ filter (about e) (history st2)
            = [SetCount e (Z.of_nat (length (sinks e))); Emit t])
    as (Hc2 & Hl2 & Hh2).
  { unfold st2, visit_fanout. rewrite bool_decide_eq_true_2 by done. simpl.
    rewrite !lookup_insert_eq. repeat split.
    rewrite filter_app, Hh1. simpl.
    rewrite filter_cons_True by done. by rewrite filter_cons_True. }
  exists t. repeat split.
  - rewrite (run_mem_locs st2 post e st Hp2 Hpost). done.
  - rewrite (run_countdown st2 post e t (length (sinks e)) st
               Hst2 Hpos Hc2 Hl2 Hp2 Hlen Hpost).
    rewrite Hh2. simpl. by destruct (sinks e).
Qed.

Lemma producer_first_app seen ns1 ns2 :
  producer_first seen (ns1 ++ ns2) -> producer_first seen ns1.
Proof.
  revert seen. induction ns1 as [|n ns1 IH]; intros seen; [done|].
  simpl. intros [? ?]. eauto.
Qed.

Lemma consume_in_fmap e (es : list Edge) : Consume e ∈ Consume <$> es <-> e ∈ es.
Proof.
  rewrite list_elem_of_fmap. split.
  - by intros (e' & [= ->] & ?).
  - intros He. by exists e.
Qed.

Lemma produce_not_consume e (es : list Edge) : Produce e ∉ Consume <$> es.
Proof. by intros (e' & [=] & ?)%list_elem_of_fmap. Qed.

Lemma consume_not_produce e (es : list Edge) : Consume e ∉ Produce <$> es.
Proof. by intros (e' & [=] & ?)%list_elem_of_fmap. Qed.

Lemma produce_in_fmap e (es : list Edge) : Produce e ∈ Produce <$> es <-> e ∈ es.
Proof.
  rewrite list_elem_of_fmap. split.
  - by intros (e' & [= ->] & ?).
  - intros He. by exists e.
Qed.

(** In a valid ordering the flat sequence reads
    [pre ++ Produce e :: post], nothing in [pre] touches [e], [post]
    does not write it again and reads it once per sink. *)
Lemma valid_ordering_split ns e :
  valid_ordering ns -> e ∈ produced ns -> 0 < esize e ->
  exists pre post,
    ordering_ops ns = pre ++ Produce e :: post
    ∧ (Produce e ∉ pre) ∧ (Consume e ∉ pre) ∧ (Produce e ∉ post)
    ∧ length (filter (Consume e =.) post) = length (sinks e).
Proof.
  intros [Hsz Hnd Hpf Hsk _] He Hpos.
  rewrite Forall_forall in Hsk. specialize (Hsk e He Hpos).
  apply Permutation_length in Hsk. rewrite <- count_reads in Hsk.
  unfold produced in He. apply list_elem_of_bind in He as (p & He & Hp).
  apply list_elem_of_split in Hp as (ns1 & ns2 & ->).
  apply list_elem_of_split in He as (f1 & f2 & Hf).
  rewrite produced_app, produced_cons, Hf in Hnd.
  rewrite !filter_app, filter_cons_True in Hnd by done.
  rewrite <- !app_assoc in Hnd. simpl in Hnd.
  apply NoDup_app in Hnd as (_ & Hnd1 & Hnd).
  apply NoDup_app in Hnd as (_ & Hnd2 & Hnd).
  apply NoDup_cons in Hnd as (Hnd3 & _).
  assert (e ∉ produced ns1) as Hn1.
  { intros Hin. apply (Hnd1 e).
    - by apply list_elem_of_filter.
    - apply elem_of_app. right. apply list_elem_of_here. }
  assert (e ∉ f1) as Hn2.
  { intros Hin. apply (Hnd2 e).
    - by apply list_elem_of_filter.
    - apply list_elem_of_here. }
  assert ((e ∉ f2) ∧ (e ∉ produced ns2)) as [Hn3 Hn4].
  { split; intros Hin; apply Hnd3, elem_of_app; [left|right];
      by apply list_elem_of_filter. }
  assert (Consume e ∉ ordering_ops ns1) as Hn5.
  { intros Hin. apply Hn1.
    apply producer_first_app in Hpf.
    by apply (producer_first_read [] ns1 e Hpf); [lia|]. }
  exists (ordering_ops ns1 ++ (Produce <$> f1)),
         ((Produce <$> f2) ++ (Consume <$> fanin p) ++ ordering_ops ns2).
  assert (ordering_ops (ns1 ++ p :: ns2)
          = (ordering_ops ns1 ++ (Produce <$> f1))
            ++ Produce e :: ((Produce <$> f2) ++ (Consume <$> fanin p)
                             ++ ordering_ops ns2)) as Heq.
  { rewrite ordering_ops_app, ordering_ops_cons. unfold node_ops.
    rewrite Hf, fmap_app, fmap_cons. by rewrite <- !app_assoc. }
  assert (Produce e ∉ ordering_ops ns1 ++ (Produce <$> f1)) as Hpre1.
  { rewrite elem_of_app, produce_in_ops, produce_in_fmap. tauto. }
  assert (Consume e ∉ ordering_ops ns1 ++ (Produce <$> f1)) as Hpre2.
  { rewrite elem_of_app. pose proof (consume_not_produce e f1). tauto. }
  split_and!; try done.
  - rewrite !elem_of_app, produce_in_ops, produce_in_fmap.
    pose proof (produce_not_consume e (fanin p)). tauto.
  - rewrite Heq, filter_app, filter_cons_False, length_app in Hsk by done.
    assert (filter (Consume e =.) (ordering_ops ns1 ++ (Produce <$> f1)) = [])
      as Hnil.
    { apply elem_of_nil_inv. intros op [<- Hin]%list_elem_of_filter. done. }
    rewrite Hnil in Hsk. done.
Qed.

Lemma counts_of_cons_set e e' c h :
  counts_of e (SetCount e' c :: h)
  = if decide (e' = e) then c :: counts_of e h else counts_of e h.
Proof. unfold counts_of. simpl. by destruct (decide (e' = e)). Qed.

Lemma counts_of_cons_emit e t h : counts_of e (Emit t :: h) = counts_of e h.
Proof. done. Qed.

Lemma counts_of_app e h1 h2 :
  counts_of e (h1 ++ h2) = counts_of e h1 ++ counts_of e h2.
Proof. apply omap_app. Qed.

Lemma emitted_app h1 h2 : emitted (h1 ++ h2) = emitted h1 ++ emitted h2.
Proof. apply omap_app. Qed.

Lemma counts_of_about e h : counts_of e (filter (about e) h) = counts_of e h.
Proof.
  induction h as [|[e' c|t] h IH]; [done| |].
  - rewrite counts_of_cons_set. destruct (decide (e' = e)) as [->|Hne].
    + rewrite filter_cons_True by done.
      rewrite counts_of_cons_set, decide_True by done. by rewrite IH.
    + by rewrite filter_cons_False.
  - rewrite counts_of_cons_emit. destruct (decide (loc_edge t = e)).
    + rewrite filter_cons_True by done. by rewrite counts_of_cons_emit.
    + by rewrite filter_cons_False.
Qed.

Lemma events_of_emitted e h :
  events_of e (emitted h) = emitted (filter (about e) h).
Proof.
  unfold events_of. induction h as [|a h IH]; [done|].
  destruct a as [e' c|t]; simpl.
  - unfold emitted in *. simpl. rewrite IH.
    destruct (decide (about e (SetCount e' c))).
    + by rewrite filter_cons_True.
    + by rewrite filter_cons_False.
  - unfold emitted in *. simpl.
    destruct (decide (loc_edge t = e)) as [Ht|Ht].
    + rewrite !filter_cons_True by done. simpl. by rewrite IH.
    + rewrite !filter_cons_False by done. done.
Qed.

Lemma counts_of_set e l : counts_of e (SetCount e <$> l) = l.
Proof.
  induction l as [|c l IH]; [done|].
  rewrite fmap_cons, counts_of_cons_set, decide_True by done. by rewrite IH.
Qed.

Lemma emitted_set e l : emitted (SetCount e <$> l) = [].
Proof. unfold emitted. by induction l. Qed.

Lemma countdown_ends_at_zero (n : nat) :
  exists l, Z.of_nat (S n) :: countdown (S n) = l ++ [0] ∧ Forall (fun c => 0 < c) l.
Proof.
  induction n as [|n (l & E & Hl)].
  - exists [1]. split; [done|]. repeat constructor.
  - exists (Z.of_nat (S (S n)) :: l). split.
    + change (countdown (S (S n))) with (Z.of_nat (S n) :: countdown (S n)).
      by rewrite E.
    + constructor; [lia|done].
Qed.

(** *** The replay of one edge's events *)

Lemma filter_head {A} (P : A -> Prop) `{forall x, Decision (P x)} l x r :
  filter P l = x :: r ->
  exists l1 l2, l = l1 ++ x :: l2 ∧ Forall (fun y => ¬ P y) l1 ∧ filter P l2 = r.
Proof.
  induction l as [|y l IH]; [done|].
  destruct (decide (P y)) as [Hy|Hy].
  - rewrite filter_cons_True by done. intros [= -> <-].
    exists [], l. by split_and!.
  - rewrite filter_cons_False by done. intros E.
    destruct (IH E) as (l1 & l2 & -> & Hl1 & Hl2).
    exists (y :: l1), l2. split_and!; [done| |done]. by constructor.
Qed.

Lemma filter_none {A} (P : A -> Prop) `{forall x, Decision (P x)} l :
  filter P l = [] -> Forall (fun y => ¬ P y) l.
Proof.
  intros E. apply Forall_forall. intros y Hy HP.
  assert (y ∈ filter P l) as Hin by by apply list_elem_of_filter.
  rewrite E in Hin. by apply elem_of_nil in Hin.
Qed.

Section ReplayFacts.
Variable allocator : nat -> Z -> Z.
Hypothesis allocator_nonnull : forall k size, allocator k size ≠ 0.

Lemma call_about_snoc e cs c :
  call_about e c ->
  filter (call_about e) (cs ++ [c]) = filter (call_about e) cs ++ [c].
Proof. intros Hc. by rewrite filter_app, filter_cons_True, filter_nil. Qed.

Lemma call_about_snoc_other e cs c :
  ¬ call_about e c ->
  filter (call_about e) (cs ++ [c]) = filter (call_about e) cs.
Proof.
  intros Hc. by rewrite filter_app, filter_cons_False, filter_nil, app_nil_r.
Qed.

(** Running another object leaves the address and the calls of [e]
    alone. *)
Lemma run_other d u e id :
  loc_edge u ≠ e -> loc_id u ≠ id ->
  addresses (run allocator d u) !! id = addresses d !! id
  ∧ filter (call_about e) (calls (run allocator d u))
    = filter (call_about e) (calls d).
Proof.
  intros He Hid. unfold run, allocate.
  destruct (addresses d !! loc_id u) as [a|]; [case_bool_decide|]; simpl;
    rewrite ?lookup_insert_ne, ?lookup_delete_ne by done;
    by rewrite call_about_snoc_other.
Qed.

Lemma replay_other ms : forall d e id,
  Forall (fun u => loc_edge u ≠ e ∧ loc_id u ≠ id) ms ->
  addresses (replay allocator d ms) !! id = addresses d !! id
  ∧ filter (call_about e) (calls (replay allocator d ms))
    = filter (call_about e) (calls d).
Proof.
  unfold replay. induction ms as [|u ms IH]; intros d e id Hms; [done|].
  apply Forall_cons in Hms as [[He Hid] Hms]. simpl.
  destruct (IH (run allocator d u) e id Hms) as [-> ->].
  by apply run_other.
Qed.

Lemma replay_app d ms1 ms2 :
  replay allocator d (ms1 ++ ms2)
  = replay allocator (replay allocator d ms1) ms2.
Proof. unfold replay. by rewrite foldl_app. Qed.

Lemma replay_cons d t ms :
  replay allocator d (t :: ms) = replay allocator (run allocator d t) ms.
Proof. done. Qed.

(** An object that occurs twice is allocated, then freed. *)
Lemma replay_twice d ms e t :
  loc_edge t = e ->
  events_of e ms = [t; t] ->
  (forall u, u ∈ ms -> loc_id u = loc_id t -> u = t) ->
  addresses d !! loc_id t = None ->
  let d' := replay allocator d ms in
  exists address,
    address ≠ 0
    ∧ filter (call_about e) (calls d')
      = filter (call_about e) (calls d)
        ++ [caching_allocator_alloc t; caching_allocator_delete t address]
    ∧ addresses d' !! loc_id t = None.
Proof.
  intros Hte Hev Huniq Hnone. unfold events_of in Hev.
  apply filter_head in Hev as (m1 & rest & -> & Hm1 & Hev).
  apply filter_head in Hev as (m2 & m3 & -> & Hm2 & Hm3).
  apply filter_none in Hm3.
  assert (forall m, Forall (fun y => loc_edge y ≠ e) m ->
            (forall u, u ∈ m -> loc_id u = loc_id t -> u = t) ->
            Forall (fun u => loc_edge u ≠ e ∧ loc_id u ≠ loc_id t) m) as Hother.
  { intros m Hm Hu. apply Forall_forall. intros u Hin.
    rewrite Forall_forall in Hm. split; [by apply Hm|].
    intros Hid. apply (Hm u Hin). by rewrite (Hu u Hin Hid). }
  assert (Forall (fun u => loc_edge u ≠ e ∧ loc_id u ≠ loc_id t) m1) as H1.
  { apply Hother; [done|]. intros u Hu. apply Huniq. set_solver. }
  assert (Forall (fun u => loc_edge u ≠ e ∧ loc_id u ≠ loc_id t) m2) as H2.
  { apply Hother; [done|]. intros u Hu. apply Huniq. set_solver. }
  assert (Forall (fun u => loc_edge u ≠ e ∧ loc_id u ≠ loc_id t) m3) as H3.
  { apply Hother; [done|]. intros u Hu. apply Huniq. set_solver. }
  simpl. rewrite replay_app, replay_cons, replay_app, replay_cons.
  set (d1 := replay allocator d m1).
  destruct (replay_other m1 d e (loc_id t) H1) as [Ha1 Hc1]. fold d1 in Ha1, Hc1.
  set (d2 := run allocator d1 t).
  set (address := allocator (length (calls d1)) (loc_size t)).
  assert (addresses d2 !! loc_id t = Some address
          ∧ filter (call_about e) (calls d2)
            = filter (call_about e) (calls d) ++ [caching_allocator_alloc t])
    as [Ha2 Hc2].
  { unfold d2, run. rewrite Ha1, Hnone. unfold allocate. simpl.
    rewrite lookup_insert_eq. split; [done|].
    by rewrite call_about_snoc, Hc1. }
  set (d3 := replay allocator d2 m2).
  destruct (replay_other m2 d2 e (loc_id t) H2) as [Ha3 Hc3]. fold d3 in Ha3, Hc3.
  set (d4 := run allocator d3 t).
  assert (addresses d4 !! loc_id t = None
          ∧ filter (call_about e) (calls d4)
            = filter (call_about e) (calls d)
              ++ [caching_allocator_alloc t;
                  caching_allocator_delete t address])
    as [Ha4 Hc4].
  { unfold d4, run. rewrite Ha3, Ha2.
    rewrite bool_decide_eq_true_2 by apply allocator_nonnull. simpl.
    rewrite lookup_delete_eq. split; [done|].
    rewrite call_about_snoc, Hc3, Hc2 by done. by rewrite <- app_assoc. }
  destruct (replay_other m3 d4 e (loc_id t) H3) as [Ha5 Hc5].
  exists address. split_and!; [apply allocator_nonnull|congruence|congruence].
Qed.

End ReplayFacts.

(** *** The sample ordering, step by step *)

Example sample_mem_sequence :
  loc_id <$> mem_sequence (final (measure_pt_alloc_time Sample.order))
  = [0; 1; 0; 1]%nat.
Proof. reflexivity. Qed.

Example sample_counts :
  counts_of Sample.e1 (history (final (measure_pt_alloc_time Sample.order)))
  = [2; 1; 0].
Proof. reflexivity. Qed.

Example sample_control_edge :
  edge_ref_counts (final (measure_pt_alloc_time Sample.order)) !! Sample.ctl
  = None.
Proof. reflexivity. Qed.

(** A consumer placed before its producer: [edge_ref_counts[fanin]]
    raises. *)
Example consumer_first_raises :
  exists st, measure_pt_alloc_time [Sample.n1; Sample.n0] = KeyError st.
Proof. eexists. reflexivity. Qed.

(** C8. Whatever the node ordering, an edge of size 0 never gets an entry
    in [edge_ref_counts] (nor in [mem_locs]), and no entry of
    [mem_sequence] was made for an edge of size 0: every allocation and
    deallocation event belongs to an edge of positive size and carries
    that size.  This holds of the state in which the loops end, also when
    they end by raising. *)
Theorem zero_size_edges_exempt (node_ordering : list Node) :
  let st := final (measure_pt_alloc_time node_ordering) in
  (forall e, esize e = 0 ->
     edge_ref_counts st !! e = None ∧ mem_locs st !! e = None
     ∧ events_of e (mem_sequence st) = [])
  ∧ (forall t, t ∈ mem_sequence st ->
       esize (loc_edge t) ≠ 0 ∧ loc_size t = esize (loc_edge t)).
Proof.
  intros st.
  pose proof (tidy_walk init node_ordering tidy_init) as [Hc Hl Hs Hls _ _].
  fold (measure_pt_alloc_time node_ordering) in *. fold st in Hc, Hl, Hs, Hls.
  split.
  - intros e He. repeat split.
    + destruct (edge_ref_counts st !! e) eqn:E; [|done].
      apply Hc in E. lia.
    + destruct (mem_locs st !! e) eqn:E; [|done].
      apply Hl in E. lia.
    + unfold events_of. apply elem_of_nil_inv.
      intros t [Hte Ht]%list_elem_of_filter. apply Hs in Ht. rewrite Hte in Ht. lia.
  - intros t Ht. apply Hs in Ht. lia.
Qed.

(** C9. On a valid ordering the walk ends without raising and, for every
    edge [e] of positive size it writes, the count of [e] is first set to
    the number of sinks, then lowered one by one down to 0; every value
    before the last is positive and the last is 0, so the count is never
    negative and is 0 exactly once.  The [MemLoc] of [e] is appended to
    [mem_sequence] right after the count is first set and right after
    the count is set to 0, and at no other time: the edge has exactly two
    events, and in the replay the first is an allocation and the second
    a deallocation. *)
Theorem ref_count_reaches_zero_once (node_ordering : list Node) :
  valid_ordering node_ordering ->
  exists st, measure_pt_alloc_time node_ordering = Done st ∧
    forall e, e ∈ produced node_ordering -> 0 < esize e ->
      edge_lifecycle st e.
Proof.
  intros Hvo.
  destruct (walk_done [] init node_ordering) as [st Hst].
  { by intros e ?%elem_of_nil. }
  { eapply Forall_impl; [apply Hvo|]. simpl. by intros n [? _]%Forall_app. }
  { apply Hvo. }
  exists st. split; [done|]. intros e He Hpos.
  unfold edge_lifecycle. set (n := length (sinks e)).
  destruct (valid_ordering_split node_ordering e Hvo He Hpos)
    as (pre & post & Hops & Hp1 & Hc1 & Hp2 & Hlen).
  assert (sinks e ≠ []) as Hsk.
  { pose proof (vo_has_sink _ Hvo) as H. rewrite Forall_forall in H. auto. }
  unfold measure_pt_alloc_time in Hst. rewrite walk_run, Hops in Hst.
  destruct (edge_history_ops pre post e st Hpos Hsk Hp1 Hc1 Hp2 Hlen Hst)
    as (t & Ht1 & Ht2 & Ht3 & Hh).
  assert (tidy st) as Htidy.
  { pose proof (tidy_walk init node_ordering tidy_init) as H.
    by rewrite walk_run, Hops, Hst in H. }
  assert (counts_of e (history st) = Z.of_nat n :: countdown n) as Hcounts.
  { rewrite <- counts_of_about, Hh. fold n.
    rewrite counts_of_cons_set, decide_True, counts_of_cons_emit by done.
    f_equal. rewrite counts_of_app, counts_of_set. apply app_nil_r. }
  assert (events_of e (mem_sequence st) = [t; t]) as Hevents.
  { rewrite (tidy_history _ Htidy), events_of_emitted, Hh. fold n.
    change (emitted (SetCount e (Z.of_nat n) :: Emit t
                     :: (SetCount e <$> countdown n) ++ [Emit t]))
      with (t :: emitted ((SetCount e <$> countdown n) ++ [Emit t])).
    by rewrite emitted_app, emitted_set. }
  exists t. split_and!; try done.
  - rewrite Hcounts. subst n. destruct (sinks e) as [|x xs]; [done|].
    apply countdown_ends_at_zero.
  - intros allocator d Hnonnull Hnone.
    apply (replay_twice allocator Hnonnull d (mem_sequence st) e t);
      try done.
    intros u Hu Hid.
    pose proof (tidy_ids _ Htidy u Hu) as E1.
    assert (t ∈ mem_sequence st) as Hin by by eapply tidy_locs_seq.
    pose proof (tidy_ids _ Htidy t Hin) as E2.
    rewrite Hid, E2 in E1. by injection E1.
Qed.

(** The sample ordering is valid, so the theorem applies to it. *)
Lemma sample_order_valid : valid_ordering Sample.order.
Proof.
  split.
  - repeat constructor; simpl; lia.
  - apply (bool_decide_unpack _). vm_compute. reflexivity.
  - repeat split; repeat constructor; intros; set_solver.
  - repeat constructor; intros; vm_compute; reflexivity.
  - repeat constructor; intros; discriminate.
Defined.

Lemma ref_count_reaches_zero_once_witness :
  exists st, measure_pt_alloc_time Sample.order = Done st ∧
    forall e, e ∈ produced Sample.order -> 0 < esize e ->
      edge_lifecycle st e.
Proof. exact (ref_count_reaches_zero_once Sample.order sample_order_valid). Defined.

End AllocFacts.

(** * Properties of the simulator *)

Module SimulatorFacts.
Import Simulator.

(** *** Counting reads *)





(** *** The walk and the running sums *)







(** *** Valid orderings *)





(** *** Sums that do not depend on the order within a step *)





(** *** The peak of the running sums *)




(** Scenario A of the design document: on the chain of three nodes only
    one buffer is live after each step. *)
Example chain_peak : Simulate Sample.chain = Some (100, [100; 100; 0]).
Proof. reflexivity. Qed.

Example sample_order_peak : Simulate Sample.order = Some (160, [100; 160; 0]).
Proof. reflexivity. Qed.

(** A node that reads an edge nobody wrote is rejected. *)
Example consumer_first_rejected : Simulate [Sample.b; Sample.a] = None.
Proof. reflexivity. Qed.





End SimulatorFacts.

(** * Properties of the [run_*] methods and of the sweeps *)

Module HarnessFacts.
Import Harness.

(** *** The error monad *)

Lemma bind_Ok {A B} (m : Result A) (k : A -> Result B) b :
  m ≫= k = Ok b -> exists a, m = Ok a ∧ k a = Ok b.
Proof. destruct m as [a|f]; [|done]. intros E. by exists a. Qed.

Lemma bind_Raise {A B} (m : Result A) (k : A -> Result B) f :
  m ≫= k = Raise f -> m = Raise f ∨ exists a, m = Ok a ∧ k a = Raise f.
Proof.
  destruct m as [a|f']; [|intros E; left; cbv in E; congruence].
  intros E. right. by exists a.
Qed.

Lemma assert_Ok cond line u : assert cond line = Ok u -> cond = true.
Proof. by destruct cond. Qed.

Lemma assert_Raise cond line f :
  assert cond line = Raise f -> cond = false ∧ f = AssertionError line.
Proof. destruct cond; [done|]. by intros [= <-]. Qed.

Lemma get_Ok summary key v : get summary key = Ok v -> summary !! key = Some v.
Proof. unfold get. destruct (summary !! key); [|done]. by intros [= ->]. Qed.

Lemma get_Raise summary key f :
  get summary key = Raise f -> summary !! key = None ∧ f = KeyError key.
Proof. unfold get. destruct (summary !! key); [done|]. by intros [= <-]. Qed.

Lemma div_Ok a b q : div a b = Ok q -> ¬ (b == 0)%Q ∧ q = (a / b)%Q.
Proof.
  unfold div. destruct (Qeq_bool b 0) eqn:E; [done|]. intros [= <-].
  split; [|done]. intros Hb. apply Qeq_bool_iff in Hb. congruence.
Qed.

Lemma div_Raise a b f : div a b = Raise f -> f = ZeroDivisionError.
Proof. unfold div. destruct (Qeq_bool b 0); [|done]. by intros [= <-]. Qed.

Lemma call_Ok {A} (c : Call A) a : call c = Ok a -> c = Returns a.
Proof. destruct c; [|done]. by intros [= ->]. Qed.

Lemma call_Raise {A} (c : Call A) f : call c = Raise f -> exists what, f = Raised what.
Proof. destruct c; [done|]. intros [= <-]. eauto. Qed.

(** *** Reading a result back *)

(** Turns what the earlier operations returned into facts. *)
Ltac returned :=
  repeat match goal with
  | H : call _ = Ok _ |- _ => apply call_Ok in H
  | H : get _ _ = Ok _ |- _ => apply get_Ok in H
  | H : assert _ _ = Ok _ |- _ => apply assert_Ok in H
  end.

(** *** [run_address_generation] *)

(** Splits [E : m = Ok b] along the binds of [m]. *)
Ltac succeeded E :=
  repeat match type of E with
  | (_ ≫= _) = Ok _ =>
      let a := fresh "a" in
      let Ha := fresh "Ha" in
      apply bind_Ok in E as (a & Ha & E)
  | (let '(_, _) := ?p in _) = Ok _ => destruct p; simpl in E
  end.

Lemma get_set_item_eq result key value :
  get_item (set_item result key value) key = Some value.
Proof.
  induction result as [|[k v] result IH]; simpl.
  - by rewrite decide_True.
  - destruct (decide (k = key)) as [->|Hne]; simpl.
    + by rewrite decide_True.
    + by rewrite decide_False.
Qed.

Lemma get_set_item_ne result key key' value :
  key ≠ key' ->
  get_item (set_item result key value) key' = get_item result key'.
Proof.
  intros Hne. induction result as [|[k v] result IH]; simpl.
  - by rewrite decide_False.
  - destruct (decide (k = key)) as [->|Hk]; simpl.
    + by rewrite !decide_False.
    + by rewrite IH.
Qed.

(** What a normal return of [run_address_generation] tells. *)
Lemma run_address_generation_Ok `{Olla} g node_order p f :
  run_address_generation g node_order = Ok (p, f) ->
  exists params summary schedule mem_loc achieved,
    ComputeOptimalSchedule g params (address_generation_args node_order)
    = Returns (summary, schedule, mem_loc)
    ∧ summary !! "required_memory" = Some p
    ∧ summary !! "peak_mem_usage" = Some achieved
    ∧ f = ((p - achieved) / p)%Q
    ∧ ¬ (p == 0)%Q ∧ (achieved <= p)%Q.
Proof.
  unfold run_address_generation. intros E. succeeded E.
  injection E as <- <-. returned.
  apply div_Ok in Ha2 as [Hnz ->].
  rewrite Ha1 in Ha5. injection Ha5 as <-.
  rewrite Ha0 in Ha6. injection Ha6 as <-.
  apply Qle_bool_iff in Ha7.
  eexists _, _, _, _, _. split_and!; done.
Qed.

(** C10. What [run_address_generation] returns first, and what the main
    program logs as [address_generation.peak_mem_usage] and keeps in its
    variable [peak_mem_usage], is [summary["required_memory"]], not
    [summary["peak_mem_usage"]]; the latter only enters the
    fragmentation ratio
    [(required_memory - peak_mem_usage) / required_memory]. *)
Theorem address_generation_reports_required_memory `{Olla}
    g node_order peak_mem_usage fragmentation :
  run_address_generation g node_order = Ok (peak_mem_usage, fragmentation) ->
  exists params summary schedule mem_loc achieved,
    ComputeOptimalSchedule g params (address_generation_args node_order)
    = Returns (summary, schedule, mem_loc)
    ∧ summary !! "required_memory" = Some peak_mem_usage
    ∧ summary !! "peak_mem_usage" = Some achieved
    ∧ fragmentation = ((peak_mem_usage - achieved) / peak_mem_usage)%Q
    ∧ forall old result,
        let out := generate_addresses g node_order old result in
        get_item out.1 "address_generation.peak_mem_usage"
        = Some (Num peak_mem_usage)
        ∧ get_item out.1 "address_generation.fragmentation"
          = Some (Num fragmentation)
        ∧ out.2 = peak_mem_usage.
Proof.
  intros E.
  destruct (run_address_generation_Ok g node_order _ _ E)
    as (params & summary & schedule & mem_loc & achieved
        & Hcall & Hreq & Hpeak & Hfrag & _ & _).
  exists params, summary, schedule, mem_loc, achieved.
  split_and!; try done.
  intros old result. unfold generate_addresses. rewrite E. simpl.
  split_and!; [|
    rewrite get_set_item_ne by done|done]; apply get_set_item_eq.
Qed.

Lemma address_generation_reports_required_memory_witness :
  let O := stub (summary_of 80 100 0 0) [] 0 in
  exists params summary schedule mem_loc achieved,
    ComputeOptimalSchedule sample_graph params (address_generation_args [])
    = Returns (summary, schedule, mem_loc)
    ∧ summary !! "required_memory" = Some 100%Q
    ∧ summary !! "peak_mem_usage" = Some achieved
    ∧ ((100 - 80) / 100)%Q = ((100 - achieved) / 100)%Q
    ∧ forall old result,
        let out := generate_addresses sample_graph [] old result in
        get_item out.1 "address_generation.peak_mem_usage" = Some (Num 100)
        ∧ get_item out.1 "address_generation.fragmentation"
          = Some (Num ((100 - 80) / 100))
        ∧ out.2 = 100%Q.
Proof.
  intros O.
  apply (@address_generation_reports_required_memory O sample_graph []
           100%Q ((100 - 80) / 100)%Q).
  vm_compute. reflexivity.
Defined.

(** C2, as worded, fails: a summary with [peak_mem_usage = 80] and
    [required_memory = 100] passes every assertion of
    [run_address_generation], which reports the ratio
    [(100 - 80) / 100]; the peak is below the required memory. *)
Lemma peak_below_required_counterexample : ¬ peak_never_below_required.
Proof.
  intros Hclaim.
  destruct (Hclaim (stub (summary_of 80 100 0 0) [] 0) sample_graph []
              100%Q ((100 - 80) / 100)%Q eq_refl default_params
              (summary_of 80 100 0 0) [] tt eq_refl)
    as (peak & required & Hp & Hr & Hle & _).
  vm_compute in Hp, Hr. injection Hp as <-. injection Hr as <-.
  by vm_compute in Hle.
Qed.

(** A summary whose peak exceeds the required memory is turned down by
    the assertion on line 360. *)
Lemma peak_above_required_rejected :
  @run_address_generation (stub (summary_of 120 100 0 0) [] 0) sample_graph []
  = Raise (AssertionError 360).
Proof. reflexivity. Qed.

(** C2, amended. Every result [run_address_generation] accepts has
    [peak_mem_usage <= required_memory]; the ratio it reports is
    [(required_memory - peak_mem_usage) / required_memory], which lies
    in [[0, 1]] when the peak is not negative and in [[0, 1)] when the
    peak is positive. *)
Theorem fragmentation_ratio_bounds `{Olla} g node_order p fragmentation :
  run_address_generation g node_order = Ok (p, fragmentation) ->
  exists params summary schedule mem_loc peak required,
    ComputeOptimalSchedule g params (address_generation_args node_order)
    = Returns (summary, schedule, mem_loc)
    ∧ summary !! "peak_mem_usage" = Some peak
    ∧ summary !! "required_memory" = Some required
    ∧ (peak <= required)%Q
    ∧ fragmentation = ((required - peak) / required)%Q
    ∧ ((0 <= peak)%Q -> (0 <= fragmentation)%Q ∧ (fragmentation <= 1)%Q)
    ∧ ((0 < peak)%Q -> (fragmentation < 1)%Q).
Proof.
  intros E.
  destruct (run_address_generation_Ok g node_order _ _ E)
    as (params & summary & schedule & mem_loc & peak
        & Hcall & Hreq & Hpeak & -> & Hnz & Hle).
  exists params, summary, schedule, mem_loc, peak, p.
  split_and!; try done.
  - intros Hpos.
    assert (0 < p)%Q as Hp.
    { apply Qle_lt_or_eq in Hpos as [Hpos|Hpos].
      - eapply Qlt_le_trans; eauto.
      - apply Qle_lt_or_eq in Hle as [Hle|Hle].
        + by rewrite <- Hpos in Hle.
        + exfalso. apply Hnz. by rewrite <- Hle, <- Hpos. }
    split.
    + apply Qle_shift_div_l; [done|]. rewrite Qmult_0_l.
      by apply (Qplus_le_l _ _ peak); ring_simplify.
    + apply Qle_shift_div_r; [done|]. rewrite Qmult_1_l.
      apply (Qplus_le_l _ _ peak). ring_simplify.
      rewrite <- (Qplus_0_r p) at 1. by apply Qplus_le_r.
  - intros Hpos.
    assert (0 < p)%Q as Hp by (eapply Qlt_le_trans; eauto).
    apply Qlt_shift_div_r; [done|]. rewrite Qmult_1_l.
    apply (Qplus_lt_l _ _ peak). ring_simplify.
    rewrite <- (Qplus_0_r p) at 1. by apply Qplus_lt_r.
Qed.

Lemma fragmentation_ratio_bounds_witness :
  let O := stub (summary_of 80 100 0 0) [] 0 in
  exists params summary schedule mem_loc peak required,
    ComputeOptimalSchedule sample_graph params (address_generation_args [])
    = Returns (summary, schedule, mem_loc)
    ∧ summary !! "peak_mem_usage" = Some peak
    ∧ summary !! "required_memory" = Some required
    ∧ (peak <= required)%Q
    ∧ ((100 - 80) / 100)%Q = ((required - peak) / required)%Q
    ∧ ((0 <= peak)%Q ->
       (0 <= (100 - 80) / 100)%Q ∧ ((100 - 80) / 100 <= 1)%Q)
    ∧ ((0 < peak)%Q -> ((100 - 80) / 100 < 1)%Q).
Proof.
  intros O.
  apply (@fragmentation_ratio_bounds O sample_graph [] 100%Q
           ((100 - 80) / 100)%Q).
  vm_compute. reflexivity.
Defined.

(** *** The budget sweeps *)

Lemma Qlt_bool_false a b : Qlt_bool a b = false -> (b <= a)%Q.
Proof.
  unfold Qlt_bool. intros E. apply negb_false_iff in E.
  by apply Qle_bool_iff.
Qed.

Lemma budget_sweep_respects_floor run peak_mem_usage min_memory levels :
  respects_floor peak_mem_usage min_memory levels
    (budget_sweep run peak_mem_usage min_memory levels).
Proof.
  induction levels as [|savings rest (IH1 & IH2 & IH3)]; simpl.
  - split_and!; [constructor|done|]. intros i s Hi. by destruct i.
  - assert (forall i s,
              (savings :: rest) !! i = Some s ->
              Qlt_bool (peak_mem_usage * (1 - s))%Q min_memory = true ->
              (1 <= S i)%nat) as Hone by (intros; lia).
    destruct (Qlt_bool (peak_mem_usage * (1 - savings))%Q min_memory)
      eqn:Hclamp.
    + assert (clamp peak_mem_usage min_memory savings = min_memory) as Hmin
        by (unfold clamp; by rewrite Hclamp).
      destruct (div min_memory peak_mem_usage) as [ratio|f]; simpl.
      * destruct (run min_memory); unfold respects_floor; simpl;
          (split_and!;
             [apply Forall_cons; split; [apply Qle_refl|constructor]
             |by rewrite Hmin|done]).
      * unfold respects_floor; simpl.
        split_and!; [constructor|done|]. intros; lia.
    + assert (clamp peak_mem_usage min_memory savings
              = (peak_mem_usage * (1 - savings))%Q) as Hkeep
        by (unfold clamp; by rewrite Hclamp).
      pose proof (Qlt_bool_false _ _ Hclamp) as Hle.
      destruct (run (peak_mem_usage * (1 - savings))%Q); simpl.
      * unfold respects_floor; simpl. split_and!.
        -- by apply Forall_cons.
        -- rewrite Hkeep. f_equal. exact IH2.
        -- intros [|i] s Hi Hs; simpl in Hi.
           ++ injection Hi as <-. congruence.
           ++ specialize (IH3 i s Hi Hs). lia.
      * unfold respects_floor; simpl. split_and!.
        -- apply Forall_cons. split; [done|constructor].
        -- by rewrite Hkeep.
        -- intros [|i] s Hi Hs; simpl in Hi; [|lia].
           injection Hi as <-. congruence.
Qed.

(** With a peak of 100 and a floor of 60 the sweep asks for 90, 75 and
    then 60, and stops. *)
Example sample_sweep :
  requested (@rematerialization_sweep
               (stub (summary_of 160 160 0 0) Sample.order 60) sample_graph 100)
  = [(100 * (1 - (1 # 10))); (100 * (1 - (1 # 4))); 60]%Q.
Proof. vm_compute. reflexivity. Qed.



(** *** [run_spilling] *)

(** The loop of the harness, which skips a node when [not n.time], adds
    up the [time] of the nodes that have a non-zero one. *)
Lemma model_runtime_total g : (model_runtime g == total_time g)%Q.
Proof.
  unfold model_runtime, total_time.
  assert (forall l acc,
            (foldl (fun model_runtime n =>
                      match timed n with
                      | Some t => model_runtime + t
                      | None => model_runtime
                      end) acc l
             == acc + foldr (fun n sum => default 0 (time n) + sum) 0
                        (filter (fun n => has_time n = true) l))%Q) as Hgen.
  { induction l as [|n l IH]; intros acc; [simpl; ring|].
    cbn [foldl]. rewrite IH. clear IH.
    unfold timed, has_time. destruct (time n) as [t|] eqn:Ht.
    - destruct (Qeq_bool t 0) eqn:Hz.
      + by rewrite filter_cons_False by (rewrite Ht, Hz; simpl; congruence).
      + rewrite filter_cons_True by (by rewrite Ht, Hz).
        cbn [foldr]. rewrite Ht. simpl. ring.
    - by rewrite filter_cons_False by (rewrite Ht; congruence). }
  rewrite Hgen. ring.
Qed.

(** On the sample graph the two timed nodes take 1 ms and 3 ms. *)
Example sample_total_time : (total_time sample_graph == 4 # 1000)%Q.
Proof. reflexivity. Qed.

(** C5. The overhead [run_spilling] returns is [total_data_swapped]
    divided by the bandwidth of [16e9] bytes per second and then by the
    model run time, which is the sum of the [time] attribute over the
    nodes with a non-zero time; it is the number of bytes swapped times a
    factor that does not depend on it. *)
Theorem spilling_overhead `{Olla} g memory_budget overhead :
  run_spilling g memory_budget = Ok overhead ->
  exists params summary schedule mem_loc swapped,
    ComputeOptimalSchedule g params (spilling_args memory_budget)
    = Returns (summary, schedule, mem_loc)
    ∧ summary !! "total_data_swapped" = Some swapped
    ∧ overhead = (swapped / bandwidth / model_runtime g)%Q
    ∧ (bandwidth == 16 * 10 ^ 9)%Q
    ∧ (model_runtime g == total_time g)%Q
    ∧ (overhead == swapped / (16 * 10 ^ 9) / total_time g)%Q
    ∧ (overhead == swapped * / (bandwidth * total_time g))%Q.
Proof.
  unfold run_spilling. intros E. succeeded E. returned.
  apply div_Ok in E as [Hnz ->].
  eexists _, _, _, _, _. split_and!; try done.
  - apply model_runtime_total.
  - rewrite <- model_runtime_total. reflexivity.
  - rewrite <- model_runtime_total. field. split; [done|discriminate].
Qed.

(** With 32 MB swapped and 4 ms of model run time the overhead is
    [32e6 / 16e9 / 0.004 = 1/2]. *)
Lemma spilling_overhead_witness :
  let O := stub (summary_of 100 100 32000000 0) Sample.order 0 in
  (exists overhead,
     run_spilling sample_graph 50 = Ok overhead ∧ (overhead == 1 # 2)%Q)
  ∧ (total_time sample_graph == 4 # 1000)%Q
  ∧ exists params summary schedule mem_loc swapped,
      ComputeOptimalSchedule sample_graph params (spilling_args 50)
      = Returns (summary, schedule, mem_loc)
      ∧ summary !! "total_data_swapped" = Some swapped
      ∧ (32000000 / bandwidth / model_runtime sample_graph)%Q
        = (swapped / bandwidth / model_runtime sample_graph)%Q
      ∧ (bandwidth == 16 * 10 ^ 9)%Q
      ∧ (model_runtime sample_graph == total_time sample_graph)%Q
      ∧ (32000000 / bandwidth / model_runtime sample_graph
         == swapped / (16 * 10 ^ 9) / total_time sample_graph)%Q
      ∧ (32000000 / bandwidth / model_runtime sample_graph
         == swapped * / (bandwidth * total_time sample_graph))%Q.
Proof.
  intros O.
  assert (run_spilling sample_graph 50
          = Ok (32000000 / bandwidth / model_runtime sample_graph)%Q) as E
    by (vm_compute; reflexivity).
  split_and!.
  - eexists. split; [exact E|]. reflexivity.
  - reflexivity.
  - exact (@spilling_overhead O sample_graph 50%Q _ E).
Defined.

End HarnessFacts.

(** * More properties of [measure_pt_alloc_time] *)

Module AllocMoreFacts.
Import Alloc AllocMore AllocFacts.

(** *** Which orderings raise *)

Lemma keyed_init : keyed [] init.
Proof.
  intros e. simpl. rewrite !lookup_empty.
  split; (split; [by intros [? ?]|by intros ?%elem_of_nil]).
Qed.

Lemma keyed_visit_fanout seen st e :
  keyed seen st ->
  keyed (seen ++ filter (fun e => 0 < esize e) [e]) (visit_fanout st e).
Proof.
  intros Hk. unfold visit_fanout. case_bool_decide as Hpos.
  - rewrite filter_cons_True, filter_nil by done. intros e'. simpl.
    rewrite !lookup_insert, elem_of_app, list_elem_of_singleton.
    destruct (Hk e') as [H1 H2].
    case_decide as He; [subst e'|]; split; split; eauto; try tauto.
    + intros [?|?]; [tauto|congruence].
    + intros [?|?]; [tauto|congruence].
  - rewrite filter_cons_False, filter_nil, app_nil_r by done. done.
Qed.

Lemma keyed_foldl es : forall seen st,
  keyed seen st ->
  keyed (seen ++ filter (fun e => 0 < esize e) es) (foldl visit_fanout st es).
Proof.
  induction es as [|e es IH]; intros seen st Hk; simpl.
  - by rewrite app_nil_r.
  - change (e :: es) with ([e] ++ es). rewrite filter_app, (assoc_L (++)).
    apply IH. by apply keyed_visit_fanout.
Qed.

Lemma keyed_visit_fanin seen st e :
  keyed seen st ->
  match visit_fanin st e with
  | Done st' => (esize e ≠ 0 -> e ∈ seen) ∧ keyed seen st'
  | KeyError _ => esize e ≠ 0 ∧ e ∉ seen
  end.
Proof.
  intros Hk. unfold visit_fanin. case_bool_decide as Hz; [done|].
  destruct (Hk e) as [H1 H2].
  destruct (edge_ref_counts st !! e) as [c|] eqn:Hc.
  - assert (e ∈ seen) as Hin by (apply H1; eauto).
    assert (forall ms h, keyed seen
              {| edge_ref_counts := <[e:=c - 1]> (edge_ref_counts st);
                 mem_sequence := ms; mem_locs := mem_locs st; history := h |})
      as Hk'.
    { intros ms h e'. simpl. destruct (Hk e') as [H3 H4].
      split; [|done]. rewrite lookup_insert. case_decide; [subst e'|done].
      split; eauto. }
    simpl. case_bool_decide; [|by split].
    destruct (mem_locs st !! e) as [t|] eqn:Ht; [by split|].
    apply H2 in Hin as [? ?]. congruence.
  - split; [done|]. intros Hin%H1. by destruct Hin.
Qed.

Lemma keyed_visit_fanins es : forall seen st,
  keyed seen st ->
  match visit_fanins st es with
  | Done st' => Forall (fun e => esize e ≠ 0 -> e ∈ seen) es ∧ keyed seen st'
  | KeyError _ => ¬ Forall (fun e => esize e ≠ 0 -> e ∈ seen) es
  end.
Proof.
  induction es as [|e es IH]; intros seen st Hk; simpl; [by split|].
  pose proof (keyed_visit_fanin seen st e Hk) as Hstep.
  destruct (visit_fanin st e) as [st1|st1]; simpl.
  - destruct Hstep as [He Hk1]. specialize (IH seen st1 Hk1).
    destruct (visit_fanins st1 es).
    + destruct IH as [Hes Hk2]. split; [by constructor|done].
    + intros [_ Hes]%Forall_cons. by apply IH.
  - destruct Hstep as [Hz Hout]. intros [He _]%Forall_cons. auto.
Qed.

Lemma keyed_walk ns : forall seen st,
  keyed seen st ->
  match walk st ns with
  | Done st' => ready seen ns ∧ keyed (seen ++ tensors ns) st'
  | KeyError _ => ¬ ready seen ns
  end.
Proof.
  induction ns as [|n ns IH]; intros seen st Hk; simpl.
  - unfold tensors. simpl. by rewrite app_nil_r.
  - unfold visit_node.
    pose proof (keyed_visit_fanins (fanin n) _ _
                  (keyed_foldl (fanout n) seen st Hk)) as Hstep.
    destruct (visit_fanins _ (fanin n)) as [st1|st1]; simpl.
    + destruct Hstep as [Hin Hk1]. specialize (IH _ st1 Hk1).
      destruct (walk st1 ns).
      * destruct IH as [Hr Hk2]. split; [by split|].
        unfold tensors in *. rewrite produced_cons, filter_app.
        by rewrite (assoc_L (++)).
      * intros [_ Hr]. by apply IH.
    + by intros [Hin _].
Qed.

(** X1. [measure_pt_alloc_time] gets through its two loops exactly on the
    orderings in which every edge a node reads with a non-zero size has
    positive size and is written by that node or by an earlier one; on
    every other ordering [edge_ref_counts[fanin]] raises [KeyError]. *)
Theorem walk_returns_iff_ready (node_ordering : list Node) :
  (exists st, measure_pt_alloc_time node_ordering = Done st)
  <-> ready [] node_ordering.
Proof.
  pose proof (keyed_walk node_ordering [] init keyed_init) as H.
  unfold measure_pt_alloc_time. destruct (walk init node_ordering) as [st|st].
  - split; [by intros _; apply H|eauto].
  - split; [by intros [? ?]|by intros ?%H].
Qed.

(** X2. When the loops end normally, the keys of [edge_ref_counts] and
    the keys of [mem_locs] are the same: the edges of positive size that
    some node of the ordering writes. *)
Theorem dictionary_keys (node_ordering : list Node) st :
  measure_pt_alloc_time node_ordering = Done st ->
  forall e,
    (is_Some (edge_ref_counts st !! e)
     <-> e ∈ produced node_ordering ∧ 0 < esize e)
    ∧ (is_Some (mem_locs st !! e) <-> is_Some (edge_ref_counts st !! e)).
Proof.
  intros E e.
  pose proof (keyed_walk node_ordering [] init keyed_init) as H.
  unfold measure_pt_alloc_time in E. rewrite E in H. destruct H as [_ Hk].
  destruct (Hk e) as [H1 H2]. simpl in *. unfold tensors in *.
  rewrite list_elem_of_filter in H1, H2. split; tauto.
Qed.

Lemma dictionary_keys_witness :
  (is_Some (edge_ref_counts (final (measure_pt_alloc_time Sample.order))
              !! Sample.e1)
   <-> Sample.e1 ∈ produced Sample.order ∧ 0 < esize Sample.e1)
  ∧ (is_Some (mem_locs (final (measure_pt_alloc_time Sample.order))
                !! Sample.e1)
     <-> is_Some (edge_ref_counts
                    (final (measure_pt_alloc_time Sample.order))
                    !! Sample.e1)).
Proof. apply (dictionary_keys Sample.order _ eq_refl Sample.e1). Defined.

(** *** The dictionary holds what was last assigned *)

Lemma counts_of_snoc e e' c h :
  counts_of e' (h ++ [SetCount e c])
  = counts_of e' h ++ (if decide (e = e') then [c] else []).
Proof.
  rewrite counts_of_app. f_equal. rewrite counts_of_cons_set.
  by destruct (decide (e = e')).
Qed.

Lemma counts_of_snoc_emit e' t h :
  counts_of e' (h ++ [Emit t]) = counts_of e' h.
Proof. rewrite counts_of_app. apply app_nil_r. Qed.

Lemma current_init : current init.
Proof. intros e. simpl. by rewrite lookup_empty. Qed.

Lemma current_visit_fanout st e : current st -> current (visit_fanout st e).
Proof.
  intros Hcur e'. unfold visit_fanout. case_bool_decide; [|apply Hcur]. simpl.
  replace (history st ++ [SetCount e (Z.of_nat (length (sinks e))); Emit
            {| loc_id := length (mem_sequence st); loc_size := esize e;
               loc_edge := e |}])
    with ((history st ++ [SetCount e (Z.of_nat (length (sinks e)))]) ++
          [Emit {| loc_id := length (mem_sequence st); loc_size := esize e;
                   loc_edge := e |}])
    by by rewrite <- app_assoc.
  rewrite counts_of_snoc_emit, counts_of_snoc, lookup_insert.
  case_decide.
  - by rewrite last_snoc.
  - rewrite app_nil_r. apply Hcur.
Qed.

Lemma current_visit_fanin st e :
  current st -> current (final (visit_fanin st e)).
Proof.
  intros Hcur. unfold visit_fanin. case_bool_decide; [done|].
  destruct (edge_ref_counts st !! e) as [c|]; [|done]. simpl.
  assert (forall e',
            <[e:=c - 1]> (edge_ref_counts st) !! e'
            = last (counts_of e' (history st ++ [SetCount e (c - 1)])))
    as Hcur1.
  { intros e'. rewrite counts_of_snoc, lookup_insert. case_decide.
    - by rewrite last_snoc.
    - rewrite app_nil_r. apply Hcur. }
  case_bool_decide; [|done].
  destruct (mem_locs st !! e); [|done].
  intros e'. simpl. by rewrite counts_of_snoc_emit.
Qed.

Lemma owned_init : owned init.
Proof. by intros t ?%elem_of_nil. Qed.

Lemma owned_visit_fanout st e : owned st -> owned (visit_fanout st e).
Proof.
  intros Hown. unfold visit_fanout. case_bool_decide; [|done].
  intros t. simpl. rewrite elem_of_app, list_elem_of_singleton, lookup_insert.
  intros [Ht| ->]; simpl; case_decide; eauto. congruence.
Qed.

Lemma owned_visit_fanin st e :
  tidy st -> owned st -> owned (final (visit_fanin st e)).
Proof.
  intros Htidy Hown. unfold visit_fanin. case_bool_decide; [done|].
  destruct (edge_ref_counts st !! e) as [c|]; [|done]. simpl.
  case_bool_decide; [|done].
  destruct (mem_locs st !! e) as [t|] eqn:Ht; [|done].
  intros t'. simpl. rewrite elem_of_app, list_elem_of_singleton.
  intros [Hin| ->]; [by apply Hown|].
  destruct (tidy_locs _ Htidy e t Ht) as [-> _]. by rewrite Ht.
Qed.

(** The three facts kept together along the walk. *)
Lemma kept_fanins es : forall st,
  tidy st -> current st -> owned st ->
  let st' := final (visit_fanins st es) in
  tidy st' ∧ current st' ∧ owned st'.
Proof.
  induction es as [|e es IH]; intros st Ht Hc Ho; simpl; [done|].
  pose proof (tidy_visit_fanin st e Ht) as Ht1.
  pose proof (current_visit_fanin st e Hc) as Hc1.
  pose proof (owned_visit_fanin st e Ht Ho) as Ho1.
  destruct (visit_fanin st e); simpl in *; [by apply IH|done].
Qed.

Lemma kept_foldl es : forall st,
  tidy st -> current st -> owned st ->
  let st' := foldl visit_fanout st es in
  tidy st' ∧ current st' ∧ owned st'.
Proof.
  induction es as [|e es IH]; intros st Ht Hc Ho; simpl; [done|].
  apply IH; [by apply tidy_visit_fanout|by apply current_visit_fanout
            |by apply owned_visit_fanout].
Qed.

Lemma kept_walk ns : forall st,
  tidy st -> current st -> owned st ->
  let st' := final (walk st ns) in
  tidy st' ∧ current st' ∧ owned st'.
Proof.
  induction ns as [|n ns IH]; intros st Ht Hc Ho; simpl; [done|].
  unfold visit_node.
  destruct (kept_foldl (fanout n) st Ht Hc Ho) as (Ht1 & Hc1 & Ho1).
  destruct (kept_fanins (fanin n) _ Ht1 Hc1 Ho1) as (Ht2 & Hc2 & Ho2).
  destruct (visit_fanins _ (fanin n)); simpl in *; [by apply IH|done].
Qed.

Lemma kept_measure ns :
  let st := final (measure_pt_alloc_time ns) in
  tidy st ∧ current st ∧ owned st.
Proof. apply kept_walk; [apply tidy_init|apply current_init|apply owned_init]. Qed.

(** *** Valid orderings: the history of one edge *)

Lemma valid_edge_history ns st e :
  valid_ordering ns -> measure_pt_alloc_time ns = Done st ->
  e ∈ produced ns -> 0 < esize e ->
  let n := length (sinks e) in
  exists t,
    n ≠ 0%nat ∧ loc_edge t = e ∧ mem_locs st !! e = Some t
    ∧ counts_of e (history st) = Z.of_nat n :: countdown n
    ∧ events_of e (mem_sequence st) = [t; t].
Proof.
  intros Hvo Hst He Hpos n.
  destruct (valid_ordering_split ns e Hvo He Hpos)
    as (pre & post & Hops & Hp1 & Hc1 & Hp2 & Hlen).
  assert (sinks e ≠ []) as Hsk.
  { pose proof (vo_has_sink _ Hvo) as H. rewrite Forall_forall in H. auto. }
  pose proof (kept_measure ns) as (Htidy & _ & _). rewrite Hst in Htidy.
  unfold measure_pt_alloc_time in Hst. rewrite walk_run, Hops in Hst.
  destruct (edge_history_ops pre post e st Hpos Hsk Hp1 Hc1 Hp2 Hlen Hst)
    as (t & Ht1 & Ht2 & Ht3 & Hh).
  exists t. split_and!; try done.
  - subst n. by destruct (sinks e).
  - rewrite <- counts_of_about, Hh. fold n.
    rewrite counts_of_cons_set, decide_True, counts_of_cons_emit by done.
    f_equal. rewrite counts_of_app, counts_of_set. apply app_nil_r.
  - simpl in Htidy.
    rewrite (tidy_history _ Htidy), events_of_emitted, Hh. fold n.
    change (emitted (SetCount e (Z.of_nat n) :: Emit t
                     :: (SetCount e <$> countdown n) ++ [Emit t]))
      with (t :: emitted ((SetCount e <$> countdown n) ++ [Emit t])).
    by rewrite emitted_app, emitted_set.
Qed.

(** X3. On a valid ordering every count left in [edge_ref_counts] when
    the loops end is 0: every tensor the walk allocated has been given
    back. *)
Theorem all_counts_end_at_zero (node_ordering : list Node) st :
  valid_ordering node_ordering ->
  measure_pt_alloc_time node_ordering = Done st ->
  forall e c, edge_ref_counts st !! e = Some c -> c = 0.
Proof.
  intros Hvo Hst e c Hc.
  pose proof (keyed_walk node_ordering [] init keyed_init) as Hk.
  pose proof (kept_measure node_ordering) as (_ & Hcur & _).
  rewrite Hst in Hcur. simpl in Hcur.
  unfold measure_pt_alloc_time in Hst. rewrite Hst in Hk.
  destruct Hk as [_ Hk]. destruct (Hk e) as [Hin _]. simpl in Hin.
  assert (e ∈ tensors node_ordering) as He by (apply Hin; eauto).
  apply list_elem_of_filter in He as [Hpos He].
  destruct (valid_edge_history node_ordering st e Hvo Hst He Hpos)
    as (t & Hn & _ & _ & Hcounts & _).
  rewrite Hcur, Hcounts in Hc.
  destruct (length (sinks e)) as [|n]; [done|].
  destruct (countdown_ends_at_zero n) as (l & El & _).
  rewrite El, last_snoc in Hc. by injection Hc.
Qed.

Lemma all_counts_end_at_zero_witness :
  exists c,
    edge_ref_counts (final (measure_pt_alloc_time Sample.order)) !! Sample.e1
    = Some c
    ∧ c = 0.
Proof.
  exists 0.
  assert (edge_ref_counts (final (measure_pt_alloc_time Sample.order))
            !! Sample.e1 = Some 0) as E by (vm_compute; reflexivity).
  split; [exact E|].
  exact (all_counts_end_at_zero Sample.order _ sample_order_valid eq_refl
           Sample.e1 0 E).
Defined.

(** *** How long [mem_sequence] is *)

(** A list whose elements fall into [length L] classes of [k] elements
    each has [k * length L] elements. *)
Lemma length_by_class {A B} `{EqDecision B} (f : A -> B) (k : nat) (L : list B) :
  NoDup L -> forall l : list A,
  (forall x, x ∈ l -> f x ∈ L) ->
  (forall b, b ∈ L -> length (filter (fun x => f x = b) l) = k) ->
  length l = (k * length L)%nat.
Proof.
  induction 1 as [|b L Hb HL IH]; intros l Hin Hk.
  - destruct l as [|x l]; [simpl; lia|].
    specialize (Hin x (list_elem_of_here _ _)). by apply elem_of_nil in Hin.
  - pose proof (filter_app_complement (fun x => f x = b) l) as Hsplit.
    apply Permutation_length in Hsplit. rewrite length_app in Hsplit.
    rewrite (Hk b) in Hsplit by left.
    rewrite (IH (filter (fun x => f x ≠ b) l)) in Hsplit.
    + simpl. lia.
    + intros x [Hx Hxl]%list_elem_of_filter.
      specialize (Hin x Hxl). apply elem_of_cons in Hin as [?|?]; done.
    + intros b' Hb'. rewrite <- (Hk b') by by right.
      rewrite list_filter_filter. f_equal. apply list_filter_iff.
      intros x. split; [tauto|]. intros Hx. split; [done|].
      intros Hxb. apply Hb. congruence.
Qed.

(** X4. On a valid ordering [mem_sequence] holds two entries for each
    tensor, so the count the method returns,
    [num_times * len(mem_sequence) / 2], is [num_times] times the number
    of tensors. *)
Theorem alloc_dealloc_pairs (node_ordering : list Node) st (num_times : nat) :
  valid_ordering node_ordering ->
  measure_pt_alloc_time node_ordering = Done st ->
  length (mem_sequence st) = (2 * length (tensors node_ordering))%nat
  ∧ (num_alloc_dealloc_pairs num_times st
     == inject_Z (Z.of_nat (num_times * length (tensors node_ordering))))%Q.
Proof.
  intros Hvo Hst.
  assert (length (mem_sequence st) = (2 * length (tensors node_ordering))%nat)
    as Hlen.
  { apply (length_by_class loc_edge).
    - apply Hvo.
    - intros t Ht.
      pose proof (kept_measure node_ordering) as (_ & _ & Hown).
      pose proof (keyed_walk node_ordering [] init keyed_init) as Hk.
      rewrite Hst in Hown. unfold measure_pt_alloc_time in Hst.
      rewrite Hst in Hk. destruct Hk as [_ Hk].
      apply (Hk (loc_edge t)), Hown, Ht.
    - intros e [Hpos He]%list_elem_of_filter.
      destruct (valid_edge_history node_ordering st e Hvo Hst He Hpos)
        as (t & _ & _ & _ & _ & Hev).
      unfold events_of in Hev. by rewrite Hev. }
  split; [done|]. unfold num_alloc_dealloc_pairs. rewrite Hlen.
  replace (Z.of_nat num_times * Z.of_nat (2 * length (tensors node_ordering)))
    with (Z.of_nat (num_times * length (tensors node_ordering)) * 2) by lia.
  rewrite inject_Z_mult. field.
Qed.

Lemma alloc_dealloc_pairs_witness :
  length (mem_sequence (final (measure_pt_alloc_time Sample.order)))
  = (2 * length (tensors Sample.order))%nat
  ∧ (num_alloc_dealloc_pairs 100 (final (measure_pt_alloc_time Sample.order))
     == inject_Z (Z.of_nat (100 * length (tensors Sample.order))))%Q.
Proof.
  apply (alloc_dealloc_pairs Sample.order _ 100 sample_order_valid).
  reflexivity.
Defined.

(** *** The timed replay *)

Section TimedReplay.
Variable allocator : nat -> Z -> Z.

Lemma calls_run d u :
  length (calls (run allocator d u)) = S (length (calls d)).
Proof.
  unfold run, allocate.
  destruct (addresses d !! loc_id u) as [a|]; [case_bool_decide|]; simpl;
    rewrite length_app; simpl; lia.
Qed.

Lemma calls_replay ms : forall d,
  length (calls (replay allocator d ms)) = (length (calls d) + length ms)%nat.
Proof.
  unfold replay. induction ms as [|u ms IH]; intros d; simpl; [lia|].
  rewrite IH, calls_run. lia.
Qed.

Hypothesis allocator_nonnull : forall k size, allocator k size ≠ 0.

Lemma nonnull_run d u : nonnull d -> nonnull (run allocator d u).
Proof.
  intros Hd id a. unfold run, allocate.
  destruct (addresses d !! loc_id u) as [a'|] eqn:Hu; [case_bool_decide|];
    simpl.
  - intros [_ Hl]%lookup_delete_Some. by eapply Hd.
  - rewrite lookup_insert. case_decide; [|apply Hd].
    intros [= <-]. apply allocator_nonnull.
  - rewrite lookup_insert. case_decide; [|apply Hd].
    intros [= <-]. apply allocator_nonnull.
Qed.

(** [run] flips whether its object holds an address and leaves the
    others alone. *)
Lemma run_toggle d u id :
  nonnull d ->
  bool_decide (is_Some (addresses (run allocator d u) !! id))
  = xorb (bool_decide (is_Some (addresses d !! id)))
         (bool_decide (loc_id u = id)).
Proof.
  intros Hd. unfold run, allocate.
  destruct (addresses d !! loc_id u) as [a|] eqn:Hu.
  - rewrite (bool_decide_eq_true_2 (a ≠ 0)) by by eapply Hd. simpl.
    destruct (decide (loc_id u = id)) as [<-|Hne].
    + rewrite lookup_delete_eq, Hu, (bool_decide_eq_true_2 (_ = _)) by done.
      rewrite bool_decide_eq_false_2 by by intros [? ?].
      by rewrite bool_decide_eq_true_2 by eauto.
    + rewrite lookup_delete_ne, (bool_decide_eq_false_2 (_ = _)) by done.
      by rewrite xorb_false_r.
  - simpl. destruct (decide (loc_id u = id)) as [<-|Hne].
    + rewrite lookup_insert_eq, Hu, (bool_decide_eq_true_2 (_ = _)) by done.
      rewrite bool_decide_eq_true_2 by eauto.
      by rewrite bool_decide_eq_false_2 by by intros [? ?].
    + rewrite lookup_insert_ne, (bool_decide_eq_false_2 (_ = _)) by done.
      by rewrite xorb_false_r.
Qed.

Lemma replay_parity ms id : forall d,
  nonnull d ->
  bool_decide (is_Some (addresses (replay allocator d ms) !! id))
  = xorb (bool_decide (is_Some (addresses d !! id)))
         (Nat.odd (length (filter (fun u => loc_id u = id) ms))).
Proof.
  unfold replay. induction ms as [|u ms IH]; intros d Hd; simpl.
  - by rewrite xorb_false_r.
  - rewrite IH by by apply nonnull_run. rewrite run_toggle by done.
    destruct (decide (loc_id u = id)) as [Hu|Hu].
    + rewrite filter_cons_True, (bool_decide_eq_true_2 (_ = _)) by done.
      simpl length. rewrite Nat.odd_succ, <- Nat.negb_odd.
      by destruct (bool_decide _), (Nat.odd _).
    + rewrite filter_cons_False, (bool_decide_eq_false_2 (_ = _)) by done.
      by rewrite xorb_false_r.
Qed.

(** A sequence in which every object occurs an even number of times
    leaves the device as it found it. *)
Lemma replay_even ms d :
  nonnull d -> addresses d = ∅ ->
  (forall id, Nat.odd (length (filter (fun u => loc_id u = id) ms)) = false) ->
  addresses (replay allocator d ms) = ∅.
Proof.
  intros Hd Hempty Heven. apply map_empty. intros id.
  pose proof (replay_parity ms id d Hd) as H.
  rewrite Heven, Hempty, lookup_empty, xorb_false_r in H.
  apply eq_None_not_Some. intros Hs.
  apply (bool_decide_eq_true_2 _) in Hs. rewrite H in Hs.
  apply bool_decide_eq_true_1 in Hs. by destruct Hs.
Qed.

End TimedReplay.

Lemma filter_agree {A} (P Q : A -> Prop)
    `{forall x, Decision (P x)} `{forall x, Decision (Q x)} (l : list A) :
  (forall x, x ∈ l -> P x <-> Q x) -> filter P l = filter Q l.
Proof.
  induction l as [|x l IH]; intros Hl; [done|].
  rewrite !filter_cons, IH by (intros y Hy; apply Hl; by right).
  destruct (decide (P x)) as [Hp|Hp], (decide (Q x)) as [Hq|Hq]; try done;
    destruct (Hl x (list_elem_of_here _ _)); tauto.
Qed.

Lemma elem_of_pair {A} (x t : A) : x ∈ [t; t] -> x = t.
Proof.
  intros [->|Hx]%elem_of_cons; [done|].
  by apply list_elem_of_singleton in Hx.
Qed.

(** On a valid ordering every [MemLoc] occurs twice in [mem_sequence]. *)
Lemma valid_occurrences ns st id :
  valid_ordering ns -> measure_pt_alloc_time ns = Done st ->
  Nat.odd (length (filter (fun u => loc_id u = id) (mem_sequence st))) = false.
Proof.
  intros Hvo Hst.
  pose proof (kept_measure ns) as (Htidy & _ & Hown).
  pose proof (keyed_walk ns [] init keyed_init) as Hk.
  rewrite Hst in Htidy, Hown. simpl in Htidy, Hown.
  pose proof Hst as Hst'. unfold measure_pt_alloc_time in Hst'.
  rewrite Hst' in Hk. destruct Hk as [_ Hk].
  destruct (filter (fun u => loc_id u = id) (mem_sequence st)) as [|u rest]
    eqn:Hf; [done|].
  assert (u ∈ filter (fun u => loc_id u = id) (mem_sequence st)) as Hu
    by (rewrite Hf; left).
  apply list_elem_of_filter in Hu as [Hid Hu].
  assert (loc_edge u ∈ tensors ns) as He by apply (Hk (loc_edge u)), Hown, Hu.
  apply list_elem_of_filter in He as [Hpos He].
  destruct (valid_edge_history ns st (loc_edge u) Hvo Hst He Hpos)
    as (t & _ & Hte & Ht & _ & Hev).
  assert (t = u) as ->.
  { assert (u ∈ events_of (loc_edge u) (mem_sequence st)) as Hin
      by by apply list_elem_of_filter.
    rewrite Hev in Hin. symmetry. by apply elem_of_pair. }
  assert (filter (fun v => loc_id v = id) (mem_sequence st)
          = events_of (loc_edge u) (mem_sequence st)) as Heq.
  { apply filter_agree. intros v Hv. split.
    - intros Hvid.
      pose proof (tidy_ids _ Htidy v Hv) as E1.
      pose proof (tidy_ids _ Htidy u Hu) as E2.
      rewrite Hvid, <- Hid, E2 in E1. by injection E1 as ->.
    - intros Hve.
      assert (v ∈ events_of (loc_edge u) (mem_sequence st)) as Hin
        by by apply list_elem_of_filter.
      rewrite Hev in Hin. by apply elem_of_pair in Hin as ->. }
  rewrite <- Hf, Heq, Hev. done.
Qed.

(** X5. On a valid ordering, with an allocator that returns non-null
    addresses, every pass of the timed replay gives back all it
    allocated: after any number of passes no [MemLoc] holds an address,
    and the passes made [num_times * len(mem_sequence)] allocator calls
    in all. *)
Theorem timed_replay_gives_back (node_ordering : list Node) st
    (allocator : nat -> Z -> Z) (num_times : nat) :
  valid_ordering node_ordering ->
  measure_pt_alloc_time node_ordering = Done st ->
  (forall k size, allocator k size ≠ 0) ->
  let d := timed_replay allocator num_times (mem_sequence st) in
  addresses d = ∅
  ∧ length (calls d) = (num_times * length (mem_sequence st))%nat.
Proof.
  intros Hvo Hst Hnn. unfold timed_replay.
  induction num_times as [|k [IH1 IH2]]; [done|]. simpl. split.
  - apply replay_even; try done.
    + intros id a. by rewrite IH1, lookup_empty.
    + intros id. by eapply valid_occurrences.
  - rewrite calls_replay, IH2. lia.
Qed.

Lemma timed_replay_gives_back_witness :
  addresses (timed_replay (fun k _ => Z.of_nat k + 4096) 100
               (mem_sequence (final (measure_pt_alloc_time Sample.order))))
  = ∅
  ∧ length (calls (timed_replay (fun k _ => Z.of_nat k + 4096) 100
                     (mem_sequence
                        (final (measure_pt_alloc_time Sample.order)))))
    = (100 * length (mem_sequence
                       (final (measure_pt_alloc_time Sample.order))))%nat.
Proof.
  apply (timed_replay_gives_back Sample.order _ _ 100 sample_order_valid).
  - reflexivity.
  - intros. lia.
Defined.

(** *** The replay never gives back what it does not hold *)

Lemma allocs_snoc t cs c :
  allocs t (cs ++ [c]) = (allocs t cs + if is_alloc t c then 1 else 0)%nat.
Proof.
  unfold allocs. rewrite filter_app, length_app. f_equal.
  rewrite filter_cons, filter_nil. case_decide as Hc.
  - by rewrite Hc.
  - by destruct (is_alloc t c).
Qed.

Lemma deletes_snoc t cs c :
  deletes t (cs ++ [c]) = (deletes t cs + if is_delete t c then 1 else 0)%nat.
Proof.
  unfold deletes. rewrite filter_app, length_app. f_equal.
  rewrite filter_cons, filter_nil. case_decide as Hc.
  - by rewrite Hc.
  - by destruct (is_delete t c).
Qed.

Lemma holding_le d t : (holding d t <= 1)%nat.
Proof.
  unfold holding. destruct (addresses d !! loc_id t); [case_bool_decide|]; lia.
Qed.

Section Balance.
Variable allocator : nat -> Z -> Z.
Variable all : list MemLoc.
Hypothesis distinct : forall t u, t ∈ all -> u ∈ all -> loc_id t = loc_id u -> t = u.

Lemma balanced_idle : balanced all idle.
Proof. split; intros t _; reflexivity. Qed.

Lemma balanced_allocate d u :
  u ∈ all -> balanced all d -> balanced all (allocate allocator d u).
Proof.
  intros Hu [Hin Hout]. unfold allocate. split; simpl.
  - intros t Ht. rewrite allocs_snoc, deletes_snoc. simpl.
    specialize (Hin t Ht). case_bool_decide as Hut.
    + pose proof (holding_le
        {| addresses := <[loc_id u:=allocator (length (calls d)) (loc_size u)]>
                          (addresses d);
           calls := calls d ++ [caching_allocator_alloc u] |} t).
      lia.
    + replace (holding _ t) with (holding d t); [lia|].
      unfold holding. simpl. rewrite lookup_insert_ne; [done|].
      intros Hid. apply Hut. by apply distinct.
  - intros t Ht. rewrite deletes_snoc. simpl. rewrite (Hout t Ht). lia.
Qed.

Lemma balanced_run d u :
  u ∈ all -> balanced all d -> balanced all (run allocator d u).
Proof.
  intros Hu Hd. unfold run.
  destruct (addresses d !! loc_id u) as [a|] eqn:Ha;
    [case_bool_decide as Hnull|]; try by apply balanced_allocate.
  destruct Hd as [Hin Hout]. split; simpl.
  - intros t Ht. rewrite allocs_snoc, deletes_snoc. simpl.
    specialize (Hin t Ht). case_bool_decide as Hut.
    + subst t. unfold holding in *. simpl. rewrite lookup_delete_eq.
      rewrite Ha, bool_decide_eq_true_2 in Hin by done. lia.
    + replace (holding _ t) with (holding d t); [lia|].
      unfold holding. simpl. rewrite lookup_delete_ne; [done|].
      intros Hid. apply Hut. by apply distinct.
  - intros t Ht. rewrite deletes_snoc. simpl. rewrite (Hout t Ht).
    rewrite bool_decide_eq_false_2; [done|]. by intros ->.
Qed.

Lemma balanced_replay ops : forall d,
  (forall u, u ∈ ops -> u ∈ all) ->
  balanced all d -> balanced all (replay allocator d ops).
Proof.
  unfold replay. induction ops as [|u ops IH]; intros d Hops Hd; [done|].
  simpl. apply IH.
  - intros v Hv. apply Hops. by right.
  - apply balanced_run; [|done]. apply Hops. by left.
Qed.

Lemma balanced_timed_replay num_times :
  balanced all (timed_replay allocator num_times all).
Proof.
  unfold timed_replay. induction num_times as [|k IH]; simpl.
  - apply balanced_idle.
  - by apply balanced_replay.
Qed.

End Balance.

(** X6. Whatever the ordering and whatever the allocator returns (null
    addresses included), at every point of the timed replay (after any
    number of whole passes and any number of further steps) each
    [MemLoc] has been given back at most as often as it was asked for:
    the replay never frees what it does not hold. *)
Theorem replay_never_frees_unheld (node_ordering : list Node)
    (allocator : nat -> Z -> Z) (num_times k : nat) (t : MemLoc) :
  let mem_sequence := mem_sequence (final (measure_pt_alloc_time node_ordering)) in
  let d := replay allocator (timed_replay allocator num_times mem_sequence)
             (take k mem_sequence) in
  (deletes t (calls d) <= allocs t (calls d))%nat.
Proof.
  intros ms d.
  assert (balanced ms d) as [Hin Hout].
  { pose proof (kept_measure node_ordering) as (Htidy & _ & _).
    assert (forall t u, t ∈ ms -> u ∈ ms -> loc_id t = loc_id u -> t = u)
      as Hdistinct.
    { intros v u Hv Hu Hid.
      pose proof (tidy_ids _ Htidy v Hv) as E1.
      pose proof (tidy_ids _ Htidy u Hu) as E2.
      fold ms in E1, E2. rewrite Hid, E2 in E1. by injection E1. }
    apply balanced_replay; [done| |by apply balanced_timed_replay].
    intros u Hu. apply elem_of_take in Hu as (i & Hi & _).
    by eapply list_elem_of_lookup_2. }
  destruct (decide (t ∈ ms)) as [Ht|Ht].
  - specialize (Hin t Ht). lia.
  - rewrite (Hout t Ht). lia.
Qed.

End AllocMoreFacts.

(** * More properties of the harness *)

Module HarnessMoreFacts.
Import Harness HarnessMore HarnessFacts.

Lemma never_bind {A B} (m : Result A) (k : A -> Result B) :
  (forall a, ¬ returns (k a)) -> ¬ returns (m ≫= k).
Proof. intros Hk. destruct m as [a|f]; [apply Hk|by intros []]. Qed.

Lemma div_zero a b : (b == 0)%Q -> div a b = Raise ZeroDivisionError.
Proof. intros Hb. unfold div. apply Qeq_bool_iff in Hb. by rewrite Hb. Qed.

(** *** Graphs without measured times *)

Lemma model_runtime_untimed g :
  (forall n, n ∈ nodes g -> timed n = None) -> model_runtime g = 0%Q.
Proof.
  unfold model_runtime. generalize 0%Q.
  induction (nodes g) as [|n l IH]; intros acc Hl; [done|]. simpl.
  rewrite (Hl n) by left. apply IH. intros m Hm. apply Hl. by right.
Qed.

(** X7. On a graph none of whose nodes has a (non-zero) time, the model
    run time is zero and neither [run_rematerialization] nor
    [run_spilling] returns, whatever the scheduler does: the final
    division by the model run time raises if nothing raised before. *)
Theorem untimed_graph_never_planned `{Olla} (g : Graph) (memory_budget : Q) :
  (forall n, n ∈ nodes g -> timed n = None) ->
  ¬ returns (run_rematerialization g memory_budget)
  ∧ ¬ returns (run_spilling g memory_budget)
  ∧ forall extra_runtime,
      div extra_runtime (model_runtime g) = Raise ZeroDivisionError.
Proof.
  intros Hg. pose proof (model_runtime_untimed g Hg) as Hzero.
  assert (forall extra_runtime,
            div extra_runtime (model_runtime g) = Raise ZeroDivisionError)
    as Hdiv by (intros; rewrite Hzero; by apply div_zero).
  split_and!; [| |done].
  - unfold run_rematerialization. apply never_bind.
    intros [[summary schedule] mem_loc].
    repeat (apply never_bind; intros ?). rewrite Hdiv. by intros [].
  - unfold run_spilling. apply never_bind.
    intros [[summary schedule] mem_loc].
    repeat (apply never_bind; intros ?). rewrite Hdiv. by intros [].
Qed.

Lemma untimed_graph_never_planned_witness :
  let O := stub (summary_of 160 160 0 0) Sample.order 60 in
  ¬ returns (run_rematerialization unprofiled 50)
  ∧ ¬ returns (run_spilling unprofiled 50)
  ∧ forall extra_runtime,
      div extra_runtime (model_runtime unprofiled) = Raise ZeroDivisionError.
Proof.
  intros O. apply (@untimed_graph_never_planned O unprofiled 50%Q).
  intros n Hn. apply list_elem_of_singleton in Hn as ->. reflexivity.
Defined.

(** *** [run_address_generation] with nothing to place *)

(** X8. When the scheduler reports a required memory of zero,
    [run_address_generation] raises [ZeroDivisionError] at the
    fragmentation ratio, before any of its assertions is looked at: an
    invalid schedule or allocation goes unreported. *)
Theorem address_generation_zero_required `{Olla} (g : Graph)
    (node_order : list Node) summary schedule mem_loc required peak :
  ComputeOptimalSchedule g
    {| rel_stop := Some (1 # 1000)%Q; timeout_s := Some 1800;
       print_relaxation := Some true |}
    (address_generation_args node_order)
  = Returns (summary, schedule, mem_loc) ->
  summary !! "required_memory" = Some required ->
  summary !! "peak_mem_usage" = Some peak ->
  (required == 0)%Q ->
  run_address_generation g node_order = Raise ZeroDivisionError.
Proof.
  intros E Hr Hp Hz. unfold run_address_generation. rewrite E. simpl.
  unfold get. rewrite Hr, Hp. simpl. by rewrite div_zero.
Qed.

Lemma address_generation_zero_required_witness :
  let O := stub (summary_of 0 0 0 0) [Sample.n1; Sample.n0] 0 in
  validate_timeline [Sample.n1; Sample.n0] = false
  ∧ run_address_generation sample_graph Sample.order = Raise ZeroDivisionError.
Proof.
  intros O. split; [reflexivity|].
  apply (@address_generation_zero_required O sample_graph Sample.order
           (summary_of 0 0 0 0) [Sample.n1; Sample.n0] tt 0%Q 0%Q);
    reflexivity.
Defined.

(** *** The budget sweeps, level by level *)

Lemma Qlt_bool_true a b : Qlt_bool a b = true <-> (a < b)%Q.
Proof.
  unfold Qlt_bool. rewrite negb_true_iff. split.
  - intros E. apply Qnot_le_lt. intros Hle. apply Qle_bool_iff in Hle.
    congruence.
  - intros Hlt. destruct (Qle_bool b a) eqn:E; [|done].
    apply Qle_bool_iff in E. by apply Qle_not_lt in E.
Qed.

(** X9. Every assignment of an overhead to [result] that a sweep makes
    follows the call of its savings level: at a level whose budget
    [peak_mem_usage * (1 - savings)] is not below the floor, the call got
    that budget and the overhead is stored under the level's savings; at
    a level whose budget is below the floor, the call got [min_memory]
    and the overhead is stored under [1 - min_memory / peak_mem_usage].
    In both cases the overhead stored is the one the call returned. *)
Theorem logged_savings_match_budgets (run : Q -> Result Q)
    (peak_mem_usage min_memory : Q) (levels : list Q) i savings overhead :
  logged (budget_sweep run peak_mem_usage min_memory levels) !! i
  = Some (savings, overhead) ->
  exists level,
    levels !! i = Some level
    ∧ if Qlt_bool (peak_mem_usage * (1 - level))%Q min_memory then
        savings = (1 - min_memory / peak_mem_usage)%Q
        ∧ requested (budget_sweep run peak_mem_usage min_memory levels) !! i
          = Some min_memory
        ∧ run min_memory = Ok overhead
      else
        savings = level
        ∧ requested (budget_sweep run peak_mem_usage min_memory levels) !! i
          = Some (peak_mem_usage * (1 - level))%Q
        ∧ run (peak_mem_usage * (1 - level))%Q = Ok overhead.
Proof.
  revert i. induction levels as [|s rest IH]; intros i; simpl; [by destruct i|].
  destruct (Qlt_bool (peak_mem_usage * (1 - s))%Q min_memory) eqn:Hclamp.
  - destruct (div min_memory peak_mem_usage) as [ratio|f] eqn:Hdiv; simpl;
      [|by destruct i].
    destruct (run min_memory) as [o|f] eqn:Hrun; simpl; [|by destruct i].
    destruct i as [|i]; simpl; [|by destruct i].
    intros [= <- <-]. exists s. split; [done|]. rewrite Hclamp.
    apply div_Ok in Hdiv as [_ ->]. done.
  - destruct (run (peak_mem_usage * (1 - s))%Q) as [o|f] eqn:Hrun; simpl;
      [|by destruct i].
    destruct i as [|i]; simpl.
    + intros [= <- <-]. exists s. split; [done|]. by rewrite Hclamp.
    + apply IH.
Qed.

(** With a peak of 100 and a floor of 60, the third level (savings 1/2)
    asks for 50, which is clamped: the call gets 60 and the overhead is
    stored under [1 - 60 / 100]. *)
Lemma logged_savings_match_budgets_witness :
  exists level,
    savings_levels !! 2%nat = Some level
    ∧ if Qlt_bool (100 * (1 - level))%Q 60 then
        (1 - 60 / 100)%Q = (1 - 60 / 100)%Q
        ∧ requested (budget_sweep accept 100 60 savings_levels) !! 2%nat
          = Some 60%Q
        ∧ accept 60 = Ok 0%Q
      else
        (1 - 60 / 100)%Q = level
        ∧ requested (budget_sweep accept 100 60 savings_levels) !! 2%nat
          = Some (100 * (1 - level))%Q
        ∧ accept (100 * (1 - level))%Q = Ok 0%Q.
Proof.
  apply (logged_savings_match_budgets accept 100 60 savings_levels 2
           (1 - 60 / 100)%Q 0%Q).
  reflexivity.
Defined.

(** A sweep that meets a level to clamp and does not fail ends with the
    call at the floor. *)
Lemma sweep_ends_clamped run peak_mem_usage min_memory levels :
  failure (budget_sweep run peak_mem_usage min_memory levels) = None ->
  (exists s, s ∈ levels
             ∧ Qlt_bool (peak_mem_usage * (1 - s))%Q min_memory = true) ->
  last (requested (budget_sweep run peak_mem_usage min_memory levels))
  = Some min_memory
  ∧ exists overhead,
      last (logged (budget_sweep run peak_mem_usage min_memory levels))
      = Some ((1 - min_memory / peak_mem_usage)%Q, overhead).
Proof.
  induction levels as [|s rest IH]; simpl.
  - intros _ (s & Hs & _). by apply elem_of_nil in Hs.
  - intros Hf (s' & Hs' & Hclamp').
    destruct (Qlt_bool (peak_mem_usage * (1 - s))%Q min_memory) eqn:Hclamp.
    + unfold div in *. destruct (Qeq_bool peak_mem_usage 0); [done|].
      destruct (run min_memory) as [o|f]; [|done]. simpl. eauto.
    + destruct (run (peak_mem_usage * (1 - s))%Q) as [o|f]; [|done].
      simpl in *.
      apply elem_of_cons in Hs' as [->|Hs']; [congruence|].
      destruct (IH Hf) as (Hreq & o' & Hlog); [eauto|].
      split.
      * destruct (requested _) as [|b bs]; [done|]. by rewrite last_cons, Hreq.
      * exists o'. destruct (logged _) as [|b bs]; [done|].
        by rewrite last_cons, Hlog.
Qed.

(** X11. With a positive floor, a sweep over the five savings levels
    that does not fail always ends by planning at the floor itself (the
    last level asks for a budget of zero, which is clamped), and the
    last savings it logs are [1 - min_memory / peak_mem_usage]. *)
Theorem sweep_ends_at_floor (run : Q -> Result Q)
    (peak_mem_usage min_memory : Q) :
  (0 < min_memory)%Q ->
  failure (budget_sweep run peak_mem_usage min_memory savings_levels) = None ->
  last (requested (budget_sweep run peak_mem_usage min_memory savings_levels))
  = Some min_memory
  ∧ exists overhead,
      last (logged (budget_sweep run peak_mem_usage min_memory savings_levels))
      = Some ((1 - min_memory / peak_mem_usage)%Q, overhead).
Proof.
  intros Hmin Hf. apply sweep_ends_clamped; [done|].
  exists 1%Q. split; [unfold savings_levels; set_solver|].
  apply Qlt_bool_true.
  assert (peak_mem_usage * (1 - 1) == 0)%Q as -> by ring. done.
Qed.

Lemma sweep_ends_at_floor_witness :
  last (requested (budget_sweep accept 100 60 savings_levels)) = Some 60%Q
  ∧ exists overhead,
      last (logged (budget_sweep accept 100 60 savings_levels))
      = Some ((1 - 60 / 100)%Q, overhead).
Proof.
  apply (sweep_ends_at_floor accept 100 60); reflexivity.
Defined.

(** The clamped budget goes down as the savings go up. *)
Lemma clamp_antitone peak_mem_usage min_memory s1 s2 :
  (0 <= peak_mem_usage)%Q -> (s1 <= s2)%Q ->
  (clamp peak_mem_usage min_memory s2 <= clamp peak_mem_usage min_memory s1)%Q.
Proof.
  intros Hpeak Hs.
  assert (peak_mem_usage * (1 - s2) <= peak_mem_usage * (1 - s1))%Q as Hb.
  { rewrite !(Qmult_comm peak_mem_usage). apply Qmult_le_compat_r; [|done].
    apply Qplus_le_r. by apply Qopp_le_compat. }
  unfold clamp.
  destruct (Qlt_bool (peak_mem_usage * (1 - s2))%Q min_memory) eqn:E2,
           (Qlt_bool (peak_mem_usage * (1 - s1))%Q min_memory) eqn:E1.
  - apply Qle_refl.
  - by apply Qlt_bool_false.
  - apply Qlt_bool_true in E1. apply Qlt_bool_false in E2.
    eapply Qle_trans; [exact Hb|]. by apply Qlt_le_weak.
  - done.
Qed.

Lemma savings_levels_sorted i j s1 s2 :
  (i <= j)%nat -> savings_levels !! i = Some s1 ->
  savings_levels !! j = Some s2 -> (s1 <= s2)%Q.
Proof.
  intros Hij H1 H2. unfold savings_levels in *.
  do 5 (destruct i as [|i]; [injection H1 as <-;
        do 5 (destruct j as [|j]; [injection H2 as <-; (done || lia)|]);
        by destruct j|]).
  by destruct i.
Qed.

(** X12. With a non-negative peak the budgets a sweep requests never go
    up from one call to a later one. *)
Theorem sweep_budgets_non_increasing (run : Q -> Result Q)
    (peak_mem_usage min_memory : Q) :
  (0 <= peak_mem_usage)%Q ->
  non_increasing
    (requested (budget_sweep run peak_mem_usage min_memory savings_levels)).
Proof.
  intros Hpeak i j b1 b2 Hij H1 H2.
  destruct (budget_sweep_respects_floor run peak_mem_usage min_memory
              savings_levels) as (_ & Hreq & _).
  rewrite Hreq in H1, H2.
  apply lookup_take_Some in H1 as [H1 _]. apply lookup_take_Some in H2 as [H2 _].
  rewrite list_lookup_fmap in H1, H2.
  destruct (savings_levels !! i) as [s1|] eqn:E1; [|done].
  destruct (savings_levels !! j) as [s2|] eqn:E2; [|done].
  injection H1 as <-. injection H2 as <-.
  apply clamp_antitone; [done|]. by eapply savings_levels_sorted.
Qed.

Lemma sweep_budgets_non_increasing_witness :
  non_increasing (requested (budget_sweep accept 100 60 savings_levels)).
Proof. apply (sweep_budgets_non_increasing accept 100 60). done. Defined.

(** X13. When node ordering reported a peak of zero and the floor is
    positive, neither sweep plans anything: the first level is clamped
    and the recomputed savings divide by the peak. *)
Theorem zero_peak_sweeps_divide_by_zero `{Olla} (graph : Graph)
    (node_ordering : list Node) (peak_mem_usage : Q) :
  (peak_mem_usage == 0)%Q ->
  (forall min_memory,
     ComputeMinimumMemoryRequired graph default_params = Returns min_memory ->
     (0 < min_memory)%Q ->
     rematerialization_sweep graph peak_mem_usage
     = mkSweep [] [] (Some ZeroDivisionError))
  ∧ (forall graph' min_memory,
       constrain_relative_ordering graph node_ordering true = Returns graph' ->
       ComputeMinimumMemoryRequired graph' default_params = Returns min_memory ->
       (0 < min_memory)%Q ->
       spilling_sweep graph node_ordering peak_mem_usage
       = mkSweep [] [] (Some ZeroDivisionError)).
Proof.
  intros Hpeak.
  assert (forall run min_memory, (0 < min_memory)%Q ->
            budget_sweep run peak_mem_usage min_memory savings_levels
            = mkSweep [] [] (Some ZeroDivisionError)) as Hsweep.
  { intros run min_memory Hmin. simpl.
    assert (Qlt_bool (peak_mem_usage * (1 - (1 # 10)))%Q min_memory = true)
      as ->.
    { apply Qlt_bool_true. rewrite Hpeak.
      assert (0 * (1 - (1 # 10)) == 0)%Q as -> by ring. done. }
    by rewrite div_zero. }
  split.
  - intros min_memory E Hmin. unfold rematerialization_sweep. rewrite E.
    cbn [call]. by apply Hsweep.
  - intros graph' min_memory E1 E2 Hmin. unfold spilling_sweep.
    rewrite E1. cbn [call]. rewrite E2. cbn [call]. by apply Hsweep.
Qed.

Lemma zero_peak_sweeps_divide_by_zero_witness :
  let O := stub (summary_of 0 0 0 0) Sample.order 60 in
  rematerialization_sweep sample_graph 0 = mkSweep [] [] (Some ZeroDivisionError)
  ∧ spilling_sweep sample_graph Sample.order 0
    = mkSweep [] [] (Some ZeroDivisionError).
Proof.
  intros O.
  destruct (@zero_peak_sweeps_divide_by_zero O sample_graph Sample.order 0%Q)
    as [Hremat Hspill]; [reflexivity|].
  split.
  - apply (Hremat 60%Q); reflexivity.
  - apply (Hspill sample_graph 60%Q); reflexivity.
Defined.

(** *** What [run_node_ordering] and [run_rematerialization] let through *)

(** X20. Whatever the scheduler is, [run_node_ordering] returns exactly
    when the scheduler returns, both validators accept the schedule, and
    the summary has [peak_mem_usage == required_memory] and
    [total_data_swapped == 0]; what it returns is then the summary's
    [peak_mem_usage], equal to [required_memory], and the ordering
    extracted from that schedule. *)
Theorem node_ordering_returns_iff `{Olla} (g : Graph) (peak : Q)
    (node_ordering : list Node) :
  run_node_ordering g = Ok (peak, node_ordering)
  <-> exists summary schedule mem_loc required swapped,
        ComputeOptimalSchedule g
          {| rel_stop := Some (5 # 1000)%Q; timeout_s := Some 1800;
             print_relaxation := None |}
          node_ordering_args
        = Returns (summary, schedule, mem_loc)
        ∧ validate_timeline schedule = true
        ∧ validate_node_ordering g schedule = true
        ∧ summary !! "peak_mem_usage" = Some peak
        ∧ summary !! "required_memory" = Some required
        ∧ (peak == required)%Q
        ∧ summary !! "total_data_swapped" = Some swapped
        ∧ (swapped == 0)%Q
        ∧ node_ordering = extract_node_ordering g schedule.
Proof.
  split.
  - unfold run_node_ordering. intros E. succeeded E. returned.
    injection E as <- <-.
    match goal with
    | H1 : Qeq_bool ?p ?r = true, H2 : Qeq_bool ?s 0 = true |- _ =>
        apply Qeq_bool_iff in H1; apply Qeq_bool_iff in H2
    end.
    eexists _, _, _, _, _. split_and!; try done. congruence.
  - intros (summary & schedule & mem_loc & required & swapped
            & E & Htl & Hno & Hp & Hr & Heq & Hs & Hz & ->).
    unfold run_node_ordering. rewrite E. simpl. rewrite Htl, Hno. simpl.
    unfold get. rewrite Hp, Hr, Hs. simpl.
    apply Qeq_bool_iff in Heq, Hz. rewrite Heq, Hz. done.
Qed.

(** X21. The overhead [run_rematerialization] returns is the summary's
    [rematerialization_time] divided by the model run time, the sum of
    the [time] attribute over the nodes with a non-zero time, which is
    then not zero; and it returns only for a summary with
    [peak_mem_usage == required_memory] and [total_data_swapped == 0],
    obtained with the budget as [mem_limit]. *)
Theorem rematerialization_overhead `{Olla} (g : Graph)
    (memory_budget overhead : Q) :
  run_rematerialization g memory_budget = Ok overhead ->
  exists params summary schedule mem_loc extra_runtime peak required swapped,
    ComputeOptimalSchedule g params (rematerialization_args memory_budget)
    = Returns (summary, schedule, mem_loc)
    ∧ mem_limit (rematerialization_args memory_budget) = Some memory_budget
    ∧ summary !! "rematerialization_time" = Some extra_runtime
    ∧ summary !! "peak_mem_usage" = Some peak
    ∧ summary !! "required_memory" = Some required
    ∧ (peak == required)%Q
    ∧ summary !! "total_data_swapped" = Some swapped
    ∧ (swapped == 0)%Q
    ∧ ¬ (total_time g == 0)%Q
    ∧ (overhead == extra_runtime / total_time g)%Q.
Proof.
  unfold run_rematerialization. intros E. succeeded E. returned.
  apply div_Ok in E as [Hnz ->].
  match goal with
  | H1 : Qeq_bool ?p ?r = true, H2 : Qeq_bool ?s 0 = true |- _ =>
      apply Qeq_bool_iff in H1; apply Qeq_bool_iff in H2
  end.
  eexists _, _, _, _, _, _, _, _. split_and!; try done.
  - by rewrite <- model_runtime_total.
  - by rewrite <- model_runtime_total.
Qed.

(** With 1 ms of recomputation on the sample graph, whose model run time
    is 4 ms, the overhead is 1/4. *)
Lemma rematerialization_overhead_witness :
  let O := stub (summary_of 100 100 0 (1 # 1000)) Sample.order 0 in
  (exists overhead,
     run_rematerialization sample_graph 100 = Ok overhead
     ∧ (overhead == 1 # 4)%Q)
  ∧ exists params summary schedule mem_loc extra_runtime peak required swapped,
      ComputeOptimalSchedule sample_graph params (rematerialization_args 100)
      = Returns (summary, schedule, mem_loc)
      ∧ mem_limit (rematerialization_args 100) = Some 100%Q
      ∧ summary !! "rematerialization_time" = Some extra_runtime
      ∧ summary !! "peak_mem_usage" = Some peak
      ∧ summary !! "required_memory" = Some required
      ∧ (peak == required)%Q
      ∧ summary !! "total_data_swapped" = Some swapped
      ∧ (swapped == 0)%Q
      ∧ ¬ (total_time sample_graph == 0)%Q
      ∧ ((1 # 1000) / model_runtime sample_graph
         == extra_runtime / total_time sample_graph)%Q.
Proof.
  intros O.
  assert (run_rematerialization sample_graph 100
          = Ok ((1 # 1000) / model_runtime sample_graph)%Q) as E
    by (vm_compute; reflexivity).
  split.
  - eexists. split; [exact E|]. reflexivity.
  - exact (@rematerialization_overhead O sample_graph 100%Q _ E).
Defined.

End HarnessMoreFacts.

(** * Properties of the main loop *)

Module MainFacts.
Import Harness Main HarnessFacts.

Lemma post_next s k (go go' continue : Vars -> Row -> Prop)
    (crash : Exception -> Prop) :
  post s go' continue crash ->
  (forall vars result, go' vars result -> post (k vars result) go continue crash) ->
  post (next s k) go continue crash.
Proof. destruct s; simpl; eauto. Qed.

Lemma post_weaken s (go go' continue continue' : Vars -> Row -> Prop)
    (crash crash' : Exception -> Prop) :
  post s go continue crash ->
  (forall vars result, go vars result -> go' vars result) ->
  (forall vars result, continue vars result -> continue' vars result) ->
  (forall e, crash e -> crash' e) ->
  post s go' continue' crash'.
Proof. destruct s; simpl; eauto. Qed.

Lemma clean_app result cells :
  clean result -> clean cells -> clean (result ++ cells).
Proof.
  intros H1 H2 key name [Hin|Hin]%elem_of_app; [by eapply H1|by eapply H2].
Qed.

Lemma clean_nil : clean [].
Proof. intros key name Hin. by apply elem_of_nil in Hin. Qed.

Lemma clean_cons key cell cells :
  (forall name, cell ≠ Message (NameError name)) -> clean cells ->
  clean ((key, cell) :: cells).
Proof.
  intros Hcell Hcells key' name [Heq|Hin]%elem_of_cons.
  - injection Heq as _ Heq. by eapply Hcell.
  - by eapply Hcells.
Qed.

Lemma clean_overheads sweep logged : clean (overheads sweep logged).
Proof.
  intros key name Hin. unfold overheads in Hin.
  apply list_elem_of_fmap in Hin as ([s o] & Heq & _). discriminate Heq.
Qed.

(** *** The sweeps *)

Lemma savings_after_bound run peak min_memory levels savings :
  is_Some savings ∨ levels ≠ [] ->
  is_Some (savings_after run peak min_memory levels savings).
Proof.
  revert savings. induction levels as [|level rest IH]; intros savings Hs.
  - simpl. by destruct Hs.
  - simpl. repeat case_match; eauto.
Qed.

Lemma handler_post sweep e vars result :
  post (handler sweep e vars result)
    (fun vars' result' =>
       vars' = vars
       ∧ exists s, savings vars = Some s
                   ∧ result' = result ++ [(Level sweep s "error", Message e)])
    (fun _ _ => False)
    (fun x => x = NameError "savings" ∧ savings vars = None).
Proof. unfold handler. destruct (savings vars); simpl; eauto. Qed.

(** With [peak_mem_usage] assigned, the loop of a sweep and its [except]
    block always fall through, with [savings] assigned. *)
Lemma levels_loop_post sweep run min_memory vars result peak :
  peak_mem_usage vars = Some peak ->
  post (levels_loop sweep run min_memory vars result)
    (fun vars' result' =>
       simulated_mem_usage vars' = simulated_mem_usage vars
       ∧ peak_mem_usage vars' = peak_mem_usage vars
       ∧ node_ordering vars' = node_ordering vars
       ∧ exists s,
           savings vars' = Some s
           ∧ let r := budget_sweep run peak min_memory savings_levels in
             result'
             = result ++ overheads sweep (logged r)
                 ++ match failure r with
                    | None => []
                    | Some f => [(Level sweep s "error", Message (Failed f))]
                    end)
    (fun _ _ => False)
    (fun _ => False).
Proof.
  intros Hpeak. unfold levels_loop. rewrite Hpeak.
  destruct (savings_after_bound run peak min_memory savings_levels
              (savings vars)) as [s Hs]; [by right|].
  destruct (failure (budget_sweep run peak min_memory savings_levels))
    as [f|] eqn:Hf.
  - unfold handler. cbn [with_savings Main.savings]. rewrite Hs.
    cbn [post]. split_and!; try done. exists s. split; [done|].
    cbv zeta. by rewrite <- app_assoc.
  - cbn [post with_savings Main.savings simulated_mem_usage peak_mem_usage
             node_ordering].
    split_and!; try done. exists s. split; [done|].
    cbv zeta. by rewrite app_nil_r.
Qed.

(** An ordering that writes no edge of positive size has nothing to
    replay. *)
Lemma no_tensors_no_pairs (node_ordering : list Node) st (num_times : nat) :
  Alloc.measure_pt_alloc_time node_ordering = Alloc.Done st ->
  (forall n e, n ∈ node_ordering -> e ∈ fanout n -> esize e <= 0) ->
  Alloc.num_alloc_dealloc_pairs num_times st = (inject_Z 0 / 2)%Q.
Proof.
  intros Hst Hnone.
  pose proof (AllocMoreFacts.kept_measure node_ordering) as (_ & _ & Hown).
  pose proof (AllocMoreFacts.keyed_walk node_ordering [] Alloc.init
                AllocMoreFacts.keyed_init) as Hk.
  rewrite Hst in Hown. unfold Alloc.measure_pt_alloc_time in Hst.
  rewrite Hst in Hk. destruct Hk as [_ Hk]. simpl in Hown, Hk.
  assert (Alloc.mem_sequence st = []) as Hempty.
  { destruct (Alloc.mem_sequence st) as [|t l] eqn:Hms; [done|].
    assert (Alloc.loc_edge t ∈ AllocMore.tensors node_ordering) as Hin.
    { apply (Hk (Alloc.loc_edge t)), Hown. rewrite Hms. left. }
    apply list_elem_of_filter in Hin as [Hpos Hin].
    apply list_elem_of_bind in Hin as (n & He & Hn).
    specialize (Hnone n _ Hn He). lia. }
  unfold Alloc.num_alloc_dealloc_pairs. rewrite Hempty. simpl.
  by rewrite Z.mul_0_r.
Qed.

Lemma handler_sweep_go sweep e vars result :
  (is_Some (peak_mem_usage vars) -> is_Some (node_ordering vars) ->
   forall name, e ≠ NameError name) ->
  post (handler sweep e vars result)
    (sweep_go vars result)
    (fun _ _ => False)
    (fun x => x = NameError "savings" ∧ savings vars = None).
Proof.
  intros He. eapply post_weaken; [apply handler_post|..]; try done.
  cbv beta. intros vars' result' (-> & s & Hs & ->).
  unfold sweep_go. split_and!; try done. eexists. split; [done|].
  intros Hp Ho. apply clean_cons; [|apply clean_nil].
  intros name [= ->]. by eapply He.
Qed.

(** The loop of a sweep never ends the pass and never ends the
    program. *)
Lemma levels_loop_sweep_go sweep run min_memory vars result :
  post (levels_loop sweep run min_memory vars result)
    (sweep_go vars result)
    (fun _ _ => False)
    (fun _ => False).
Proof.
  destruct (peak_mem_usage vars) as [peak|] eqn:Hpeak.
  - eapply post_weaken; [by apply levels_loop_post|..]; try done.
    cbv beta zeta. intros vars' result' (H1 & H2 & H3 & s & Hs & ->).
    unfold sweep_go. split_and!; try done;
      try (intros _; rewrite Hs; by eauto).
    eexists. split; [done|]. intros _ _. apply clean_app.
    + apply clean_overheads.
    + destruct (failure _); [|apply clean_nil].
      apply clean_cons; [done|]. apply clean_nil.
  - unfold levels_loop. rewrite Hpeak.
    eapply post_weaken; [apply handler_post|..]; try done.
    + cbv beta. intros vars' result' (-> & s & Hs & ->).
      unfold sweep_go. cbn [with_savings simulated_mem_usage peak_mem_usage
                            node_ordering Main.savings].
      split_and!; try done; try (by eauto). eexists. split; [done|].
      rewrite Hpeak. by intros [? ?].
    + intros e [_ Hnone]. discriminate Hnone.
Qed.

Section BodyFacts.
Context `{Olla}.
Variable Simulate : Graph -> list Node -> Call Q.
Variable empty_cache : Call unit.
Variable time_replay : list Alloc.MemLoc -> Call Q.
Variable flags : args.Namespace.

(** *** The parts of the body, one by one *)

Lemma simulation_post graph pt_node_order vars result :
  post (simulation Simulate flags graph pt_node_order vars result)
    (fun vars' result' =>
       peak_mem_usage vars' = peak_mem_usage vars
       ∧ node_ordering vars' = node_ordering vars
       ∧ savings vars' = savings vars
       ∧ if args.skip_simulation flags then vars' = vars ∧ result' = result
         else exists simulated,
                Simulate graph pt_node_order = Returns simulated
                ∧ simulated_mem_usage vars' = Some simulated
                ∧ result'
                  = result ++ [(Column "simulated_mem_usage", Number simulated)])
    (fun _ _ => False)
    (fun e => args.skip_simulation flags = false
              ∧ exists what, Simulate graph pt_node_order = Throws what
                             ∧ e = Failed (Raised what)).
Proof.
  unfold simulation. destruct (args.skip_simulation flags); [done|].
  destruct (Simulate graph pt_node_order) as [simulated|what]; simpl; eauto 10.
Qed.

Lemma profile_post pt_node_order vars result :
  post (profile empty_cache time_replay flags pt_node_order vars result)
    (fun vars' result' =>
       vars' = vars
       ∧ if args.profile_alloc_time flags then
           exists st runtime,
             Alloc.measure_pt_alloc_time pt_node_order = Alloc.Done st
             ∧ time_replay (Alloc.mem_sequence st) = Returns runtime
             ∧ ¬ (Alloc.num_alloc_dealloc_pairs 100 st == 0)%Q
             ∧ result'
               = result
                 ++ [(Column "profile.alloc_runtime", Number runtime);
                     (Column "profile.alloc_count",
                      Number (Alloc.num_alloc_dealloc_pairs 100 st))]
         else result' = result)
    (fun _ _ => False)
    (fun e => args.profile_alloc_time flags = true
              ∧ forall name, e ≠ NameError name).
Proof.
  unfold profile. destruct (args.profile_alloc_time flags); [|done].
  destruct empty_cache as [[]|what]; [|done].
  destruct (Alloc.measure_pt_alloc_time pt_node_order) as [st|st] eqn:Hst;
    [|done].
  destruct (time_replay (Alloc.mem_sequence st)) as [runtime|what] eqn:Hrun;
    [|done].
  destruct (div _ _) as [q|f] eqn:Hdiv; [|done].
  apply div_Ok in Hdiv as [Hnz _]. simpl. split; [done|].
  exists st, runtime. by split_and!.
Qed.

Lemma node_ordering_post graph vars result :
  post (node_ordering_phase flags graph vars result)
    (fun vars' result' =>
       simulated_mem_usage vars' = simulated_mem_usage vars
       ∧ savings vars' = savings vars
       ∧ if args.skip_node_ordering flags then vars' = vars ∧ result' = result
         else args.skip_simulation flags = false
              ∧ exists peak order simulated,
                  run_node_ordering graph = Ok (peak, order)
                  ∧ peak_mem_usage vars' = Some peak
                  ∧ node_ordering vars' = Some order
                  ∧ simulated_mem_usage vars = Some simulated
                  ∧ ¬ (simulated == 0)%Q
                  ∧ result'
                    = result
                      ++ [(Column "node_ordering.peak_mem_usage", Number peak)])
    (fun vars' result' =>
       args.skip_node_ordering flags = false
       ∧ args.skip_simulation flags = false
       ∧ simulated_mem_usage vars' = simulated_mem_usage vars
       ∧ savings vars' = savings vars
       ∧ exists e,
           result' = result ++ [(Column "node_ordering.error", Message e)]
           ∧ ((exists f, run_node_ordering graph = Raise f ∧ e = Failed f
                         ∧ vars' = vars)
              ∨ exists peak order,
                  run_node_ordering graph = Ok (peak, order)
                  ∧ peak_mem_usage vars' = Some peak
                  ∧ node_ordering vars' = Some order
                  ∧ ((simulated_mem_usage vars = None
                      ∧ e = NameError "simulated_mem_usage")
                     ∨ exists simulated,
                         simulated_mem_usage vars = Some simulated
                         ∧ (simulated == 0)%Q
                         ∧ e = Failed ZeroDivisionError)))
    (fun e => args.skip_node_ordering flags = false
              ∧ args.skip_simulation flags = true
              ∧ e = Failed (AssertionError 541)).
Proof.
  unfold node_ordering_phase. destruct (args.skip_node_ordering flags); [done|].
  destruct (args.skip_simulation flags); [done|].
  destruct (run_node_ordering graph) as [[peak order]|f]; simpl.
  - destruct (simulated_mem_usage vars) as [simulated|] eqn:Hsim; simpl.
    + destruct (div _ _) as [q|f] eqn:Hdiv; simpl.
      * apply div_Ok in Hdiv as [Hnz _]. split_and!; try done. eauto 12.
      * unfold div in Hdiv. destruct (Qeq_bool simulated 0) eqn:Hz; [|done].
        injection Hdiv as <-. apply Qeq_bool_iff in Hz.
        split_and!; try done. eexists. split; [done|]. right.
        exists peak, order. split_and!; try done. right. eauto.
    + split_and!; try done. eexists. split; [done|]. right.
      exists peak, order. split_and!; try done. by left.
  - split_and!; try done. eexists. split; [done|]. left. eauto.
Qed.

Lemma address_generation_post graph vars result :
  post (address_generation_phase flags graph vars result)
    (fun vars' result' =>
       simulated_mem_usage vars' = simulated_mem_usage vars
       ∧ node_ordering vars' = node_ordering vars
       ∧ savings vars' = savings vars
       ∧ (is_Some (peak_mem_usage vars) -> is_Some (peak_mem_usage vars'))
       ∧ if args.generate_addresses flags then
           args.skip_simulation flags = false
           ∧ args.skip_node_ordering flags = false
           ∧ exists cells, result' = result ++ cells
                           ∧ (is_Some (node_ordering vars) -> clean cells)
         else vars' = vars ∧ result' = result)
    (fun _ _ => False)
    (fun e => args.generate_addresses flags = true
              ∧ ((args.skip_simulation flags = true
                  ∧ e = Failed (AssertionError 560))
                 ∨ (args.skip_simulation flags = false
                    ∧ args.skip_node_ordering flags = true
                    ∧ e = Failed (AssertionError 563)))).
Proof.
  unfold address_generation_phase.
  destruct (args.generate_addresses flags); [|done].
  destruct (args.skip_simulation flags); [simpl; eauto|].
  destruct (args.skip_node_ordering flags); [simpl; eauto 6|].
  destruct (node_ordering vars) as [order|] eqn:Horder; simpl.
  - destruct (run_address_generation graph order) as [[peak frag]|f]; simpl.
    + split_and!; try done; try (by eauto). eexists. split; [done|]. intros _.
      apply clean_cons; [done|]. apply clean_cons; [done|]. apply clean_nil.
    + split_and!; try done. eexists. split; [done|]. intros _.
      apply clean_cons; [done|]. apply clean_nil.
  - split_and!; try done. eexists. split; [done|]. by intros [? ?].
Qed.

Lemma rematerialization_post graph vars result :
  post (rematerialization_phase flags graph vars result)
    (fun vars' result' =>
       if args.rematerialization flags then
         args.skip_simulation flags = false
         ∧ args.skip_node_ordering flags = false
         ∧ sweep_go vars result vars' result'
       else vars' = vars ∧ result' = result)
    (fun _ _ => False)
    (fun e => args.rematerialization flags = true
              ∧ ((args.skip_simulation flags = true
                  ∧ e = Failed (AssertionError 585))
                 ∨ (args.skip_simulation flags = false
                    ∧ args.skip_node_ordering flags = true
                    ∧ e = Failed (AssertionError 588))
                 ∨ (args.skip_simulation flags = false
                    ∧ args.skip_node_ordering flags = false
                    ∧ e = NameError "savings"
                    ∧ savings vars = None))).
Proof.
  unfold rematerialization_phase.
  destruct (args.rematerialization flags); [|done].
  destruct (args.skip_simulation flags); [simpl; eauto|].
  destruct (args.skip_node_ordering flags); [simpl; eauto 6|].
  destruct (call _) as [min_memory|f].
  - eapply post_weaken; [apply levels_loop_sweep_go|..]; done.
  - eapply post_weaken; [by apply handler_sweep_go|..]; try done.
    intros e [-> Hs]. split; [done|]. right. right. by split_and!.
Qed.

Lemma spilling_post graph vars result :
  post (spilling_phase flags graph vars result)
    (fun vars' result' =>
       if args.spilling flags then
         args.skip_simulation flags = false
         ∧ args.skip_node_ordering flags = false
         ∧ sweep_go vars result vars' result'
       else vars' = vars ∧ result' = result)
    (fun _ _ => False)
    (fun e => args.spilling flags = true
              ∧ ((args.skip_simulation flags = true
                  ∧ e = Failed (AssertionError 627))
                 ∨ (args.skip_simulation flags = false
                    ∧ args.skip_node_ordering flags = true
                    ∧ e = Failed (AssertionError 630))
                 ∨ (args.skip_simulation flags = false
                    ∧ args.skip_node_ordering flags = false
                    ∧ e = NameError "savings"
                    ∧ savings vars = None))).
Proof.
  unfold spilling_phase.
  destruct (args.spilling flags); [|done].
  destruct (args.skip_simulation flags); [simpl; eauto|].
  destruct (args.skip_node_ordering flags); [simpl; eauto 6|].
  assert (forall e,
            (is_Some (node_ordering vars) -> forall name, e ≠ NameError name) ->
            post (handler "spilling" e vars result)
              (fun vars' result' =>
                 false = false ∧ false = false
                 ∧ sweep_go vars result vars' result')
              (fun _ _ => False)
              (fun e => true = true
                 ∧ ((false = true ∧ e = Failed (AssertionError 627))
                    ∨ (false = false ∧ false = true
                       ∧ e = Failed (AssertionError 630))
                    ∨ (false = false ∧ false = false
                       ∧ e = NameError "savings" ∧ savings vars = None))))
    as Hhandler.
  { intros e He.
    eapply post_weaken; [apply handler_sweep_go; eauto|..]; try done.
    intros e' [-> Hs]. split; [done|]. right. right. by split_and!. }
  destruct (node_ordering vars) as [order|] eqn:Horder.
  - destruct (call (constrain_relative_ordering graph order true))
      as [graph'|f]; [|by apply Hhandler].
    destruct (call (ComputeMinimumMemoryRequired graph' default_params))
      as [min_memory|f]; [|by apply Hhandler].
    eapply post_weaken; [apply levels_loop_sweep_go|..]; done.
  - apply Hhandler. by intros [? ?].
Qed.

Lemma post_next' s k (go go' continue continue' : Vars -> Row -> Prop)
    (crash crash' : Exception -> Prop) :
  post s go' continue' crash' ->
  (forall vars result, continue' vars result -> continue vars result) ->
  (forall e, crash' e -> crash e) ->
  (forall vars result, go' vars result -> post (k vars result) go continue crash) ->
  post (next s k) go continue crash.
Proof. destruct s; simpl; eauto. Qed.

(** *** Names are assigned before they are read *)

(** What the body keeps: [savings] stays assigned, the row stays free of
    caught [NameError]s, and only [savings] can be found unassigned. *)
Lemma body_names graph pt_node_order vars result :
  post (body Simulate empty_cache time_replay flags graph pt_node_order
             vars result)
    (fun vars' result' =>
       (is_Some (savings vars) -> is_Some (savings vars'))
       ∧ (clean result -> clean result'))
    (fun vars' _ => is_Some (savings vars) -> is_Some (savings vars'))
    (fun e => forall name,
       e = NameError name -> name = "savings" ∧ savings vars = None).
Proof.
  unfold body.
  eapply post_next'; [apply simulation_post|done|..].
  { intros e (_ & what & _ & ->). done. }
  intros v1 r1 (Hp1 & Ho1 & Hs1 & H1).
  eapply post_next'; [apply profile_post|done|..].
  { intros e (_ & He) name ->. by destruct (He name). }
  intros v2 r2 (-> & H2).
  assert (clean result -> clean r2) as Hclean2.
  { intros Hc. destruct (args.skip_simulation flags),
                        (args.profile_alloc_time flags).
    - destruct H1 as [_ ->]. destruct H2 as (st & rt & _ & _ & _ & ->).
      apply clean_app; [done|]. repeat (apply clean_cons; [done|]).
      apply clean_nil.
    - destruct H1 as [_ ->]. by subst.
    - destruct H1 as (sim & _ & _ & ->).
      destruct H2 as (st & rt & _ & _ & _ & ->).
      repeat apply clean_app; try done;
        repeat (apply clean_cons; [done|]); apply clean_nil.
    - destruct H1 as (sim & _ & _ & ->). subst.
      apply clean_app; [done|]. apply clean_cons; [done|]. apply clean_nil. }
  assert (args.skip_simulation flags = false ->
          is_Some (simulated_mem_usage v1)) as Hsim.
  { intros Hss. rewrite Hss in H1. destruct H1 as (sim & _ & -> & _). eauto. }
  clear H1 H2.
  eapply post_next'; [apply node_ordering_post|..].
  { intros v3 r3 (_ & _ & _ & Hs3 & _). by rewrite Hs3, Hs1. }
  { intros e (_ & _ & ->). done. }
  intros v3 r3 (Hsim3 & Hs3 & H3).
  assert ((clean result -> clean r3)
          ∧ (args.skip_node_ordering flags = false ->
             is_Some (peak_mem_usage v3) ∧ is_Some (node_ordering v3)))
    as [Hclean3 Hbound3].
  { destruct (args.skip_node_ordering flags).
    - destruct H3 as [-> ->]. done.
    - destruct H3 as (_ & peak & order & sim & _ & -> & -> & _ & _ & ->).
      split; [|eauto]. intros Hc. apply clean_app; [by apply Hclean2|].
      apply clean_cons; [done|]. apply clean_nil. }
  clear H3.
  eapply post_next'; [apply address_generation_post|done|..].
  { intros e (_ & [[_ ->]|(_ & _ & ->)]); done. }
  intros v4 r4 (_ & Ho4 & Hs4 & Hp4 & H4).
  assert ((clean result -> clean r4)
          ∧ (args.skip_node_ordering flags = false ->
             is_Some (peak_mem_usage v4) ∧ is_Some (node_ordering v4)))
    as [Hclean4 Hbound4].
  { split.
    - intros Hc. destruct (args.generate_addresses flags).
      + destruct H4 as (_ & Hso & cells & -> & Hcells).
        apply clean_app; [by apply Hclean3|].
        apply Hcells. by apply Hbound3.
      + destruct H4 as [_ ->]. by apply Hclean3.
    - intros Hso. destruct (Hbound3 Hso). rewrite Ho4. eauto. }
  clear H4.
  eapply post_next'; [apply rematerialization_post|done|..].
  { intros e (_ & [[_ ->]|[(_ & _ & ->)|(_ & _ & -> & Hnone)]]); try done.
    intros name [= <-]. split; [done|]. congruence. }
  intros v5 r5 H5.
  assert ((clean result -> clean r5)
          ∧ (args.skip_node_ordering flags = false ->
             is_Some (peak_mem_usage v5) ∧ is_Some (node_ordering v5))
          ∧ (is_Some (savings vars) -> is_Some (savings v5)))
    as (Hclean5 & Hbound5 & Hs5).
  { destruct (args.rematerialization flags).
    - destruct H5 as (_ & Hso & _ & Hp5 & Ho5 & Hsav & cells & -> & Hcells).
      destruct (Hbound4 Hso). split_and!.
      + intros Hc. apply clean_app; [by apply Hclean4|]. by apply Hcells.
      + intros _. by rewrite Hp5, Ho5.
      + intros Hs. apply Hsav. congruence.
    - destruct H5 as [-> ->]. split_and!; try done. congruence. }
  clear H5.
  eapply post_weaken; [apply spilling_post|..]; try done.
  - intros v6 r6 H6. simpl in H6. destruct (args.spilling flags).
    + destruct H6 as (_ & Hso & _ & _ & _ & Hsav & cells & -> & Hcells).
      destruct (Hbound5 Hso). split; [by eauto|].
      intros Hc. apply clean_app; [by apply Hclean5|]. by apply Hcells.
    + destruct H6 as [-> ->]. done.
  - intros e (_ & [[_ ->]|[(_ & _ & ->)|(_ & _ & -> & Hnone)]]); try done.
    intros name [= <-]. split; [done|].
    destruct (savings vars) eqn:Hs; [|done].
    destruct Hs5 as [? Hs5]; [eauto|]. congruence.
Qed.

(** *** Switches that contradict each other *)

(** X15. With switches that are not consistent ([--skip-simulation]
    without [--skip-node-ordering], or [--skip-node-ordering] together
    with [--generate-addresses], [--rematerialization] or [--spilling])
    the first pass of the loop ends the program with an exception: no
    row is appended and none is dropped with [continue]. *)
Theorem inconsistent_switches_crash graph pt_node_order vars result :
  consistent flags = false ->
  exists e,
    body Simulate empty_cache time_replay flags graph pt_node_order vars result
    = Crash e.
Proof.
  intros Hc. unfold consistent in Hc.
  cut (post (body Simulate empty_cache time_replay flags graph pt_node_order
                  vars result)
         (fun _ _ => False) (fun _ _ => False) (fun _ => True)).
  { destruct (body _ _ _ _ _ _ _ _); simpl; by eauto. }
  unfold body.
  eapply post_next'; [apply simulation_post|done|done|]. intros v1 r1 _.
  eapply post_next'; [apply profile_post|done|done|]. intros v2 r2 _.
  eapply post_next'; [apply node_ordering_post|..]; [|done|].
  { intros v3 r3 (Hso & Hss & _). rewrite Hso, Hss in Hc. simpl in Hc.
    discriminate Hc. }
  intros v3 r3 (_ & _ & F3).
  eapply post_next'; [apply address_generation_post|done|done|].
  intros v4 r4 (_ & _ & _ & _ & F4).
  eapply post_next'; [apply rematerialization_post|done|done|].
  intros v5 r5 F5.
  eapply post_weaken; [apply spilling_post|..]; try done.
  intros v6 r6 F6. cbv beta in *.
  destruct (args.skip_simulation flags), (args.skip_node_ordering flags),
    (args.generate_addresses flags), (args.rematerialization flags),
    (args.spilling flags); simpl in *; try discriminate;
    intuition discriminate.
Qed.

(** *** The handler that reads [savings] *)

(** X16. If [savings] has not been assigned yet (no sweep has started a
    level, in this pass or an earlier one) and, with [--rematerialization]
    given, node ordering succeeds but [ComputeMinimumMemoryRequired]
    raises, then the [except] block meant to log the failure raises
    [NameError] itself, when it formats [savings], and the program
    ends. *)
Theorem unbound_savings_crash graph pt_node_order vars result
    simulated peak order what :
  args.rematerialization flags = true ->
  args.skip_simulation flags = false ->
  args.skip_node_ordering flags = false ->
  args.profile_alloc_time flags = false ->
  savings vars = None ->
  Simulate graph pt_node_order = Returns simulated ->
  ¬ (simulated == 0)%Q ->
  run_node_ordering graph = Ok (peak, order) ->
  ComputeMinimumMemoryRequired graph default_params = Throws what ->
  body Simulate empty_cache time_replay flags graph pt_node_order vars result
  = Crash (NameError "savings").
Proof.
  intros Hre Hss Hso Hpr Hsav HSim Hnz Hrun Hmin.
  unfold body, simulation. rewrite Hss, HSim. cbn [next].
  unfold profile. rewrite Hpr. cbn [next].
  unfold node_ordering_phase. rewrite Hso, Hss, Hrun.
  cbn [simulated_mem_usage]. unfold div.
  destruct (Qeq_bool simulated 0) eqn:Hz; [by apply Qeq_bool_iff in Hz|].
  cbn [next].
  match goal with
  | |- next (address_generation_phase _ _ ?v ?r) _ = _ =>
      pose proof (address_generation_post graph v r) as H4;
      destruct (address_generation_phase flags graph v r) as [v4 r4|v4 r4|e]
  end; simpl in H4; [|done|].
  - destruct H4 as (_ & _ & Hs4 & _). cbn [next].
    unfold rematerialization_phase. rewrite Hre, Hss, Hso, Hmin. cbn [call].
    unfold handler. rewrite Hs4. simpl. by rewrite Hsav.
  - destruct H4 as (_ & [[Hss' _]|(_ & Hso' & _)]); congruence.
Qed.

(** *** Rows that are dropped *)

(** X17. When the simulator reports a peak of zero, a successful node
    ordering is logged as a failure: the message that reports the saving
    divides by the simulated peak, the [ZeroDivisionError] is caught by
    the node-ordering handler, and the pass ends with [continue], so the
    row is not appended. *)
Theorem zero_simulated_usage_drops_row graph pt_node_order vars result
    simulated peak order :
  args.skip_simulation flags = false ->
  args.skip_node_ordering flags = false ->
  args.profile_alloc_time flags = false ->
  Simulate graph pt_node_order = Returns simulated ->
  (simulated == 0)%Q ->
  run_node_ordering graph = Ok (peak, order) ->
  body Simulate empty_cache time_replay flags graph pt_node_order vars result
  = Continue
      {| simulated_mem_usage := Some simulated;
         peak_mem_usage := Some peak;
         node_ordering := Some order;
         savings := savings vars |}
      ((result ++ [(Column "simulated_mem_usage", Number simulated)])
       ++ [(Column "node_ordering.error", Message (Failed ZeroDivisionError))]).
Proof.
  intros Hss Hso Hpr HSim Hz Hrun.
  unfold body, simulation. rewrite Hss, HSim. cbn [next].
  unfold profile. rewrite Hpr. cbn [next].
  unfold node_ordering_phase. rewrite Hso, Hss, Hrun.
  cbn [simulated_mem_usage]. unfold div.
  apply Qeq_bool_iff in Hz. by rewrite Hz.
Qed.

(** X18. A pass ends with [continue] only in the node-ordering part:
    either [run_node_ordering] raised, or it returned and the simulated
    peak was zero.  Failures of address generation, rematerialization
    and spilling never drop the row. *)
Theorem dropped_only_by_node_ordering graph pt_node_order vars result
    vars' result' :
  body Simulate empty_cache time_replay flags graph pt_node_order vars result
  = Continue vars' result' ->
  args.skip_node_ordering flags = false
  ∧ ((exists f, run_node_ordering graph = Raise f)
     ∨ exists simulated,
         Simulate graph pt_node_order = Returns simulated
         ∧ (simulated == 0)%Q).
Proof.
  intros E.
  cut (post (body Simulate empty_cache time_replay flags graph pt_node_order
                  vars result)
         (fun _ _ => True)
         (fun _ _ =>
            args.skip_node_ordering flags = false
            ∧ ((exists f, run_node_ordering graph = Raise f)
               ∨ exists simulated,
                   Simulate graph pt_node_order = Returns simulated
                   ∧ (simulated == 0)%Q))
         (fun _ => True)).
  { by rewrite E. }
  clear E. unfold body.
  eapply post_next'; [apply simulation_post|done|done|].
  intros v1 r1 (_ & _ & _ & H1).
  eapply post_next'; [apply profile_post|done|done|].
  intros v2 r2 (-> & _).
  eapply post_next'; [apply node_ordering_post|..]; [|done|].
  { intros v3 r3 (Hso & Hss & _ & _ & e & _ & He). split; [done|].
    rewrite Hss in H1. destruct H1 as (sim & HSim & Hsim & _).
    destruct He as [(f & Hf & _)|(p & o & _ & _ & _ & He)]; [eauto|].
    destruct He as [[Hnone _]|(sim' & Hsim' & Hz & _)]; [congruence|].
    right. exists sim. split; [done|]. congruence. }
  intros v3 r3 _.
  eapply post_next'; [apply address_generation_post|done|done|].
  intros v4 r4 _.
  eapply post_next'; [apply rematerialization_post|done|done|].
  intros v5 r5 _.
  eapply post_weaken; [apply spilling_post|..]; done.
Qed.

(** *** Profiling an ordering without tensors *)

(** X19. With [--profile-alloc-time], a loaded ordering none of whose
    fanout edges has a positive size never yields a row: there is
    nothing to replay, the count of allocation pairs is zero, and the
    average the body prints divides by it; this [ZeroDivisionError] is
    outside every [try], so the program ends, unless another exception
    ended it before. *)
Theorem profiling_nothing_crashes graph pt_node_order vars result :
  args.profile_alloc_time flags = true ->
  (forall n e, n ∈ pt_node_order -> e ∈ fanout n -> esize e <= 0) ->
  (exists e,
     body Simulate empty_cache time_replay flags graph pt_node_order vars result
     = Crash e)
  ∧ forall u st runtime,
      empty_cache = Returns u ->
      Alloc.measure_pt_alloc_time pt_node_order = Alloc.Done st ->
      time_replay (Alloc.mem_sequence st) = Returns runtime ->
      profile empty_cache time_replay flags pt_node_order vars result
      = Crash (Failed ZeroDivisionError).
Proof.
  intros Hpr Hnone.
  assert (forall st, Alloc.measure_pt_alloc_time pt_node_order = Alloc.Done st ->
                     (Alloc.num_alloc_dealloc_pairs 100 st == 0)%Q) as Hzero.
  { intros st Hst. by rewrite (no_tensors_no_pairs pt_node_order st 100). }
  split.
  - cut (post (body Simulate empty_cache time_replay flags graph pt_node_order
                    vars result)
           (fun _ _ => False) (fun _ _ => False) (fun _ => True)).
    { destruct (body _ _ _ _ _ _ _ _); simpl; by eauto. }
    unfold body.
    eapply post_next'; [apply simulation_post|done|done|]. intros v1 r1 _.
    eapply post_next'; [apply profile_post|done|done|].
    intros v2 r2 (_ & H2). rewrite Hpr in H2.
    destruct H2 as (st & runtime & Hst & _ & Hnz & _).
    destruct Hnz. by apply Hzero.
  - intros u st runtime Hcache Hst Hrun. unfold profile.
    rewrite Hpr, Hcache, Hst, Hrun. cbv zeta.
    by rewrite HarnessMoreFacts.div_zero by by apply Hzero.
Qed.

(** *** The loops *)

Variable load_model : string -> string -> Z -> Call (Graph * list Node).
Variable profiled : Graph -> Call (Q * Q).

Lemma pass_names model mode batch_size vars :
  post (pass Simulate empty_cache time_replay flags load_model profiled
             model mode batch_size vars)
    (fun vars' result' =>
       (is_Some (savings vars) -> is_Some (savings vars')) ∧ clean result')
    (fun vars' _ => is_Some (savings vars) -> is_Some (savings vars'))
    (fun e => forall name,
       e = NameError name -> name = "savings" ∧ savings vars = None).
Proof.
  unfold pass.
  destruct (load_model model mode batch_size) as [[graph pt_node_order]|what];
    [|done].
  set (result := [(Column "model", Text model); _; _]).
  assert (clean result) as Hclean
    by (repeat (apply clean_cons; [done|]); apply clean_nil).
  unfold profile_cells. destruct (args.gpu_profile flags).
  - destruct (profiled graph) as [[fragmentation bytes]|what]; [|done].
    cbn [next]. eapply post_weaken; [apply body_names|..]; try done.
    intros vars' result' [Hs Hc]. split; [done|]. apply Hc.
    apply clean_app; [done|].
    repeat (apply clean_cons; [done|]); apply clean_nil.
  - cbn [next]. eapply post_weaken; [apply body_names|..]; try done.
    intros vars' result' [Hs Hc]. split; [done|]. by apply Hc.
Qed.

(** What a run of some of the loops keeps. *)
Lemma for_batch_size_names model mode batch_sizes : forall vars results,
  Forall clean results ->
  match for_batch_size Simulate empty_cache time_replay flags load_model
          profiled model mode batch_sizes vars results with
  | Finished vars' results' =>
      (is_Some (savings vars) -> is_Some (savings vars'))
      ∧ Forall clean results'
  | Ended results' e =>
      Forall clean results'
      ∧ forall name, e = NameError name ->
                     name = "savings" ∧ savings vars = None
  end.
Proof.
  induction batch_sizes as [|batch_size rest IH]; intros vars results Hres;
    simpl; [done|].
  pose proof (pass_names model mode batch_size vars) as Hpass.
  destruct (pass _ _ _ _ _ _ _ _ _ _) as [v r|v r|e]; simpl in Hpass.
  - destruct Hpass as [Hs Hc].
    specialize (IH v (results ++ [r])).
    destruct (for_batch_size _ _ _ _ _ _ _ _ _ _ _) as [v' r'|r' e].
    + destruct IH as [IH1 IH2].
      { apply Forall_app. split; [done|]. by apply Forall_singleton. }
      split; [|done]. intros Hsome. by apply IH1, Hs.
    + destruct IH as [IH1 IH2].
      { apply Forall_app. split; [done|]. by apply Forall_singleton. }
      split; [done|]. intros name Hname.
      destruct (IH2 name Hname) as [-> Hnone]. split; [done|].
      destruct (savings vars); [|done].
      destruct Hs as [? Hs]; [eauto|]. congruence.
  - specialize (IH v results Hres).
    destruct (for_batch_size _ _ _ _ _ _ _ _ _ _ _) as [v' r'|r' e].
    + destruct IH as [IH1 IH2]. split; [|done].
      intros Hsome. by apply IH1, Hpass.
    + destruct IH as [IH1 IH2]. split; [done|]. intros name Hname.
      destruct (IH2 name Hname) as [-> Hnone]. split; [done|].
      destruct (savings vars); [|done].
      destruct Hpass as [? Hs]; [eauto|]. congruence.
  - split; [done|]. intros name ->. by apply Hpass.
Qed.

Lemma for_mode_names model modes : forall vars results,
  Forall clean results ->
  match for_mode Simulate empty_cache time_replay flags load_model
          profiled model modes vars results with
  | Finished vars' results' =>
      (is_Some (savings vars) -> is_Some (savings vars'))
      ∧ Forall clean results'
  | Ended results' e =>
      Forall clean results'
      ∧ forall name, e = NameError name ->
                     name = "savings" ∧ savings vars = None
  end.
Proof.
  induction modes as [|mode rest IH]; intros vars results Hres; simpl; [done|].
  pose proof (for_batch_size_names model mode (args.batch_size flags)
                vars results Hres) as Hinner.
  destruct (for_batch_size _ _ _ _ _ _ _ _ _ _ _) as [v r|r e]; [|done].
  destruct Hinner as [Hs Hc]. specialize (IH v r Hc).
  destruct (for_mode _ _ _ _ _ _ _ _ _ _) as [v' r'|r' e].
  - destruct IH as [IH1 IH2]. split; [|done]. intros Hsome. by apply IH1, Hs.
  - destruct IH as [IH1 IH2]. split; [done|]. intros name Hname.
    destruct (IH2 name Hname) as [-> Hnone]. split; [done|].
    destruct (savings vars); [|done].
    destruct Hs as [? Hs]; [eauto|]. congruence.
Qed.

Lemma for_model_names models : forall vars results,
  Forall clean results ->
  match for_model Simulate empty_cache time_replay flags load_model
          profiled models vars results with
  | Finished vars' results' =>
      (is_Some (savings vars) -> is_Some (savings vars'))
      ∧ Forall clean results'
  | Ended results' e =>
      Forall clean results'
      ∧ forall name, e = NameError name ->
                     name = "savings" ∧ savings vars = None
  end.
Proof.
  induction models as [|model rest IH]; intros vars results Hres; simpl;
    [done|].
  destruct (modes flags model) as [ms|f]; [|done].
  pose proof (for_mode_names model ms vars results Hres) as Hinner.
  destruct (for_mode _ _ _ _ _ _ _ _ _ _) as [v r|r e]; [|done].
  destruct Hinner as [Hs Hc]. specialize (IH v r Hc).
  destruct (for_model _ _ _ _ _ _ _ _ _) as [v' r'|r' e].
  - destruct IH as [IH1 IH2]. split; [|done]. intros Hsome. by apply IH1, Hs.
  - destruct IH as [IH1 IH2]. split; [done|]. intros name Hname.
    destruct (IH2 name Hname) as [-> Hnone]. split; [done|].
    destruct (savings vars); [|done].
    destruct Hs as [? Hs]; [eauto|]. congruence.
Qed.

(** X14. Whatever the arguments, the models and the package do, the
    only global the main program can find unassigned is [savings]: if a
    [NameError] ends the program it is the one for [savings], and no
    row appended to [results] holds a caught [NameError].  The
    assertions on the switches see to it that [simulated_mem_usage],
    [peak_mem_usage] and [node_ordering] are assigned before they are
    read. *)
Theorem only_savings_can_be_unbound :
  match main Simulate empty_cache time_replay flags load_model profiled with
  | Finished _ results => Forall clean results
  | Ended results e =>
      Forall clean results
      ∧ forall name, e = NameError name -> name = "savings"
  end.
Proof.
  unfold main.
  pose proof (for_model_names (args.model flags) unbound [] (Forall_nil_2 _))
    as Hmain.
  destruct (for_model _ _ _ _ _ _ _ _ _) as [v r|r e].
  - by destruct Hmain.
  - destruct Hmain as [Hc Hname]. split; [done|].
    intros name He. by destruct (Hname name He).
Qed.

End BodyFacts.

Lemma inconsistent_switches_crash_witness :
  let O := stub (summary_of 160 160 0 0) Sample.order 60 in
  exists e,
    body (simulator_reporting 160) (Returns tt) one_second
         addresses_without_ordering
         sample_graph Sample.order unbound []
    = Crash e.
Proof.
  intros O.
  apply (@inconsistent_switches_crash O (simulator_reporting 160)
           (Returns tt) one_second
           addresses_without_ordering).
  reflexivity.
Defined.

Lemma unbound_savings_crash_witness :
  let O := stub_without_floor (summary_of 160 160 0 0) Sample.order in
  body (simulator_reporting 160) (Returns tt) one_second
       rematerialization_only sample_graph Sample.order unbound []
  = Crash (NameError "savings").
Proof.
  intros O.
  apply (@unbound_savings_crash O (simulator_reporting 160) (Returns tt)
           one_second rematerialization_only sample_graph Sample.order
           unbound [] 160%Q 160%Q Sample.order "infeasible");
    try reflexivity.
  intros Hz. discriminate Hz.
Defined.

Lemma zero_simulated_usage_drops_row_witness :
  let O := stub (summary_of 0 0 0 0) Sample.order 0 in
  body (simulator_reporting 0) (Returns tt) one_second defaults
       sample_graph Sample.order unbound []
  = Continue
      {| simulated_mem_usage := Some 0%Q;
         peak_mem_usage := Some 0%Q;
         node_ordering := Some Sample.order;
         savings := None |}
      (([] ++ [(Column "simulated_mem_usage", Number 0)])
       ++ [(Column "node_ordering.error", Message (Failed ZeroDivisionError))]).
Proof.
  intros O.
  apply (@zero_simulated_usage_drops_row O (simulator_reporting 0)
           (Returns tt) one_second defaults sample_graph Sample.order
           unbound [] 0%Q 0%Q Sample.order);
    reflexivity.
Defined.

Lemma dropped_only_by_node_ordering_witness :
  let O := stub (summary_of 0 0 0 0) Sample.order 0 in
  args.skip_node_ordering defaults = false
  ∧ ((exists f, run_node_ordering sample_graph = Raise f)
     ∨ exists simulated,
         simulator_reporting 0 sample_graph Sample.order = Returns simulated
         ∧ (simulated == 0)%Q).
Proof.
  intros O.
  apply (@dropped_only_by_node_ordering O (simulator_reporting 0)
           (Returns tt) one_second defaults sample_graph Sample.order
           unbound []
           {| simulated_mem_usage := Some 0%Q;
              peak_mem_usage := Some 0%Q;
              node_ordering := Some Sample.order;
              savings := None |}
           [(Column "simulated_mem_usage", Number 0);
            (Column "node_ordering.error",
             Message (Failed ZeroDivisionError))]).
  vm_compute. reflexivity.
Defined.

(** The ordering [[control_only]] is walked without a [KeyError], has
    nothing to replay, and the pass ends at the division. *)
Example control_only_pass :
  let O := stub (summary_of 0 0 0 0) Sample.order 0 in
  Alloc.measure_pt_alloc_time [control_only] = Alloc.Done Alloc.init
  ∧ body (simulator_reporting 0) (Returns tt) one_second profile_only
         sample_graph [control_only] unbound []
    = Crash (Failed ZeroDivisionError).
Proof. intros O. split; reflexivity. Qed.

Lemma profiling_nothing_crashes_witness :
  let O := stub (summary_of 0 0 0 0) Sample.order 0 in
  (exists e,
     body (simulator_reporting 0) (Returns tt) one_second profile_only
          sample_graph [control_only] unbound []
     = Crash e)
  ∧ Alloc.measure_pt_alloc_time [control_only] = Alloc.Done Alloc.init
  ∧ profile (Returns tt) one_second profile_only [control_only] unbound []
    = Crash (Failed ZeroDivisionError).
Proof.
  intros O.
  destruct (@profiling_nothing_crashes O (simulator_reporting 0) (Returns tt)
              one_second profile_only sample_graph [control_only] unbound [])
    as [Hbody Hprofile].
  - reflexivity.
  - intros n e Hn He. apply list_elem_of_singleton in Hn as ->.
    apply list_elem_of_singleton in He as ->. reflexivity.
  - split_and!; [exact Hbody|reflexivity|].
    apply (Hprofile tt Alloc.init 1%Q); reflexivity.
Defined.

End MainFacts.
